(** * MercadoSniper: the canonical-vehicle entity-resolution engine

    A shallow embedding of [backend/services/canonical_vehicle_service.py]
    (class [CanonicalVehicleService]) and of the parts of the Python runtime
    it calls ([str] methods, the [re] patterns it uses, [difflib]'s
    [SequenceMatcher.ratio]), followed by the properties of the
    specification that concern them.

    Conventions of the embedding.
    - A Python [str] is a list of Unicode code points ([N]).  [None] is the
      [None] of [option].
    - A Python [float] is modelled by the rational it denotes ([Q]); results
      are compared with [==].  Every threshold the code tests is a decimal
      literal, read as the rational it is written as.  Rounding and overflow
      of binary64 are not modelled: a comparison whose two sides are equal
      as rationals, or a number beyond the range of binary64, can come out
      differently in Python.  The concrete inputs used below stay away from
      such ties, and the general statements that rest on the outcome of
      such a comparison assume that its sides are clear of one another
      ([clear_of_tie], [score_clear]).
    - A Python function that can raise returns a [result]; the storage
      collaborator (MongoDB through motor) is a record of two collections
      threaded through a state-and-exception monad. *)

From Stdlib Require Import List Bool Arith ZArith NArith QArith Lia String Ascii.
From Stdlib Require Import Qabs Lqa Permutation Sorted Morphisms.
Import ListNotations.

Close Scope Q_scope.

(* ===================================================================== *)
(** * Python strings                                                      *)
(* ===================================================================== *)

Definition char := N.
Definition str := list char.

(** An ASCII literal as a Python [str]. *)
Definition py (s : string) : str := map N_of_ascii (list_ascii_of_string s).

Definition str_eqb (s t : str) : bool :=
  if list_eq_dec N.eq_dec s t then true else false.

(** Python truthiness of an [Optional[str]]: [None] and [""] are falsy. *)
Definition truthy (o : option str) : bool :=
  match o with
  | Some (_ :: _) => true
  | _ => false
  end.

(** The value of a truthy field ([""] for a falsy one, which is never read). *)
Definition val (o : option str) : str :=
  match o with Some s => s | None => [] end.

(** ** The Unicode character database

    [re]'s [\s], [\w], [\d] and [str.lower] consult CPython's Unicode
    tables.  They are tabulated here for the blocks Basic Latin, Latin-1
    Supplement, Latin Extended-A (U+0000..U+017F) and Combining Diacritical
    Marks (U+0300..U+036F); [in_table] delimits that range, and statements
    that depend on the tables are made about strings inside it. *)
Module Unicode.

Definition between (lo c hi : N) : bool := ((lo <=? c) && (c <=? hi))%N.

Definition in_table (c : char) : bool :=
  ((c <? 384) || between 768 c 879)%N.

(** [Py_UNICODE_ISSPACE]: what [\s] and [str.strip]/[str.split] test. *)
Definition isspace (c : char) : bool :=
  between 9 c 13 || between 28 c 32 || (c =? 133)%N || (c =? 160)%N.

(** [Py_UNICODE_ISDECIMAL]: what [\d] tests. *)
Definition isdecimal (c : char) : bool := between 48 c 57.

(** [Py_UNICODE_ISALNUM]. *)
Definition isalnum (c : char) : bool :=
  isdecimal c || between 65 c 90 || between 97 c 122
  || existsb (N.eqb c) [170; 178; 179; 181; 185; 186; 188; 189; 190]%N
  || between 192 c 214 || between 216 c 246 || between 248 c 383.

(** [\w]: alphanumeric or the underscore. *)
Definition isword (c : char) : bool := isalnum c || (c =? 95)%N.

(** [str.lower] on one code point.  U+0130 (capital I with dot above) is
    the one code point of the table whose lower case is two code points:
    [i] followed by U+0307 (combining dot above). *)
Definition lower1 (c : char) : list char :=
  if between 65 c 90 || between 192 c 214 || between 216 c 222
  then [c + 32]%N
  else if (c =? 304)%N then [105; 775]%N
  else if (c =? 376)%N then [255]%N
  else if (between 256 c 303 || between 306 c 311 || between 330 c 375)
          && N.even c then [c + 1]%N
  else if (between 313 c 328 || between 377 c 382) && N.odd c then [c + 1]%N
  else [c].

End Unicode.

Definition lower (s : str) : str := flat_map Unicode.lower1 s.

Fixpoint dropwhile (p : char -> bool) (s : str) : str :=
  match s with
  | [] => []
  | c :: t => if p c then dropwhile p t else s
  end.

(** Trailing whitespace removed. *)
Fixpoint rstrip (s : str) : str :=
  match s with
  | [] => []
  | c :: t =>
      match rstrip t with
      | [] => if Unicode.isspace c then [] else [c]
      | t' => c :: t'
      end
  end.

(** [str.strip()]: leading and trailing whitespace removed. *)
Definition strip (s : str) : str := rstrip (dropwhile Unicode.isspace s).

(** [re.sub(P+, ' ', text)] for a one-character class [P]: every maximal run
    of characters of the class becomes one space.  [inrun] tells that the
    previous character belonged to a run already replaced. *)
Fixpoint sub_runs (p : char -> bool) (inrun : bool) (s : str) : str :=
  match s with
  | [] => []
  | c :: t =>
      if p c
      then (if inrun then sub_runs p true t else 32%N :: sub_runs p true t)
      else c :: sub_runs p false t
  end.

(** [str.split()] with no argument: the maximal runs of non-whitespace.
    [cur] is the word being read, reversed. *)
Fixpoint split_aux (cur : str) (s : str) : list str :=
  match s with
  | [] => match cur with [] => [] | _ => [rev cur] end
  | c :: t =>
      if Unicode.isspace c
      then match cur with
           | [] => split_aux [] t
           | _ => rev cur :: split_aux [] t
           end
      else split_aux (c :: cur) t
  end.

Definition split (s : str) : list str := split_aux [] s.

(* ===================================================================== *)
(** * Normalizer                                                          *)
(* ===================================================================== *)

Definition is_hyphen (c : char) : bool := ((c =? 45) || (c =? 95))%N.

(** [_normalize_string] *)
Definition _normalize_string (text : option str) : str :=
  if negb (truthy text) then []
  else
    let text := sub_runs is_hyphen false (val text) in            (* [-_]+ -> ' ' *)
    let text := filter (fun c => Unicode.isword c || Unicode.isspace c) text in
                                                                  (* [^\w\s] -> '' *)
    let text := sub_runs Unicode.isspace false text in            (* \s+ -> ' ' *)
    strip (lower text).

(* ===================================================================== *)
(** * [difflib.SequenceMatcher(None, a, b).ratio()]                       *)
(* ===================================================================== *)

(** The service calls [SequenceMatcher] with [isjunk=None] and the default
    [autojunk=True]: no element is junk, and, when [b] has 200 elements or
    more, the elements that occur more than [len(b) // 100 + 1] times are
    "popular" and are left out of the index [b2j]. *)
Module Difflib.

Definition Match := (nat * nat * nat)%type.          (* (i, j, size) *)

Definition count (c : char) (b : str) : nat :=
  List.length (filter (N.eqb c) b).

Definition popular (b : str) (c : char) : bool :=
  (200 <=? List.length b) && (List.length b / 100 + 1 <? count c b).

(** The positions of [c] in [b], in increasing order, numbered from [j]. *)
Fixpoint indices (c : char) (b : str) (j : nat) : list nat :=
  match b with
  | [] => []
  | x :: t => if (x =? c)%N then j :: indices c t (S j) else indices c t (S j)
  end.

(** [b2j.get(c, nothing)] after [__chain_b]. *)
Definition b2j (b : str) (c : char) : list nat :=
  if popular b c then [] else indices c b 0.

(** [j2len] and [newj2len] are dictionaries from positions of [b] to
    positive lengths, read only through [get(j, 0)]: they are modelled by
    that function. *)
Definition dict := nat -> nat.
Definition empty : dict := fun _ => 0.
Definition set (d : dict) (j k : nat) : dict :=
  fun j' => if j' =? j then k else d j'.
(** [j2len.get(j-1, 0)]; the key is [-1] when [j = 0]. *)
Definition get_pred (d : dict) (j : nat) : nat :=
  match j with 0 => 0 | S j' => d j' end.

(** The inner loop of [find_longest_match], over the positions [js] of
    [a[i]] in [b].  [i - k + 1] is written [i + 1 - k]: [k] never exceeds
    [i + 1]. *)
Fixpoint row (i blo bhi : nat) (j2len : dict) (js : list nat)
         (newj2len : dict) (best : Match) : dict * Match :=
  match js with
  | [] => (newj2len, best)
  | j :: js' =>
      if j <? blo then row i blo bhi j2len js' newj2len best       (* continue *)
      else if bhi <=? j then (newj2len, best)                      (* break *)
      else
        let k := get_pred j2len j + 1 in
        let newj2len := set newj2len j k in
        let '(_, _, bestsize) := best in
        let best := if bestsize <? k then (i + 1 - k, j + 1 - k, k) else best in
        row i blo bhi j2len js' newj2len best
  end.

(** The outer loop, over [i] in the list [rng]. *)
Fixpoint rows (a b : str) (blo bhi : nat) (rng : list nat)
         (j2len : dict) (best : Match) : Match :=
  match rng with
  | [] => best
  | i :: rng' =>
      let '(newj2len, best) :=
        row i blo bhi j2len (b2j b (nth i a 0%N)) empty best in
      rows a b blo bhi rng' newj2len best
  end.

(** First [while]: extend the block to the left. *)
Fixpoint extend_left (a b : str) (alo blo : nat) (besti bestj bestsize : nat)
  : Match :=
  match besti with
  | 0 => (besti, bestj, bestsize)
  | S i' =>
      if (alo <? besti) && (blo <? bestj)
         && (nth (besti - 1) a 0 =? nth (bestj - 1) b 0)%N
      then extend_left a b alo blo i' (bestj - 1) (bestsize + 1)
      else (besti, bestj, bestsize)
  end.

(** Second [while]: extend it to the right; [room] is
    [ahi - (besti + bestsize)], the number of iterations the first
    conjunct of the loop test allows. *)
Fixpoint extend_right (a b : str) (bhi : nat) (room : nat)
         (besti bestj bestsize : nat) : Match :=
  match room with
  | 0 => (besti, bestj, bestsize)
  | S room' =>
      if (bestj + bestsize <? bhi)
         && (nth (besti + bestsize) a 0 =? nth (bestj + bestsize) b 0)%N
      then extend_right a b bhi room' besti bestj (bestsize + 1)
      else (besti, bestj, bestsize)
  end.

(** [find_longest_match(alo, ahi, blo, bhi)].  The last two [while] loops
    of the source extend over junk elements only and do nothing here. *)
Definition find_longest_match (a b : str) (alo ahi blo bhi : nat) : Match :=
  let '(besti, bestj, bestsize) :=
    rows a b blo bhi (seq alo (ahi - alo)) empty (alo, blo, 0) in
  let '(besti, bestj, bestsize) :=
    extend_left a b alo blo besti bestj bestsize in
  extend_right a b bhi (ahi - (besti + bestsize)) besti bestj bestsize.

(** The [while queue] loop of [get_matching_blocks].  The Python list
    [queue] is kept with its last element first: [queue.pop()] is the head
    and [queue.append] conses.  Every iteration burns one unit of [fuel];
    [2 * len(a) + 1] units are enough ([matching_loop_fuel]). *)
Fixpoint matching_loop (a b : str) (fuel : nat)
         (queue : list (nat * nat * nat * nat)) (blocks : list Match)
  : list Match :=
  match fuel, queue with
  | _, [] => blocks
  | 0, _ => blocks
  | S fuel', (alo, ahi, blo, bhi) :: queue' =>
      let '(i, j, k) := find_longest_match a b alo ahi blo bhi in
      if k =? 0 then matching_loop a b fuel' queue' blocks
      else
        let queue1 :=
          if (alo <? i) && (blo <? j) then (alo, i, blo, j) :: queue'
          else queue' in
        let queue2 :=
          if (i + k <? ahi) && (j + k <? bhi)
          then (i + k, ahi, j + k, bhi) :: queue1 else queue1 in
        matching_loop a b fuel' queue2 (blocks ++ [(i, j, k)])
  end.

(** [matching_blocks] before it is sorted and adjacent blocks are merged:
    neither changes the sum of the sizes, which is all [ratio] reads. *)
Definition get_matching_blocks (a b : str) : list Match :=
  matching_loop a b (2 * List.length a + 1)
                [(0, List.length a, 0, List.length b)] [].

Definition size_sum (blocks : list Match) : nat :=
  fold_right (fun m acc => snd m + acc) 0 blocks.

(** [_calculate_ratio(matches, length)] *)
Definition _calculate_ratio (matches length : nat) : Q :=
  if length =? 0 then 1%Q
  else (2 * inject_Z (Z.of_nat matches) / inject_Z (Z.of_nat length))%Q.

Definition ratio (a b : str) : Q :=
  _calculate_ratio (size_sum (get_matching_blocks a b))
                   (List.length a + List.length b).

End Difflib.

(* ===================================================================== *)
(** * Exceptions                                                          *)
(* ===================================================================== *)

Inductive exn : Type :=
| ZeroDivisionError          (* int / int with a zero divisor *)
| InvalidId                  (* bson.ObjectId(s) on a malformed s *)
| TypeError                  (* subscripting [None] *)
| PyMongoError.              (* any failure of a storage operation *)

Inductive result (A : Type) : Type :=
| Ok (a : A)
| Raise (e : exn).
Arguments Ok {A} a.
Arguments Raise {A} e.

Definition rbind {A B : Type} (m : result A) (k : A -> result B) : result B :=
  match m with
  | Ok a => k a
  | Raise e => Raise e
  end.

Declare Scope result_scope.
Delimit Scope result_scope with result.
Notation "x <- m ;; k" := (rbind m (fun x => k))
  (at level 61, m at next level, right associativity) : result_scope.

(* ===================================================================== *)
(** * Records ([models/vehicle.py])                                       *)
(* ===================================================================== *)

Module VehicleStatus.
Inductive t := ACTIVE | SOLD | PAUSED | REMOVED.
Definition eqb (x y : t) : bool :=
  match x, y with
  | ACTIVE, ACTIVE | SOLD, SOLD | PAUSED, PAUSED | REMOVED, REMOVED => true
  | _, _ => false
  end.
End VehicleStatus.

Module CanonicalVehicleStatus.
Inductive t := ACTIVE | INACTIVE | MERGED.
End CanonicalVehicleStatus.

(** [VehicleCreate]: the listing handed to the matcher.  The fields the
    service never reads (price, url, location, ...) are left out. *)
Module VehicleCreate.
Record t := mk {
  title : str;
  brand : option str;
  model : option str;
  year : option str;
  edition : option str;
  engine : option str;
  transmission : option str;
  fuel_type : option str;
  doors : option Z
}.
End VehicleCreate.

(** A document of the [canonical_vehicles] collection.  [_id] is the
    hexadecimal form of the [ObjectId], which is what [str(doc["_id"])]
    returns.  The display-only fields ([canonical_title], [body_type],
    [specifications], [canonical_image_url], [price_trend]) are left out. *)
Module CanonicalVehicle.
Record t := mk {
  _id : str;
  brand : option str;
  model : option str;
  year : option str;
  edition : option str;
  engine : option str;
  transmission : option str;
  fuel_type : option str;
  doors : option Z;
  min_price : option Q;
  max_price : option Q;
  avg_price : option Q;
  median_price : option Q;
  total_listings : Z;
  active_listings : Z;
  total_views : Z;
  average_kilometers : option Q;
  status : CanonicalVehicleStatus.t;
  created_at : Z;
  updated_at : Z;
  last_market_update : option Z
}.
End CanonicalVehicle.

(** A document of the [vehicles] collection, with the keys the service
    reads. *)
Module Vehicle.
Record t := mk {
  canonical_vehicle_id : option str;
  status : VehicleStatus.t;
  price_numeric : option Q;
  views_count : option Z;
  kilometers : option str
}.
End Vehicle.

(* ===================================================================== *)
(** * Engine similarity                                                   *)
(* ===================================================================== *)

Inductive scan : Type :=
| Outside
| InInt (tok : str)          (* inside [\d+]; [tok] is reversed *)
| InFrac (tok : str).        (* after the [.]; [tok] is reversed *)

(** [re.findall(r'\d+\.?\d*', s)]: the leftmost, non-overlapping, greedy
    matches. *)
Fixpoint findall_numbers (st : scan) (s : str) : list str :=
  match s with
  | [] => match st with
          | Outside => []
          | InInt tok | InFrac tok => [rev tok]
          end
  | c :: t =>
      match st with
      | Outside =>
          if Unicode.isdecimal c then findall_numbers (InInt [c]) t
          else findall_numbers Outside t
      | InInt tok =>
          if Unicode.isdecimal c then findall_numbers (InInt (c :: tok)) t
          else if (c =? 46)%N then findall_numbers (InFrac (c :: tok)) t
          else rev tok :: findall_numbers Outside t
      | InFrac tok =>
          if Unicode.isdecimal c then findall_numbers (InFrac (c :: tok)) t
          else rev tok :: findall_numbers Outside t
      end
  end.

(** [float(tok)] for a token of [findall_numbers]: digits, with at most one
    [.] among them. *)
Fixpoint float_digits (frac : bool) (num : Z) (den : positive) (tok : str) : Q :=
  match tok with
  | [] => (num # den)%Q
  | c :: t =>
      if (c =? 46)%N then float_digits true num den t
      else
        let num := (num * 10 + Z.of_N (c - 48))%Z in
        if frac then float_digits true num (den * 10)%positive t
        else float_digits false num den t
  end.

Definition float (tok : str) : Q := float_digits false 0 1 tok.

Definition Qlt_bool (x y : Q) : bool := negb (Qle_bool y x).

(** A Python [set] of strings: a list without repetition. *)
Definition mem (w : str) (l : list str) : bool := existsb (str_eqb w) l.
Definition set_of (l : list str) : list str := nodup (list_eq_dec N.eq_dec) l.
Definition set_inter (x y : list str) : list str := filter (fun w => mem w y) x.
Definition set_union (x y : list str) : list str := set_of (x ++ y).

(** [_similar_engines] *)
Definition _similar_engines (engine1 engine2 : option str) : result bool :=
  if negb (truthy engine1) || negb (truthy engine2) then Ok false
  else
    let engine1_numbers := findall_numbers Outside (lower (val engine1)) in
    let engine2_numbers := findall_numbers Outside (lower (val engine2)) in
    if existsb (fun num1 =>
         existsb (fun num2 =>
           Qlt_bool (Qabs (float num1 - float num2)) 0.1) engine2_numbers)
         engine1_numbers
    then Ok true
    else
      let engine1_words := set_of (split (_normalize_string engine1)) in
      let engine2_words := set_of (split (_normalize_string engine2)) in
      let overlap := List.length (set_inter engine1_words engine2_words) in
      if 2 <=? overlap then Ok true
      else
        let union := List.length (set_union engine1_words engine2_words) in
        if union =? 0 then Raise ZeroDivisionError
        else Ok (Qlt_bool 0.5 (inject_Z (Z.of_nat overlap)
                               / inject_Z (Z.of_nat union))).

(* ===================================================================== *)
(** * Exact-match predicate and similarity scorer                         *)
(* ===================================================================== *)

Section Matching.
Import VehicleCreate.
Local Open Scope result_scope.

(** [_is_exact_match] *)
Definition _is_exact_match (vehicle_data : VehicleCreate.t)
           (canonical : CanonicalVehicle.t) : result bool :=
  if negb (str_eqb (_normalize_string (brand vehicle_data))
                   (_normalize_string (CanonicalVehicle.brand canonical)))
  then Ok false
  else if negb (str_eqb (_normalize_string (model vehicle_data))
                        (_normalize_string (CanonicalVehicle.model canonical)))
  then Ok false
  else if truthy (year vehicle_data) && truthy (CanonicalVehicle.year canonical)
          && negb (str_eqb (val (year vehicle_data))
                           (val (CanonicalVehicle.year canonical)))
  then Ok false
  else if truthy (edition vehicle_data)
          && truthy (CanonicalVehicle.edition canonical)
          && negb (str_eqb (_normalize_string (edition vehicle_data))
                           (_normalize_string (CanonicalVehicle.edition canonical)))
  then Ok false
  else if truthy (engine vehicle_data)
          && truthy (CanonicalVehicle.engine canonical)
  then
    similar <- _similar_engines (engine vehicle_data)
                                (CanonicalVehicle.engine canonical) ;;
    Ok similar
  else Ok true.

(** The string contribution of one field:
    [SequenceMatcher(None, normalize(x), normalize(y)).ratio()]. *)
Definition field_ratio (x y : option str) : Q :=
  Difflib.ratio (_normalize_string x) (_normalize_string y).

(** [_calculate_similarity] *)
Definition _calculate_similarity (vehicle_data : VehicleCreate.t)
           (canonical : CanonicalVehicle.t) : result Q :=
  let score := 0%Q in
  let total_weight := 0%Q in
  (* Brand similarity (weight: 0.25) *)
  let '(score, total_weight) :=
    if truthy (brand vehicle_data) && truthy (CanonicalVehicle.brand canonical)
    then
      let brand_sim :=
        field_ratio (brand vehicle_data) (CanonicalVehicle.brand canonical) in
      (score + brand_sim * 0.25, total_weight + 0.25)%Q
    else (score, total_weight) in
  (* Model similarity (weight: 0.25) *)
  let '(score, total_weight) :=
    if truthy (model vehicle_data) && truthy (CanonicalVehicle.model canonical)
    then
      let model_sim :=
        field_ratio (model vehicle_data) (CanonicalVehicle.model canonical) in
      (score + model_sim * 0.25, total_weight + 0.25)%Q
    else (score, total_weight) in
  (* Year similarity (weight: 0.2) *)
  let '(score, total_weight) :=
    if truthy (year vehicle_data) && truthy (CanonicalVehicle.year canonical)
    then
      let score :=
        if str_eqb (val (year vehicle_data)) (val (CanonicalVehicle.year canonical))
        then (score + 0.2)%Q else score in
      (score, total_weight + 0.2)%Q
    else (score, total_weight) in
  (* Edition similarity (weight: 0.2) *)
  let '(score, total_weight) :=
    if truthy (edition vehicle_data)
       && truthy (CanonicalVehicle.edition canonical)
    then
      let edition_sim :=
        field_ratio (edition vehicle_data) (CanonicalVehicle.edition canonical) in
      (score + edition_sim * 0.2, total_weight + 0.2)%Q
    else (score, total_weight) in
  (* Engine similarity (weight: 0.1) *)
  st <- (if truthy (engine vehicle_data)
            && truthy (CanonicalVehicle.engine canonical)
         then
           similar <- _similar_engines (engine vehicle_data)
                                       (CanonicalVehicle.engine canonical) ;;
           let engine_sim := if similar then 1%Q else 0%Q in
           Ok (score + engine_sim * 0.1, total_weight + 0.1)%Q
         else Ok (score, total_weight)) ;;
  let '(score, total_weight) := st in
  Ok (if Qlt_bool 0 total_weight then score / total_weight else 0)%Q.

End Matching.

(* ===================================================================== *)
(** * The storage collaborator                                            *)
(* ===================================================================== *)

(** The state the service works on: the two collections, a clock for
    [datetime.utcnow()], the counter from which [insert_one] draws fresh
    identifiers, and what [logger.error] has recorded.  [faults] decides the
    fate of the storage operations to come, one flag per operation: [true]
    makes the operation raise. *)
Record db : Type := mkdb {
  canonical_vehicles : list CanonicalVehicle.t;
  vehicles : list Vehicle.t;
  faults : list bool;
  clock : Z;
  next_id : N;
  log : list exn
}.

Definition M (A : Type) : Type := db -> result A * db.

Definition ret {A : Type} (a : A) : M A := fun s => (Ok a, s).
Definition raise {A : Type} (e : exn) : M A := fun s => (Raise e, s).
Definition bind {A B : Type} (m : M A) (k : A -> M B) : M B :=
  fun s => match m s with
           | (Ok a, s') => k a s'
           | (Raise e, s') => (Raise e, s')
           end.
(** [try: m  except Exception as e: h e] *)
Definition try_except {A : Type} (m : M A) (h : exn -> M A) : M A :=
  fun s => match m s with
           | (Ok a, s') => (Ok a, s')
           | (Raise e, s') => h e s'
           end.
(** A pure computation that may raise, run inside the service. *)
Definition lift {A : Type} (r : result A) : M A := fun s => (r, s).

Declare Scope db_scope.
Delimit Scope db_scope with db.
Notation "x <- m ;; k" := (bind m (fun x => k))
  (at level 61, m at next level, right associativity) : db_scope.
Notation "m ;; k" := (bind m (fun _ => k))
  (at level 61, right associativity) : db_scope.

(** One storage operation: consumes its flag and raises if it is set. *)
Definition storage_op : M unit :=
  fun s =>
    match faults s with
    | [] => (Ok tt, s)
    | flag :: rest =>
        let s' := mkdb (canonical_vehicles s) (vehicles s) rest (clock s)
                       (next_id s) (log s) in
        if flag then (Raise PyMongoError, s') else (Ok tt, s')
    end.

(** [datetime.utcnow()]: the clock is read and moves on. *)
Definition utcnow : M Z :=
  fun s => (Ok (clock s),
            mkdb (canonical_vehicles s) (vehicles s) (faults s) (clock s + 1)
                 (next_id s) (log s)).

(** [logger.error(...)] *)
Definition logger_error (e : exn) : M unit :=
  fun s => (Ok tt,
            mkdb (canonical_vehicles s) (vehicles s) (faults s) (clock s)
                 (next_id s) (log s ++ [e])).

Definition get_canonical_vehicles : M (list CanonicalVehicle.t) :=
  fun s => (Ok (canonical_vehicles s), s).
Definition put_canonical_vehicles (l : list CanonicalVehicle.t) : M unit :=
  fun s => (Ok tt, mkdb l (vehicles s) (faults s) (clock s) (next_id s) (log s)).
Definition get_vehicles : M (list Vehicle.t) :=
  fun s => (Ok (vehicles s), s).
Definition put_vehicles (l : list Vehicle.t) : M unit :=
  fun s => (Ok tt, mkdb (canonical_vehicles s) l (faults s) (clock s)
                        (next_id s) (log s)).

(** ** [bson.ObjectId] *)

Definition is_hex (c : char) : bool :=
  Unicode.between 48 c 57 || Unicode.between 97 c 102 || Unicode.between 65 c 70.

Definition hex_lower (c : char) : char :=
  if Unicode.between 65 c 70 then (c + 32)%N else c.

(** [ObjectId(s)]: a string of 24 hexadecimal digits, or [InvalidId].  The
    identifier is kept in the form [str(ObjectId(s))] prints. *)
Definition ObjectId (s : str) : result str :=
  if (List.length s =? 24) && forallb is_hex s then Ok (map hex_lower s)
  else Raise InvalidId.

Definition hex_digit (d : N) : char :=
  if (d <? 10)%N then (48 + d)%N else (87 + d)%N.

Fixpoint hex_digits (n : nat) (x : N) (acc : str) : str :=
  match n with
  | 0 => acc
  | S n' => hex_digits n' (x / 16)%N (hex_digit (x mod 16)%N :: acc)
  end.

(** The identifier [insert_one] generates from the counter. *)
Definition fresh_id (x : N) : str := hex_digits 24 x [].

(** ** Queries on [canonical_vehicles] *)

(** The query dictionary built by [_find_matching_canonical]: a regular
    expression (with option [i]) on [brand], one on [model], an equality
    on [year]; an absent key constrains nothing. *)
Record query : Type := mkquery {
  q_brand : option str;
  q_model : option str;
  q_year : option str
}.

Definition query_nonempty (q : query) : bool :=
  match q_brand q, q_model q, q_year q with
  | None, None, None => false
  | _, _, _ => true
  end.

(** [re.escape] (Python 3.7 and later): a backslash before each of the
    characters of [_special_chars_map]. *)
Definition re_special (c : char) : bool :=
  existsb (N.eqb c)
    [40; 41; 91; 93; 123; 125; 63; 42; 43; 45; 124; 94; 36; 92; 46; 38; 126;
     35; 32; 9; 10; 13; 11; 12]%N.

Definition re_escape (s : str) : str :=
  flat_map (fun c => if re_special c then [92%N; c] else [c]) s.

Definition lookup_by_id (oid : str) (l : list CanonicalVehicle.t)
  : option CanonicalVehicle.t :=
  find (fun c => str_eqb (CanonicalVehicle._id c) oid) l.

(** [update_one({"_id": oid}, {"$set": ...})]: the first document with that
    [_id] is rewritten by [f]. *)
Fixpoint update_first (oid : str) (f : CanonicalVehicle.t -> CanonicalVehicle.t)
         (l : list CanonicalVehicle.t) : list CanonicalVehicle.t :=
  match l with
  | [] => []
  | c :: t =>
      if str_eqb (CanonicalVehicle._id c) oid then f c :: t
      else c :: update_first oid f t
  end.

Definition opt_str_eqb (x : option str) (y : str) : bool :=
  match x with Some s => str_eqb s y | None => false end.

Section Storage.

(** The regular-expression engine of the database server, with option
    [i]: [re_compile p] is [None] when the server rejects the pattern,
    and otherwise the search of [p] in a subject string. *)
Variable re_compile : str -> option (str -> bool).

Definition regex_filter (pattern : option str)
  : result (option str -> bool) :=
  match pattern with
  | None => Ok (fun _ => true)
  | Some p =>
      match re_compile p with
      | None => Raise PyMongoError
      | Some search =>
          Ok (fun field => match field with
                           | Some subject => search subject
                           | None => false
                           end)
      end
  end.

Definition year_filter (y : option str) (field : option str) : bool :=
  match y with
  | None => true
  | Some y => opt_str_eqb field y
  end.

Local Open Scope db_scope.

(** [canonical_vehicles_collection.find(query).to_list(length=None)]:
    the matching documents in collection order. *)
Definition find_canonical (q : query) : M (list CanonicalVehicle.t) :=
  storage_op ;;
  on_brand <- lift (regex_filter (q_brand q)) ;;
  on_model <- lift (regex_filter (q_model q)) ;;
  docs <- get_canonical_vehicles ;;
  ret (filter (fun c => on_brand (CanonicalVehicle.brand c)
                        && on_model (CanonicalVehicle.model c)
                        && year_filter (q_year q) (CanonicalVehicle.year c))
              docs).

(** ** [_find_matching_canonical] *)

(** The loop "check for exact matches": [Some id] when it returns from
    inside the loop, [None] when it runs to its end. *)
Fixpoint exact_loop (vehicle_data : VehicleCreate.t)
         (candidates : list CanonicalVehicle.t) : result (option str) :=
  match candidates with
  | [] => Ok None
  | candidate :: rest =>
      rbind (_is_exact_match vehicle_data candidate) (fun exact =>
      if exact then Ok (Some (CanonicalVehicle._id candidate))
      else exact_loop vehicle_data rest)
  end.

(** The loop "check for fuzzy matches", with its threshold. *)
Fixpoint fuzzy_loop (threshold : Q) (vehicle_data : VehicleCreate.t)
         (candidates : list CanonicalVehicle.t) : result (option str) :=
  match candidates with
  | [] => Ok None
  | candidate :: rest =>
      rbind (_calculate_similarity vehicle_data candidate)
            (fun similarity_score =>
      if Qle_bool threshold similarity_score
      then Ok (Some (CanonicalVehicle._id candidate))
      else fuzzy_loop threshold vehicle_data rest)
  end.

Definition narrow_query (vehicle_data : VehicleCreate.t) : query :=
  let anchored (field : option str) :=
    if truthy field
    then Some ([94%N] ++ re_escape (val field) ++ [36%N])    (* ^...$ *)
    else None in
  mkquery (anchored (VehicleCreate.brand vehicle_data))
          (anchored (VehicleCreate.model vehicle_data))
          (if truthy (VehicleCreate.year vehicle_data)
           then VehicleCreate.year vehicle_data else None).

Definition broad_query (vehicle_data : VehicleCreate.t) : query :=
  mkquery (VehicleCreate.brand vehicle_data)
          (VehicleCreate.model vehicle_data) None.

Definition _find_matching_canonical (vehicle_data : VehicleCreate.t)
  : M (option str) :=
  try_except
    (let query := narrow_query vehicle_data in
     found <- (if query_nonempty query
               then
                 candidates <- find_canonical query ;;
                 exact <- lift (exact_loop vehicle_data candidates) ;;
                 match exact with
                 | Some id => ret (Some id)
                 | None => lift (fuzzy_loop 0.90 vehicle_data candidates)
                 end
               else ret None) ;;
     match found with
     | Some id => ret (Some id)
     | None =>
         if truthy (VehicleCreate.brand vehicle_data)
            && truthy (VehicleCreate.model vehicle_data)
         then
           broad_candidates <- find_canonical (broad_query vehicle_data) ;;
           lift (fuzzy_loop 0.95 vehicle_data (firstn 50 broad_candidates))
         else ret None
     end)
    (fun e => logger_error e ;; ret None).

(** ** [create_canonical_vehicle] *)

(** The arguments are the fields of the [CanonicalVehicleCreate] record the
    caller builds.  [insert_one] refuses an identifier already in the
    collection; [find_one] reads the document back.  The generated display
    title is not built. *)
Definition create_canonical_vehicle
           (brand model : str) (year edition engine transmission fuel_type
                                : option str) (doors : option Z)
  : M CanonicalVehicle.t :=
  try_except
    (created_at <- utcnow ;;
     updated_at <- utcnow ;;
     (* insert_one *)
     storage_op ;;
     docs <- get_canonical_vehicles ;;
     inserted_id <- (fun s => (Ok (fresh_id (next_id s)),
                               mkdb (canonical_vehicles s) (vehicles s)
                                    (faults s) (clock s) (next_id s + 1)
                                    (log s))) ;;
     (if existsb (fun c => str_eqb (CanonicalVehicle._id c) inserted_id) docs
      then raise PyMongoError                              (* duplicate key *)
      else ret tt) ;;
     let canonical_dict :=
       CanonicalVehicle.mk inserted_id (Some brand) (Some model) year edition
         engine transmission fuel_type doors None None None None 0 0 0 None
         CanonicalVehicleStatus.ACTIVE created_at updated_at None in
     put_canonical_vehicles (docs ++ [canonical_dict]) ;;
     (* find_one *)
     storage_op ;;
     docs <- get_canonical_vehicles ;;
     match lookup_by_id inserted_id docs with
     | Some created_canonical => ret created_canonical
     | None => raise TypeError
     end)
    (fun e => logger_error e ;; raise e).

(** ** [find_or_create_canonical_vehicle] *)

Definition find_or_create_canonical_vehicle (vehicle_data : VehicleCreate.t)
  : M (option str) :=
  try_except
    (canonical_id <- _find_matching_canonical vehicle_data ;;
     if truthy canonical_id then ret canonical_id
     else
       let brand := if truthy (VehicleCreate.brand vehicle_data)
                    then val (VehicleCreate.brand vehicle_data)
                    else py "Unknown" in
       let model := if truthy (VehicleCreate.model vehicle_data)
                    then val (VehicleCreate.model vehicle_data)
                    else py "Unknown" in
       canonical_vehicle <-
         create_canonical_vehicle brand model
           (VehicleCreate.year vehicle_data)
           (VehicleCreate.edition vehicle_data)
           (VehicleCreate.engine vehicle_data)
           (VehicleCreate.transmission vehicle_data)
           (VehicleCreate.fuel_type vehicle_data)
           (VehicleCreate.doors vehicle_data) ;;
       ret (Some (CanonicalVehicle._id canonical_vehicle)))
    (fun e => logger_error e ;; ret None).

(** ** [update_canonical_vehicle_stats] *)

(** A price is kept when [listing.get("price_numeric")] is truthy:
    present and not zero. *)
Definition price_truthy (p : option Q) : bool :=
  match p with
  | Some q => negb (Qeq_bool q 0)
  | None => false
  end.

(** [[listing["price_numeric"] for listing in listings
      if listing.get("price_numeric")]] *)
Definition prices_of (listings : list Vehicle.t) : list Q :=
  flat_map (fun listing =>
              match Vehicle.price_numeric listing with
              | Some q => if price_truthy (Some q) then [q] else []
              | None => []
              end) listings.

Definition views_of (listing : Vehicle.t) : Z :=
  match Vehicle.views_count listing with Some v => v | None => 0%Z end.

(** [re.search(r'(\d+)', s)]: the first maximal run of digits. *)
Fixpoint search_digits (s : str) : option str :=
  match s with
  | [] => None
  | c :: t =>
      if Unicode.isdecimal c
      then Some (c :: (fix run (u : str) : str :=
                         match u with
                         | d :: u' => if Unicode.isdecimal d then d :: run u'
                                      else []
                         | [] => []
                         end) t)
      else search_digits t
  end.

(** [int(tok)] on a run of digits. *)
Definition int (tok : str) : Z :=
  fold_left (fun n c => (n * 10 + Z.of_N (c - 48))%Z) tok 0%Z.

Definition kilometers_of (listings : list Vehicle.t) : list Z :=
  flat_map (fun listing =>
              let km_str := Vehicle.kilometers listing in
              if truthy km_str
              then
                let digits :=
                  filter (fun c => negb (c =? 46)%N)                 (* "." *)
                    (filter (fun c => negb (c =? 44)%N) (val km_str)) (* "," *)
                in
                match search_digits digits with
                | Some tok => [int tok]
                | None => []
                end
              else []) listings.

(** [min] and [max] return the first of the extreme elements. *)
Fixpoint py_min (x : Q) (l : list Q) : Q :=
  match l with
  | [] => x
  | y :: t => if Qlt_bool y x then py_min y t else py_min x t
  end.

Fixpoint py_max (x : Q) (l : list Q) : Q :=
  match l with
  | [] => x
  | y :: t => if Qlt_bool x y then py_max y t else py_max x t
  end.

Definition py_sum (l : list Q) : Q := fold_left Qplus l 0%Q.

(** [sorted]: a stable sort, as an insertion sort. *)
Fixpoint insert_sorted (x : Q) (l : list Q) : list Q :=
  match l with
  | [] => [x]
  | y :: t => if Qlt_bool x y then x :: l else y :: insert_sorted x t
  end.

Definition sorted (l : list Q) : list Q :=
  fold_left (fun acc x => insert_sorted x acc) l [].

Definition len_Q {A : Type} (l : list A) : Q := inject_Z (Z.of_nat (List.length l)).

(** The [$set] of [update_data] on a document. *)
Definition set_stats (listings : list Vehicle.t) (updated_at last_market_update : Z)
           (c : CanonicalVehicle.t) : CanonicalVehicle.t :=
  let prices := prices_of listings in
  let total_views := fold_left Z.add (map views_of listings) 0%Z in
  let kilometers_values := kilometers_of listings in
  let price_stat (old : option Q) (new : Q) : option Q :=
    match prices with [] => old | _ :: _ => Some new end in
  CanonicalVehicle.mk
    (CanonicalVehicle._id c) (CanonicalVehicle.brand c)
    (CanonicalVehicle.model c) (CanonicalVehicle.year c)
    (CanonicalVehicle.edition c) (CanonicalVehicle.engine c)
    (CanonicalVehicle.transmission c) (CanonicalVehicle.fuel_type c)
    (CanonicalVehicle.doors c)
    (price_stat (CanonicalVehicle.min_price c)
                (match prices with p :: t => py_min p t | [] => 0%Q end))
    (price_stat (CanonicalVehicle.max_price c)
                (match prices with p :: t => py_max p t | [] => 0%Q end))
    (price_stat (CanonicalVehicle.avg_price c)
                (py_sum prices / len_Q prices)%Q)
    (price_stat (CanonicalVehicle.median_price c)
                (nth (List.length prices / 2) (sorted prices) 0%Q))
    (Z.of_nat (List.length listings))
    (Z.of_nat (List.length listings))
    total_views
    (match kilometers_values with
     | [] => CanonicalVehicle.average_kilometers c
     | _ :: _ => Some (inject_Z (fold_left Z.add kilometers_values 0%Z)
                       / len_Q kilometers_values)%Q
     end)
    (CanonicalVehicle.status c) (CanonicalVehicle.created_at c)
    updated_at (Some last_market_update).

(** [vehicles_collection.find({"canonical_vehicle_id": id,
    "status": "active"})] *)
Definition active_listings_of (canonical_id : str) (l : list Vehicle.t)
  : list Vehicle.t :=
  filter (fun v => opt_str_eqb (Vehicle.canonical_vehicle_id v) canonical_id
                   && VehicleStatus.eqb (Vehicle.status v) VehicleStatus.ACTIVE)
         l.

Definition update_canonical_vehicle_stats (canonical_id : str) : M unit :=
  try_except
    (storage_op ;;
     all <- get_vehicles ;;
     let listings := active_listings_of canonical_id all in
     match listings with
     | [] => ret tt
     | _ :: _ =>
         updated_at <- utcnow ;;
         last_market_update <- utcnow ;;
         oid <- lift (ObjectId canonical_id) ;;
         storage_op ;;
         docs <- get_canonical_vehicles ;;
         put_canonical_vehicles
           (update_first oid (set_stats listings updated_at last_market_update)
                         docs)
     end)
    (fun e => logger_error e).

(** ** [merge_canonical_vehicles] *)

Definition repoint (source_id target_id : str) (v : Vehicle.t) : Vehicle.t :=
  if opt_str_eqb (Vehicle.canonical_vehicle_id v) source_id
  then Vehicle.mk (Some target_id) (Vehicle.status v) (Vehicle.price_numeric v)
                  (Vehicle.views_count v) (Vehicle.kilometers v)
  else v.

(** [result.modified_count]: the documents the update changed; a document
    that already holds the value set is matched but not modified. *)
Definition modified_count (source_id target_id : str) (l : list Vehicle.t)
  : nat :=
  if str_eqb source_id target_id then 0
  else List.length
         (filter (fun v => opt_str_eqb (Vehicle.canonical_vehicle_id v) source_id)
                 l).

Definition set_merged (updated_at : Z) (c : CanonicalVehicle.t)
  : CanonicalVehicle.t :=
  CanonicalVehicle.mk
    (CanonicalVehicle._id c) (CanonicalVehicle.brand c)
    (CanonicalVehicle.model c) (CanonicalVehicle.year c)
    (CanonicalVehicle.edition c) (CanonicalVehicle.engine c)
    (CanonicalVehicle.transmission c) (CanonicalVehicle.fuel_type c)
    (CanonicalVehicle.doors c) (CanonicalVehicle.min_price c)
    (CanonicalVehicle.max_price c) (CanonicalVehicle.avg_price c)
    (CanonicalVehicle.median_price c) (CanonicalVehicle.total_listings c)
    (CanonicalVehicle.active_listings c) (CanonicalVehicle.total_views c)
    (CanonicalVehicle.average_kilometers c)
    CanonicalVehicleStatus.MERGED (CanonicalVehicle.created_at c)
    updated_at (CanonicalVehicle.last_market_update c).

Definition merge_canonical_vehicles (source_id target_id : str) : M bool :=
  try_except
    ((* update_many *)
     storage_op ;;
     all <- get_vehicles ;;
     let modified := modified_count source_id target_id all in
     put_vehicles (map (repoint source_id target_id) all) ;;
     (* update_one *)
     oid <- lift (ObjectId source_id) ;;
     updated_at <- utcnow ;;
     storage_op ;;
     docs <- get_canonical_vehicles ;;
     put_canonical_vehicles (update_first oid (set_merged updated_at) docs) ;;
     update_canonical_vehicle_stats target_id ;;
     ret (0 <? modified))
    (fun e => logger_error e ;; ret false).

End Storage.

(** ** A regular-expression engine for literal patterns

    The patterns the matcher sends are the listing's brand and model, bare
    (broad search) or escaped between [^] and [$] (narrow search).
    [literal_regex] is the server's engine on the patterns that contain no
    operator: an optional [^], ordinary characters and escaped punctuation,
    an optional final [$]; it accepts no other pattern.  Letters are
    compared without case on [A-Z]; [$] matches at the end of the subject
    and before a final newline. *)

Definition re_meta (c : char) : bool :=
  existsb (N.eqb c) [92; 94; 36; 46; 91; 93; 124; 40; 41; 63; 42; 43; 123; 125]%N.

Definition ascii_alnum (c : char) : bool :=
  Unicode.between 48 c 57 || Unicode.between 65 c 90 || Unicode.between 97 c 122.

(** The literal text of a pattern body and whether it ends with [$].
    [esc] tells that the previous character was an unpaired backslash. *)
Fixpoint literal_body (esc : bool) (p : str) : option (str * bool) :=
  match p with
  | [] => if esc then None else Some ([], false)
  | c :: t =>
      if esc
      then if ascii_alnum c then None
           else option_map (fun r => (c :: fst r, snd r)) (literal_body false t)
      else if (c =? 92)%N then literal_body true t
      else if (c =? 36)%N
           then match t with [] => Some ([], true) | _ :: _ => None end
      else if re_meta c then None
      else option_map (fun r => (c :: fst r, snd r)) (literal_body false t)
  end.

Definition fold_case (c : char) : char :=
  if Unicode.between 65 c 90 then (c + 32)%N else c.

(** The body matches at the head of the subject. *)
Fixpoint match_here (body : str) (at_end : bool) (subject : str) : bool :=
  match body with
  | [] =>
      if at_end
      then match subject with
           | [] => true
           | [c] => (c =? 10)%N
           | _ => false
           end
      else true
  | b :: body' =>
      match subject with
      | [] => false
      | c :: subject' =>
          (fold_case b =? fold_case c)%N && match_here body' at_end subject'
      end
  end.

Fixpoint match_anywhere (body : str) (at_end : bool) (subject : str) : bool :=
  match_here body at_end subject
  || match subject with
     | [] => false
     | _ :: subject' => match_anywhere body at_end subject'
     end.

Definition literal_regex (p : str) : option (str -> bool) :=
  match p with
  | c :: t =>
      if (c =? 94)%N
      then option_map (fun r => match_here (fst r) (snd r)) (literal_body false t)
      else option_map (fun r => match_anywhere (fst r) (snd r))
                      (literal_body false p)
  | [] => Some (fun _ => true)
  end.

(* ===================================================================== *)
(** * What a new group is given besides its attributes                    *)
(* ===================================================================== *)

(** ** [_extract_body_type] *)

Fixpoint startswith (s prefix : str) {struct prefix} : bool :=
  match prefix, s with
  | [], _ => true
  | p :: prefix', c :: s' => (p =? c)%N && startswith s' prefix'
  | _ :: _, [] => false
  end.

(** [keyword in s]: the keyword occurs in [s]. *)
Fixpoint contains (keyword s : str) : bool :=
  startswith s keyword
  || match s with
     | [] => false
     | _ :: s' => contains keyword s'
     end.

(** The dictionary [body_types], in the order it is written (the order in
    which a [dict] is iterated). *)
Definition body_types : list (str * list str) :=
  [ (py "sedan", [py "sedan"; py "sed" ++ [225%N] ++ py "n"]);
    (py "hatchback", [py "hatchback"; py "hatch"]);
    (py "suv", [py "suv"; py "camioneta"]);
    (py "pickup", [py "pickup"; py "pick up"; py "pick-up"]);
    (py "coupe", [py "coupe"; py "coup" ++ [233%N]]);
    (py "convertible", [py "convertible"; py "cabrio"]);
    (py "wagon", [py "wagon"; py "familiar"]);
    (py "van", [py "van"; py "furgon"; py "furg" ++ [243%N] ++ py "n"]) ].

Definition _extract_body_type (title : str) : option str :=
  match title with
  | [] => None
  | _ :: _ =>
      let title_lower := lower title in
      option_map fst
        (find (fun entry =>
                 existsb (fun keyword => contains keyword title_lower)
                         (snd entry))
              body_types)
  end.

(** ** [_extract_specifications] *)

(** A value of a [Dict[str, Any]]. *)
#[warnings="-register-all"] Inductive any : Type :=
| PyNone
| PyBool (b : bool)
| PyInt (n : Z)
| PyFloat (q : Q)
| PyStr (s : str)
| PyList (l : list any)
| PyDict (d : list (str * any)).

(** The truth value of a Python object. *)
Definition truth (v : any) : bool :=
  match v with
  | PyNone => false
  | PyBool b => b
  | PyInt n => negb (n =? 0)%Z
  | PyFloat q => negb (Qeq_bool q 0)
  | PyStr s => match s with [] => false | _ :: _ => true end
  | PyList l => match l with [] => false | _ :: _ => true end
  | PyDict d => match d with [] => false | _ :: _ => true end
  end.

(** [key in specs], for a dictionary kept as the list of its items in
    insertion order. *)
Definition has_key (key : str) (specs : list (str * any)) : bool :=
  existsb (fun item => str_eqb (fst item) key) specs.

(** [_extract_specifications].  [additional_info] is the field of that name
    of the listing, which the record [VehicleCreate.t] leaves out: the items
    of the dictionary, in its order. *)
Definition _extract_specifications (vehicle_data : VehicleCreate.t)
           (additional_info : option (list (str * any))) : list (str * any) :=
  let specs := [] in
  let specs :=
    if truthy (VehicleCreate.engine vehicle_data)
    then specs ++ [(py "engine", PyStr (val (VehicleCreate.engine vehicle_data)))]
    else specs in
  let specs :=
    if truthy (VehicleCreate.transmission vehicle_data)
    then specs ++ [(py "transmission",
                    PyStr (val (VehicleCreate.transmission vehicle_data)))]
    else specs in
  let specs :=
    if truthy (VehicleCreate.fuel_type vehicle_data)
    then specs ++ [(py "fuel_type",
                    PyStr (val (VehicleCreate.fuel_type vehicle_data)))]
    else specs in
  let specs :=
    match VehicleCreate.doors vehicle_data with
    | Some doors => if truth (PyInt doors)
                    then specs ++ [(py "doors", PyInt doors)] else specs
    | None => specs
    end in
  match additional_info with
  | Some ((_ :: _) as items) =>
      fold_left (fun specs item =>
                   if negb (has_key (fst item) specs) && truth (snd item)
                   then specs ++ [item] else specs)
                items specs
  | _ => specs
  end.

(* ===================================================================== *)
(** * Pagination                                                          *)
(* ===================================================================== *)

(** The arithmetic of [get_canonical_vehicles_with_listings] (and of
    [VehicleService.search_vehicles], which repeats it) on the page number
    and the page size, both Python integers; the route admits [page >= 1]
    and [1 <= page_size <= 100]. *)
Module Pagination.

(** [skip = (page - 1) * page_size] *)
Definition skip (page page_size : Z) : Z := ((page - 1) * page_size)%Z.

(** [cursor.skip(skip).limit(page_size)] on the documents the query
    selects, in the order of the sort, for the arguments the route admits:
    the driver refuses a negative [skip], and a limit of 0 is no limit;
    neither arises for [page >= 1] and [page_size >= 1]. *)
Definition window {A : Type} (docs : list A) (page page_size : Z) : list A :=
  firstn (Z.to_nat page_size) (skipn (Z.to_nat (skip page page_size)) docs).

(** [total_pages = (total_count + page_size - 1) // page_size] *)
Definition total_pages (total_count page_size : Z) : result Z :=
  if (page_size =? 0)%Z then Raise ZeroDivisionError
  else Ok ((total_count + page_size - 1) / page_size)%Z.

(** ["has_next": page < total_pages] *)
Definition has_next (page total_pages : Z) : bool := (page <? total_pages)%Z.

(** ["has_previous": page > 1] *)
Definition has_previous (page : Z) : bool := (1 <? page)%Z.

End Pagination.

(* ===================================================================== *)
(** * Properties                                                          *)
(* ===================================================================== *)

(** ** Strings *)

Lemma str_eqb_eq (s t : str) : str_eqb s t = true <-> s = t.
Proof.
  unfold str_eqb. destruct (list_eq_dec N.eq_dec s t); split; congruence.
Qed.

Lemma str_eqb_refl (s : str) : str_eqb s s = true.
Proof. apply str_eqb_eq. reflexivity. Qed.

Lemma str_eqb_sym (s t : str) : str_eqb s t = str_eqb t s.
Proof.
  unfold str_eqb.
  destruct (list_eq_dec N.eq_dec s t), (list_eq_dec N.eq_dec t s); congruence.
Qed.

(** The code points of the table, to settle facts about single characters
    by evaluation. *)
Definition table : list char := map N.of_nat (seq 0 384 ++ seq 768 112).

Lemma in_table_In (c : char) : Unicode.in_table c = true -> In c table.
Proof.
  unfold Unicode.in_table, Unicode.between, table. intros H.
  rewrite <- (N2Nat.id c). apply in_map. apply in_or_app.
  rewrite !in_seq.
  apply orb_true_iff in H. destruct H as [H | H].
  - apply N.ltb_lt in H. left. lia.
  - apply andb_true_iff in H. destruct H as [H1 H2].
    apply N.leb_le in H1. apply N.leb_le in H2. right. lia.
Qed.

Lemma table_forall (P : char -> bool) :
  forallb P table = true -> forall c, Unicode.in_table c = true -> P c = true.
Proof.
  intros H c Hc. rewrite forallb_forall in H. apply H, in_table_In, Hc.
Qed.

Example difflib_docstrings :
  (Difflib.ratio (py "abcd") (py "bcde") == 0.75)%Q
  /\ Difflib.find_longest_match (py " abcd") (py "abcd abcd") 0 5 0 9 = (0, 4, 5)
  /\ Difflib.get_matching_blocks (py "abxcd") (py "abcd") = [(0, 0, 2); (3, 2, 2)]
  /\ (Difflib.ratio (py "tide") (py "diet") == 0.25)%Q
  /\ (Difflib.ratio (py "diet") (py "tide") == 0.5)%Q.
Proof. vm_compute. repeat split; reflexivity. Qed.

Example normalize_examples :
  _normalize_string (Some (py "HONDA")) = py "honda"
  /\ _normalize_string (Some (py " Honda ")) = py "honda"
  /\ _normalize_string (Some (py "Honda-Civic")) = py "honda civic"
  /\ _normalize_string (Some (py "  Honda  Civic  ")) = py "honda civic"
  /\ _normalize_string (Some (py "K-Series")) = py "k series"
  /\ _normalize_string (Some (py "1.5L Turbo")) = py "15l turbo"
  /\ _normalize_string (Some (py "-")) = [].
Proof. repeat split; reflexivity. Qed.

(** ** The normalizer *)

(** A character a normalized string may hold besides the space: a word
    character other than the underscore that is its own lower case. *)
Definition stable (c : char) : bool :=
  Unicode.isword c && negb (is_hyphen c) && negb (Unicode.isspace c)
  && match Unicode.lower1 c with [c'] => (c' =? c)%N | _ => false end.

Definition okc (c : char) : bool := (c =? 32)%N || stable c.

(** Every whitespace character is a space and no two are adjacent ([prev]:
    the character before is a space). *)
Fixpoint isolated (prev : bool) (s : str) : bool :=
  match s with
  | [] => true
  | c :: t =>
      if Unicode.isspace c then (c =? 32)%N && negb prev && isolated true t
      else isolated false t
  end.

(** The characters [lower] is applied to in [_normalize_string]. *)
Definition lowerable (c : char) : bool :=
  (c =? 32)%N
  || (Unicode.in_table c && negb (c =? 304)%N && negb (Unicode.isspace c)
      && Unicode.isword c && negb (is_hyphen c)).

Lemma lower1_lowerable (c : char) :
  lowerable c = true ->
  exists c', Unicode.lower1 c = [c'] /\ okc c' = true
             /\ Unicode.isspace c' = Unicode.isspace c
             /\ (Unicode.isspace c = true -> c' = c).
Proof.
  intros H.
  assert (T : forall c, Unicode.in_table c = true ->
            (negb (lowerable c)
             || match Unicode.lower1 c with
                | [c'] => okc c' && Bool.eqb (Unicode.isspace c') (Unicode.isspace c)
                          && (negb (Unicode.isspace c) || (c' =? c)%N)
                | _ => false
                end) = true).
  { apply table_forall. vm_compute. reflexivity. }
  assert (Hc : Unicode.in_table c = true).
  { unfold lowerable in H. apply orb_true_iff in H. destruct H as [H | H].
    - apply N.eqb_eq in H. subst c. reflexivity.
    - repeat (apply andb_true_iff in H; destruct H as [H ?]). exact H. }
  specialize (T c Hc). rewrite H in T. simpl in T.
  destruct (Unicode.lower1 c) as [| c' [| ? ?]]; try discriminate.
  exists c'. apply andb_true_iff in T. destruct T as [T T3].
  apply andb_true_iff in T. destruct T as [T1 T2].
  apply Bool.eqb_prop in T2. repeat split; auto.
  intros Hs. rewrite Hs in T3. simpl in T3. apply N.eqb_eq in T3. exact T3.
Qed.

Lemma okc_facts (c : char) :
  okc c = true ->
  is_hyphen c = false
  /\ (Unicode.isword c || Unicode.isspace c) = true
  /\ Unicode.lower1 c = [c]
  /\ (Unicode.isspace c = true -> c = 32%N).
Proof.
  unfold okc, stable. intros H. apply orb_true_iff in H. destruct H as [H | H].
  - apply N.eqb_eq in H. subst c. repeat split; reflexivity.
  - repeat (apply andb_true_iff in H; destruct H as [H ?]).
    destruct (Unicode.lower1 c) as [| c' [| ? ?]]; try discriminate.
    match goal with E : (c' =? c)%N = true |- _ => apply N.eqb_eq in E; subst c' end.
    destruct (is_hyphen c); try discriminate.
    destruct (Unicode.isspace c); try discriminate.
    rewrite H. repeat split; auto. discriminate.
Qed.

Lemma sub_runs_none (p : char -> bool) (s : str) (b : bool) :
  Forall (fun c => p c = false) s -> sub_runs p b s = s.
Proof.
  intros H. revert b. induction H as [| c t Hc _ IH]; intros b; simpl.
  - reflexivity.
  - rewrite Hc, IH. reflexivity.
Qed.

Lemma sub_runs_Forall (P : char -> Prop) (p : char -> bool) (s : str) (b : bool) :
  P 32%N -> Forall P s -> Forall P (sub_runs p b s).
Proof.
  intros H32 H. revert b. induction H as [| c t Hc _ IH]; intros b; simpl.
  - constructor.
  - destruct (p c); [destruct b |]; auto.
Qed.

Lemma sub_runs_not_class (p : char -> bool) (s : str) (b : bool) :
  p 32%N = false -> Forall (fun c => p c = false) (sub_runs p b s).
Proof.
  intros H32. revert b. induction s as [| c t IH]; intros b; simpl.
  - constructor.
  - destruct (p c) eqn:E; [destruct b |]; auto.
Qed.

Lemma sub_runs_space_or_old (P : char -> Prop) (s : str) (b : bool) :
  Forall P s ->
  Forall (fun c => c = 32%N \/ (Unicode.isspace c = false /\ P c))
         (sub_runs Unicode.isspace b s).
Proof.
  intros H. revert b. induction H as [| c t Hc _ IH]; intros b; simpl.
  - constructor.
  - destruct (Unicode.isspace c) eqn:E; [destruct b |]; auto.
Qed.

Lemma sub_runs_isolated (s : str) (prev : bool) :
  isolated prev (sub_runs Unicode.isspace prev s) = true.
Proof.
  revert prev. induction s as [| c t IH]; intros prev; simpl.
  - reflexivity.
  - destruct (Unicode.isspace c) eqn:E.
    + destruct prev; simpl; auto.
    + simpl. rewrite E. apply IH.
Qed.

Lemma sub_runs_fixed (s : str) (prev : bool) :
  isolated prev s = true -> sub_runs Unicode.isspace prev s = s.
Proof.
  revert prev. induction s as [| c t IH]; intros prev H; simpl in *.
  - reflexivity.
  - destruct (Unicode.isspace c).
    + apply andb_true_iff in H. destruct H as [H H3].
      apply andb_true_iff in H. destruct H as [H1 H2].
      apply N.eqb_eq in H1. destruct prev; try discriminate.
      subst c. f_equal. apply IH, H3.
    + rewrite (IH _ H). reflexivity.
Qed.

Lemma filter_fixed (q : char -> bool) (s : str) :
  Forall (fun c => q c = true) s -> filter q s = s.
Proof.
  induction 1 as [| c t Hc _ IH]; simpl; [reflexivity |].
  rewrite Hc, IH. reflexivity.
Qed.

Lemma filter_Forall (P : char -> Prop) (q : char -> bool) (s : str) :
  Forall P s -> Forall (fun c => P c /\ q c = true) (filter q s).
Proof.
  induction 1 as [| c t Hc _ IH]; simpl; [constructor |].
  destruct (q c) eqn:E; auto.
Qed.

Lemma lower_normal (s : str) (prev : bool) :
  Forall (fun c => lowerable c = true) s -> isolated prev s = true ->
  Forall (fun c => okc c = true) (lower s) /\ isolated prev (lower s) = true.
Proof.
  intros H. revert prev. induction H as [| c t Hc _ IH]; intros prev Hi.
  - split; [constructor | reflexivity].
  - destruct (lower1_lowerable c Hc) as (c' & E & Hok & Hsp & Hsame).
    unfold lower in *. simpl. rewrite E. simpl. simpl in Hi. rewrite Hsp.
    destruct (Unicode.isspace c) eqn:Es.
    + rewrite (Hsame eq_refl).
      apply andb_true_iff in Hi. destruct Hi as [Hi H3].
      destruct (IH _ H3) as [IH1 IH2]. rewrite Hi, IH2. split; auto.
      constructor; auto. rewrite <- (Hsame eq_refl). exact Hok.
    + destruct (IH _ Hi) as [IH1 IH2]. split; auto.
Qed.

Lemma lower_fixed (s : str) :
  Forall (fun c => okc c = true) s -> lower s = s.
Proof.
  unfold lower. induction 1 as [| c t Hc _ IH]; simpl; [reflexivity |].
  destruct (okc_facts c Hc) as (_ & _ & E & _). rewrite E, IH. reflexivity.
Qed.

Lemma dropwhile_Forall (P : char -> Prop) (p : char -> bool) (s : str) :
  Forall P s -> Forall P (dropwhile p s).
Proof.
  induction 1 as [| c t Hc Ht IH]; simpl; [constructor |].
  destruct (p c); auto.
Qed.

Lemma dropwhile_isolated (s : str) (prev prev' : bool) :
  isolated prev s = true -> isolated prev' (dropwhile Unicode.isspace s) = true.
Proof.
  revert prev. induction s as [| c t IH]; intros prev H; simpl in *.
  - reflexivity.
  - destruct (Unicode.isspace c) eqn:E.
    + apply andb_true_iff in H. destruct H as [_ H]. eapply IH, H.
    + simpl. rewrite E. exact H.
Qed.

(** The head of a string, when there is one, is not whitespace. *)
Definition head_ok (s : str) : Prop :=
  match s with [] => True | c :: _ => Unicode.isspace c = false end.

Lemma dropwhile_head (s : str) : head_ok (dropwhile Unicode.isspace s).
Proof.
  induction s as [| c t IH]; simpl; [exact I |].
  destruct (Unicode.isspace c) eqn:E; simpl; auto.
Qed.

Lemma dropwhile_fixed (s : str) :
  head_ok s -> dropwhile Unicode.isspace s = s.
Proof. destruct s as [| c t]; simpl; intros H; [| rewrite H]; reflexivity. Qed.

Lemma rstrip_idem (s : str) : rstrip (rstrip s) = rstrip s.
Proof.
  induction s as [| c t IH]; simpl; [reflexivity |].
  destruct (rstrip t) as [| d t'] eqn:E.
  - destruct (Unicode.isspace c) eqn:Ec; simpl; [| rewrite Ec]; reflexivity.
  - change (rstrip (c :: d :: t')) with
      (match rstrip (d :: t') with
       | [] => if Unicode.isspace c then [] else [c]
       | u => c :: u
       end).
    rewrite IH. reflexivity.
Qed.

Lemma rstrip_Forall (P : char -> Prop) (s : str) :
  Forall P s -> Forall P (rstrip s).
Proof.
  induction 1 as [| c t Hc Ht IH]; simpl; [constructor |].
  destruct (rstrip t); [destruct (Unicode.isspace c) |]; auto.
Qed.

Lemma isolated_cons (prev : bool) (c : char) (t : str) :
  isolated prev (c :: t)
  = if Unicode.isspace c then (c =? 32)%N && negb prev && isolated true t
    else isolated false t.
Proof. reflexivity. Qed.

Lemma rstrip_isolated (s : str) (prev : bool) :
  isolated prev s = true -> isolated prev (rstrip s) = true.
Proof.
  revert prev. induction s as [| c t IH]; intros prev H.
  - reflexivity.
  - rewrite isolated_cons in H. simpl.
    destruct (Unicode.isspace c) eqn:E.
    + apply andb_true_iff in H. destruct H as [H1 H2]. specialize (IH _ H2).
      destruct (rstrip t) as [| d t']; [reflexivity |].
      rewrite isolated_cons, E, H1, IH. reflexivity.
    + specialize (IH _ H). destruct (rstrip t) as [| d t'].
      * rewrite isolated_cons, E. reflexivity.
      * rewrite isolated_cons, E. exact IH.
Qed.

Lemma rstrip_head (s : str) : head_ok s -> head_ok (rstrip s).
Proof.
  destruct s as [| c t]; simpl; intros H; [exact I |].
  destruct (rstrip t); [rewrite H |]; exact H.
Qed.

(** What [_normalize_string] returns: spaces and stable characters, the
    spaces isolated, none at either end. *)
Definition normal (s : str) : Prop :=
  Forall (fun c => okc c = true) s /\ isolated false s = true
  /\ head_ok s /\ rstrip s = s.

Lemma normal_fixed (s : str) : normal s -> _normalize_string (Some s) = s.
Proof.
  intros (Hok & Hiso & Hhd & Hrs). destruct s as [| c t]; [reflexivity |].
  unfold _normalize_string. cbn [truthy negb val].
  rewrite (@sub_runs_none is_hyphen (c :: t) false).
  2:{ eapply Forall_impl; [| exact Hok]. intros a Ha. apply okc_facts, Ha. }
  rewrite filter_fixed.
  2:{ eapply Forall_impl; [| exact Hok]. intros a Ha. apply okc_facts, Ha. }
  rewrite (sub_runs_fixed _ _ Hiso), (lower_fixed _ Hok).
  unfold strip. rewrite (dropwhile_fixed _ Hhd). exact Hrs.
Qed.

Lemma normalize_normal (x : option str) :
  forallb (fun c => Unicode.in_table c && negb (c =? 304)%N) (val x) = true ->
  normal (_normalize_string x).
Proof.
  intros H. unfold _normalize_string.
  destruct (truthy x).
  2:{ simpl. repeat split; constructor. }
  cbn [negb].
  set (T := fun c => Unicode.in_table c && negb (c =? 304)%N = true).
  assert (H0 : Forall T (val x)).
  { apply Forall_forall. intros c Hc. rewrite forallb_forall in H. apply H, Hc. }
  set (t1 := sub_runs is_hyphen false (val x)).
  assert (H1 : Forall (fun c => T c /\ is_hyphen c = false) t1).
  { apply Forall_and.
    - apply sub_runs_Forall; [reflexivity | exact H0].
    - apply sub_runs_not_class. reflexivity. }
  set (q := fun c => Unicode.isword c || Unicode.isspace c).
  set (t2 := filter q t1).
  assert (H2 : Forall (fun c => (T c /\ is_hyphen c = false) /\ q c = true) t2).
  { apply filter_Forall, H1. }
  set (t3 := sub_runs Unicode.isspace false t2).
  assert (H3 : Forall (fun c => lowerable c = true) t3).
  { eapply Forall_impl; [| apply sub_runs_space_or_old, H2].
    intros c [-> | (Hs & (HT & Hh) & Hq)]; [reflexivity |].
    unfold lowerable, T, q in *. rewrite Hs in *. rewrite orb_false_r in Hq.
    rewrite HT, Hq, Hh. apply orb_true_r. }
  destruct (@lower_normal t3 false H3 (sub_runs_isolated t2 false)) as [H4 H5].
  unfold strip. repeat split.
  - apply rstrip_Forall, dropwhile_Forall, H4.
  - apply rstrip_isolated. eapply dropwhile_isolated, H5.
  - apply rstrip_head, dropwhile_head.
  - apply rstrip_idem.
Qed.

(** C7, as stated, fails at U+0130: its lower case is [i] followed by
    U+0307 (combining dot above), which is not a word character; the first
    pass keeps it because [lower] runs after the punctuation filter, a
    second pass removes it. *)
Lemma normalize_not_idempotent_at_dotted_I :
  _normalize_string (Some [304%N]) = [105; 775]%N
  /\ _normalize_string (Some (_normalize_string (Some [304%N]))) = [105%N]
  /\ _normalize_string (Some (_normalize_string (Some [304%N])))
     <> _normalize_string (Some [304%N]).
Proof. repeat split. discriminate. Qed.

(** Away from U+0130 the normalizer is idempotent: on every string of the
    tabulated blocks that does not contain it, the absent and the empty
    input included; and [normalize(None) = normalize("") = ""]. *)
Theorem normalize_idempotent (x : option str) :
  forallb (fun c => Unicode.in_table c && negb (c =? 304)%N) (val x) = true ->
  _normalize_string (Some (_normalize_string x)) = _normalize_string x
  /\ _normalize_string None = []
  /\ _normalize_string (Some []) = [].
Proof.
  intros H. split; [| split; reflexivity].
  apply normal_fixed, normalize_normal, H.
Qed.

Lemma normalize_idempotent_witness :
  forallb (fun c => Unicode.in_table c && negb (c =? 304)%N)
          (val (Some (py "  Honda-Civic_LX  1.5L "))) = true
  /\ _normalize_string (Some (_normalize_string (Some (py "  Honda-Civic_LX  1.5L "))))
     = _normalize_string (Some (py "  Honda-Civic_LX  1.5L ")).
Proof.
  split; [reflexivity |].
  apply (normalize_idempotent (Some (py "  Honda-Civic_LX  1.5L "))).
  reflexivity.
Defined.

(** ** [difflib]: the longest match stays inside its window *)

Module DifflibFacts.
Import Difflib.

Section Window.
Variables (a b : str) (alo ahi blo bhi : nat).

(** Either nothing was found, or the block lies in the window; [hi] is
    the bound reached on the side of [a]. *)
Definition within (hi : nat) (m : Match) : Prop :=
  let '(i, j, k) := m in
  (k = 0 /\ i = alo /\ j = blo)
  \/ (0 < k /\ alo <= i /\ i + k <= hi /\ blo <= j /\ j + k <= bhi).

(** The lengths a row of the table may hold after the rows below [i0]. *)
Definition dict_ok (i0 : nat) (d : dict) : Prop :=
  forall j, 0 < d j ->
            blo <= j /\ j < bhi /\ d j <= j + 1 - blo /\ d j + alo <= i0.

Lemma get_pred_ok (i0 : nat) (d : dict) (j : nat) :
  dict_ok i0 d -> blo <= j -> alo <= i0 ->
  get_pred d j + 1 <= j + 1 - blo /\ get_pred d j + 1 + alo <= S i0.
Proof.
  intros Hd Hj Hi. destruct j as [| j']; cbn [get_pred].
  - lia.
  - destruct (d j') eqn:E; [lia |].
    destruct (Hd j') as (? & ? & ? & ?); lia.
Qed.

Lemma row_within (i0 : nat) (d : dict) (js : list nat) :
  alo <= i0 -> dict_ok i0 d ->
  forall newd best,
    dict_ok (S i0) newd -> within (S i0) best ->
    dict_ok (S i0) (fst (row i0 blo bhi d js newd best))
    /\ within (S i0) (snd (row i0 blo bhi d js newd best)).
Proof.
  intros Hi Hd. induction js as [| j js IH]; intros newd best Hn Hb;
    cbn [row].
  - auto.
  - destruct (j <? blo) eqn:E1; [apply IH; auto |].
    destruct (bhi <=? j) eqn:E2; [auto |].
    apply Nat.ltb_ge in E1. apply Nat.leb_gt in E2.
    destruct (get_pred_ok i0 d j Hd E1 Hi) as [K1 K2].
    destruct best as [[bi bj] bk].
    apply IH.
    + intros j' Hj'. unfold set in *.
      destruct (j' =? j) eqn:E; [apply Nat.eqb_eq in E; subst j'; lia |].
      apply Hn, Hj'.
    + destruct (bk <? get_pred d j + 1) eqn:E; [| exact Hb].
      unfold within. right. lia.
Qed.

Lemma within_mono (hi hi' : nat) (m : Match) :
  hi <= hi' -> within hi m -> within hi' m.
Proof.
  destruct m as [[i j] k]. unfold within. intros H [H1 | H1]; [left | right]; lia.
Qed.

Lemma dict_ok_empty (i0 : nat) : dict_ok i0 empty.
Proof. intros j H. unfold empty in H. lia. Qed.

Lemma rows_within (n : nat) :
  forall i0 d best,
    alo <= i0 -> dict_ok i0 d -> within i0 best ->
    within (i0 + n) (rows a b blo bhi (seq i0 n) d best).
Proof.
  induction n as [| n IH]; intros i0 d best Hi Hd Hb; cbn [seq rows].
  - rewrite Nat.add_0_r. exact Hb.
  - destruct (row i0 blo bhi d (b2j b (nth i0 a 0%N)) empty best)
      as [newd best'] eqn:E.
    pose proof (@row_within i0 d (b2j b (nth i0 a 0%N)) Hi Hd empty best
                  (dict_ok_empty (S i0))
                  (within_mono _ _ _ (Nat.le_succ_diag_r i0) Hb)) as [R1 R2].
    rewrite E in R1, R2. simpl in R1, R2.
    replace (i0 + S n) with (S i0 + n) by lia.
    apply IH; auto.
Qed.

Lemma extend_left_within (hi : nat) :
  forall i j k, within hi (i, j, k) -> within hi (extend_left a b alo blo i j k).
Proof.
  induction i as [| i' IH]; intros j k H; cbn [extend_left]; [exact H |].
  destruct ((alo <? S i') && (blo <? j)
            && (nth (S i' - 1) a 0 =? nth (j - 1) b 0)%N) eqn:E; [| exact H].
  apply andb_true_iff in E. destruct E as [E _].
  apply andb_true_iff in E. destruct E as [E1 E2].
  apply Nat.ltb_lt in E1. apply Nat.ltb_lt in E2.
  apply IH. unfold within in *. destruct H as [H | H]; [lia |]. right. lia.
Qed.

Lemma extend_right_within (room : nat) :
  forall i j k,
    i + k + room <= ahi \/ room = 0 ->
    within (i + k) (i, j, k) ->
    within ahi (extend_right a b bhi room i j k)
    \/ (room = 0 /\ extend_right a b bhi room i j k = (i, j, k)).
Proof.
  induction room as [| room IH]; intros i j k Hr H; cbn [extend_right].
  - right. auto.
  - destruct Hr as [Hr | Hr]; [| discriminate].
    destruct ((j + k <? bhi) && (nth (i + k) a 0 =? nth (j + k) b 0)%N) eqn:E.
    + apply andb_true_iff in E. destruct E as [E _]. apply Nat.ltb_lt in E.
      destruct (IH i j (k + 1)) as [R | [-> R]].
      * left. lia.
      * unfold within in *. right. destruct H as [H | H]; lia.
      * left. exact R.
      * left. rewrite R. unfold within in *. right.
        destruct H as [H | H]; lia.
    + left. eapply within_mono; [| exact H]. lia.
Qed.

(** [find_longest_match] returns an empty block or a block inside
    [a[alo:ahi]] and [b[blo:bhi]]. *)
Lemma find_longest_match_bounds :
  let '(i, j, k) := find_longest_match a b alo ahi blo bhi in
  k = 0 \/ (alo <= i /\ i + k <= ahi /\ blo <= j /\ j + k <= bhi).
Proof.
  unfold find_longest_match.
  pose proof (@rows_within (ahi - alo) alo empty (alo, blo, 0)
                (le_n alo) (dict_ok_empty alo)) as R.
  assert (W0 : within alo (alo, blo, 0)) by (left; auto).
  specialize (R W0).
  destruct (rows a b blo bhi (seq alo (ahi - alo)) empty (alo, blo, 0))
    as [[i1 j1] k1].
  pose proof (extend_left_within _ i1 j1 k1 R) as L.
  destruct (extend_left a b alo blo i1 j1 k1) as [[i2 j2] k2].
  assert (L2 : within (i2 + k2) (i2, j2, k2)).
  { unfold within in *. destruct L as [L | L]; [left | right]; lia. }
  assert (Hroom : i2 + k2 + (ahi - (i2 + k2)) <= ahi \/ ahi - (i2 + k2) = 0)
    by lia.
  destruct (extend_right_within _ i2 j2 k2 Hroom L2) as [X | [X1 X2]].
  - destruct (extend_right a b bhi (ahi - (i2 + k2)) i2 j2 k2) as [[i j] k].
    unfold within in X. destruct X as [X | X]; [left | right]; lia.
  - rewrite X2. unfold within in L. destruct L as [L | L]; [left; lia |].
    right. lia.
Qed.

End Window.

(** *** The loop of [get_matching_blocks] *)

Definition width_a (q : list (nat * nat * nat * nat)) : nat :=
  fold_right (fun e acc => let '(alo, ahi, _, _) := e in ahi - alo + acc) 0 q.

Definition width_b (q : list (nat * nat * nat * nat)) : nat :=
  fold_right (fun e acc => let '(_, _, blo, bhi) := e in bhi - blo + acc) 0 q.

(** The iterations a queue can still cause. *)
Definition work (q : list (nat * nat * nat * nat)) : nat :=
  fold_right (fun e acc => let '(alo, ahi, _, _) := e in
                           2 * (ahi - alo) + 1 + acc) 0 q.

Lemma size_sum_app (l : list Match) (m : Match) :
  size_sum (l ++ [m]) = size_sum l + snd m.
Proof.
  unfold size_sum. induction l as [| x l IH]; simpl; [lia |].
  rewrite IH. lia.
Qed.

Lemma matching_loop_sum (a b : str) (fuel : nat) :
  forall q blocks,
    size_sum (matching_loop a b fuel q blocks) <= size_sum blocks + width_a q
    /\ size_sum (matching_loop a b fuel q blocks) <= size_sum blocks + width_b q.
Proof.
  induction fuel as [| fuel IH]; intros q blocks.
  - destruct q; simpl; lia.
  - destruct q as [| [[[alo ahi] blo] bhi] q']; [simpl; lia |].
    cbn [matching_loop].
    pose proof (find_longest_match_bounds a b alo ahi blo bhi) as B.
    destruct (find_longest_match a b alo ahi blo bhi) as [[i j] k].
    destruct (k =? 0) eqn:Ek.
    + specialize (IH q' blocks). cbn [width_a width_b fold_right]. 
      fold (width_a q'). fold (width_b q'). lia.
    + apply Nat.eqb_neq in Ek. destruct B as [B | B]; [lia |].
      match goal with
      | |- context [matching_loop a b fuel ?Q ?BL] => specialize (IH Q BL)
      end.
      rewrite size_sum_app in IH. cbn [snd] in IH.
      cbn [width_a width_b fold_right]. fold (width_a q'). fold (width_b q').
      destruct ((alo <? i) && (blo <? j)), ((i + k <? ahi) && (j + k <? bhi));
        cbn [width_a width_b fold_right] in IH;
        fold (width_a q') in IH; fold (width_b q') in IH; lia.
Qed.

(** The fuel [get_matching_blocks] gives the loop is never exhausted:
    more fuel changes nothing. *)
Lemma matching_loop_fuel (a b : str) (fuel : nat) :
  forall extra q blocks,
    work q <= fuel ->
    matching_loop a b (fuel + extra) q blocks = matching_loop a b fuel q blocks.
Proof.
  induction fuel as [| fuel IH]; intros extra q blocks Hw.
  - destruct q as [| [[[alo ahi] blo] bhi] q'].
    + destruct extra; reflexivity.
    + cbn [work fold_right] in Hw. lia.
  - destruct q as [| [[[alo ahi] blo] bhi] q']; [reflexivity |].
    cbn [work fold_right] in Hw. fold (work q') in Hw.
    cbn [Nat.add matching_loop].
    pose proof (find_longest_match_bounds a b alo ahi blo bhi) as B.
    destruct (find_longest_match a b alo ahi blo bhi) as [[i j] k].
    destruct (k =? 0) eqn:Ek.
    + apply IH. lia.
    + apply Nat.eqb_neq in Ek. destruct B as [B | B]; [lia |].
      apply IH.
      destruct ((alo <? i) && (blo <? j)), ((i + k <? ahi) && (j + k <? bhi));
        cbn [work fold_right]; fold (work q'); lia.
Qed.

Lemma get_matching_blocks_fuel (a b : str) (extra : nat) :
  matching_loop a b (2 * List.length a + 1 + extra)
                [(0, List.length a, 0, List.length b)] []
  = get_matching_blocks a b.
Proof. apply matching_loop_fuel. cbn [work fold_right]. lia. Qed.

Lemma matches_bound (a b : str) :
  2 * size_sum (get_matching_blocks a b) <= List.length a + List.length b.
Proof.
  unfold get_matching_blocks.
  destruct (matching_loop_sum a b (2 * List.length a + 1)
              [(0, List.length a, 0, List.length b)] []) as [H1 H2].
  cbn [width_a width_b fold_right size_sum] in H1, H2. lia.
Qed.

(** [ratio] is a number between 0 and 1. *)
Lemma ratio_range (a b : str) : (0 <= ratio a b <= 1)%Q.
Proof.
  unfold ratio, _calculate_ratio.
  pose proof (matches_bound a b) as H.
  destruct (List.length a + List.length b =? 0) eqn:E.
  - split; unfold Qle; simpl; lia.
  - apply Nat.eqb_neq in E.
    set (m := size_sum (get_matching_blocks a b)) in *.
    set (t := List.length a + List.length b) in *.
    assert (Ht : (0 < inject_Z (Z.of_nat t))%Q).
    { change 0%Q with (inject_Z 0). rewrite <- Zlt_Qlt. lia. }
    split.
    + apply Qle_shift_div_l; [exact Ht |].
      rewrite Qmult_0_l. change 2%Q with (inject_Z 2). change 0%Q with (inject_Z 0).
      rewrite <- inject_Z_mult, <- Zle_Qle. lia.
    + apply Qle_shift_div_r; [exact Ht |].
      rewrite Qmult_1_l. change 2%Q with (inject_Z 2).
      rewrite <- inject_Z_mult, <- Zle_Qle. lia.
Qed.


(** *** A sequence against itself *)

Lemma indices_In (c : char) (b : str) :
  forall j0 j, In j (indices c b j0) <->
               j0 <= j /\ j - j0 < List.length b /\ nth (j - j0) b 0%N = c.
Proof.
  induction b as [| x t IH]; intros j0 j; cbn [indices List.length].
  - split; [intros [] | intros (_ & H & _); lia].
  - assert (IH' : In j (indices c t (S j0)) <->
                  j0 <= j /\ j - j0 < S (List.length t)
                  /\ nth (j - j0) (x :: t) 0%N = c /\ j <> j0).
    { rewrite IH. split.
      - intros (H1 & H2 & H3). replace (j - j0) with (S (j - S j0)) by lia.
        cbn [nth]. repeat split; auto; lia.
      - intros (H1 & H2 & H3 & H4).
        replace (j - j0) with (S (j - S j0)) in H3 by lia.
        cbn [nth] in H3. repeat split; auto; lia. }
    destruct (x =? c)%N eqn:E.
    + apply N.eqb_eq in E. cbn [In]. rewrite IH'. split.
      * intros [<- | (H1 & H2 & H3 & _)]; auto.
        rewrite Nat.sub_diag. cbn [nth]. repeat split; auto; lia.
      * intros (H1 & H2 & H3).
        destruct (Nat.eq_dec j0 j); [left; auto | right; repeat split; auto].
    + apply N.eqb_neq in E. rewrite IH'. split.
      * intros (H1 & H2 & H3 & _); auto.
      * intros (H1 & H2 & H3). repeat split; auto.
        intros ->. rewrite Nat.sub_diag in H3. cbn [nth] in H3. auto.
Qed.

Lemma indices_sorted (c : char) (b : str) :
  forall j0, StronglySorted lt (indices c b j0).
Proof.
  induction b as [| x t IH]; intros j0; cbn [indices].
  - constructor.
  - destruct (x =? c)%N; [| apply IH].
    constructor; [apply IH |].
    apply Forall_forall. intros j Hj. apply indices_In in Hj. lia.
Qed.

Section Diagonal.
Variable s : str.

(** The length of the run of non-popular elements that ends at [j]. *)
Fixpoint run (j : nat) : nat :=
  if popular s (nth j s 0%N) then 0
  else match j with 0 => 1 | S j' => S (run j') end.

Definition run_pred (i : nat) : nat :=
  match i with 0 => 0 | S i' => run i' end.

Lemma run_eq (j : nat) :
  run j = if popular s (nth j s 0%N) then 0 else S (run_pred j).
Proof. destruct j; reflexivity. Qed.

Lemma run_le (j : nat) : run j <= S j.
Proof.
  induction j as [| j IH]; rewrite run_eq; cbn [run_pred];
    destruct (popular s _); lia.
Qed.

(** The table row of [i0 - 1], when [s] is matched against itself. *)
Definition rowinv (i0 : nat) (d : dict) : Prop :=
  (forall j, d j <= run j) /\ (forall j, d j <= run_pred i0)
  /\ get_pred d i0 = run_pred i0.

(** The best block after the rows below [i0]: on the diagonal, and at
    least as long as every run that ends below [i0]. *)
Definition bestinv (i0 : nat) (best : Match) : Prop :=
  let '(bi, bj, bk) := best in
  bi = bj /\ bi + bk <= i0 /\ forall j, j < i0 -> run j <= bk.

Lemma row_diag (i0 : nat) (d : dict) (c : char) :
  nth i0 s 0%N = c -> popular s c = false -> rowinv i0 d ->
  forall js newd best,
    StronglySorted lt js ->
    (forall j, In j js -> j < List.length s /\ nth j s 0%N = c) ->
    (forall j, newd j <= run j /\ newd j <= run i0) ->
    (let '(bi, bj, bk) := best in
     bi = bj /\ bi + bk <= S i0 /\ forall j, j < i0 -> run j <= bk) ->
    In i0 js
    \/ ((forall j, In j js -> i0 < j)
        /\ newd i0 = run i0 /\ run i0 <= snd best) ->
    rowinv (S i0) (fst (row i0 0 (List.length s) d js newd best))
    /\ bestinv (S i0) (snd (row i0 0 (List.length s) d js newd best)).
Proof.
  intros Hc Hpop (Ra & Rb & Rd).
  assert (Hrun : run i0 = S (run_pred i0)).
  { rewrite run_eq, Hc, Hpop. reflexivity. }
  induction js as [| j js IH]; intros newd best Hs Hjs Hn Hb Hi; cbn [row].
  - destruct Hi as [[] | (_ & Hi1 & Hi2)].
    destruct best as [[bi bj] bk]. cbn [fst snd] in *.
    split.
    + repeat split; try apply Hn. exact Hi1.
    + destruct Hb as (B1 & B2 & B3). repeat split; auto.
      intros j Hj. destruct (Nat.eq_dec j i0) as [-> | Hne]; [lia |].
      apply B3. lia.
  - destruct (Hjs j (or_introl eq_refl)) as [Hjn Hjc].
    replace (j <? 0) with false by reflexivity.
    replace (List.length s <=? j) with false
      by (symmetry; apply Nat.leb_gt; exact Hjn).
    inversion Hs as [| ? ? Hs' Hlt]; subst.
    rewrite Forall_forall in Hlt.
    assert (Hrunj : run j = S (run_pred j)).
    { rewrite run_eq, Hjc, Hpop. reflexivity. }
    assert (K1 : get_pred d j + 1 <= run j).
    { rewrite Hrunj. destruct j as [| j']; cbn [get_pred run_pred]; [lia |].
      specialize (Ra j'). lia. }
    assert (K2 : get_pred d j + 1 <= run i0).
    { rewrite Hrun. destruct j as [| j']; cbn [get_pred]; [lia |].
      specialize (Rb j'). lia. }
    destruct best as [[bi bj] bk]. cbn [snd] in Hi.
    destruct Hb as (B1 & B2 & B3).
    apply IH; clear IH.
    + exact Hs'.
    + intros j' Hj'. apply Hjs. right. exact Hj'.
    + intros j'. unfold set. destruct (j' =? j) eqn:E.
      * apply Nat.eqb_eq in E. subst j'. lia.
      * apply Hn.
    + destruct (bk <? get_pred d j + 1) eqn:E; [| repeat split; auto].
      apply Nat.ltb_lt in E.
      assert (Hji : j = i0).
      { destruct (lt_eq_lt_dec j i0) as [[Hlt' | Heq] | Hgt]; auto.
        - specialize (B3 j Hlt'). lia.
        - destruct Hi as [[Hi | Hi] | (_ & _ & Hi)]; try lia.
          specialize (Hlt i0 Hi). lia. }
      subst j. pose proof (run_le i0).
      repeat split; try lia. intros j' Hj'. specialize (B3 j' Hj'). lia.
    + destruct (Nat.eq_dec j i0) as [-> | Hne].
      * right. split; [intros j' Hj'; apply Hlt, Hj' |].
        unfold set. rewrite Nat.eqb_refl.
        assert (Hk : get_pred d i0 + 1 = run i0) by (rewrite Rd, Hrun; lia).
        split; [exact Hk |].
        destruct (bk <? get_pred d i0 + 1) eqn:E; cbn [snd]; [lia |].
        apply Nat.ltb_ge in E. lia.
      * destruct Hi as [[Hi | Hi] | (Hi1 & Hi2 & Hi3)]; [congruence | left; exact Hi |].
        right. split; [intros j' Hj'; apply Hi1; right; exact Hj' |].
        unfold set. replace (i0 =? j) with false
          by (symmetry; apply Nat.eqb_neq; auto).
        split; [exact Hi2 |].
        destruct (bk <? get_pred d j + 1) eqn:E; cbn [snd]; [| lia].
        apply Nat.ltb_lt in E. lia.
Qed.

Lemma rows_diag (m : nat) :
  forall i0 d best,
    i0 + m = List.length s -> rowinv i0 d -> bestinv i0 best ->
    bestinv (List.length s)
            (rows s s 0 (List.length s) (seq i0 m) d best).
Proof.
  induction m as [| m IH]; intros i0 d best Hm Hd Hb; cbn [seq rows].
  - rewrite Nat.add_0_r in Hm. subst i0. exact Hb.
  - set (c := nth i0 s 0%N).
    assert (Step : rowinv (S i0) (fst (row i0 0 (List.length s) d (b2j s c) empty best))
                   /\ bestinv (S i0) (snd (row i0 0 (List.length s) d (b2j s c) empty best))).
    { unfold b2j. destruct (popular s c) eqn:Hpop.
      - cbn [row fst snd]. destruct best as [[bi bj] bk].
        assert (Hrun : run i0 = 0) by (rewrite run_eq; fold c; rewrite Hpop; reflexivity).
        split.
        + repeat split; intros; unfold empty; cbn [get_pred run_pred]; lia.
        + destruct Hb as (B1 & B2 & B3). repeat split; auto.
          intros j Hj. destruct (Nat.eq_dec j i0) as [-> | Hne]; [lia |].
          apply B3. lia.
      - apply (row_diag i0 d c eq_refl Hpop Hd).
        + apply indices_sorted.
        + intros j Hj. apply indices_In in Hj. rewrite Nat.sub_0_r in Hj.
          destruct Hj as (_ & H1 & H2). auto.
        + intros j. unfold empty. lia.
        + destruct best as [[bi bj] bk]. destruct Hb as (B1 & B2 & B3).
          repeat split; auto.
        + left. apply indices_In. rewrite Nat.sub_0_r.
          repeat split; lia. }
    destruct (row i0 0 (List.length s) d (b2j s c) empty best) as [newd best'].
    cbn [fst snd] in Step. destruct Step as [S1 S2].
    apply IH; auto. lia.
Qed.

Lemma extend_left_diag :
  forall i k, extend_left s s 0 0 i i k = (0, 0, i + k).
Proof.
  induction i as [| i IH]; intros k; cbn [extend_left]; [reflexivity |].
  replace (0 <? S i) with true by reflexivity.
  rewrite N.eqb_refl. cbn [andb].
  replace (S i - 1) with i by lia. rewrite IH. f_equal. lia.
Qed.

Lemma extend_right_diag (room : nat) :
  forall k, k + room = List.length s ->
            extend_right s s (List.length s) room 0 0 k = (0, 0, List.length s).
Proof.
  induction room as [| room IH]; intros k Hk; cbn [extend_right].
  - rewrite Nat.add_0_r in Hk. subst k. reflexivity.
  - replace (0 + k <? List.length s) with true
      by (symmetry; apply Nat.ltb_lt; lia).
    rewrite N.eqb_refl. cbn [andb]. apply IH. lia.
Qed.

(** The longest match of a sequence with itself is the whole of it. *)
Lemma find_longest_match_self :
  find_longest_match s s 0 (List.length s) 0 (List.length s)
  = (0, 0, List.length s).
Proof.
  unfold find_longest_match. rewrite Nat.sub_0_r.
  assert (H : bestinv (List.length s)
                (rows s s 0 (List.length s) (seq 0 (List.length s)) empty (0, 0, 0))).
  { apply rows_diag; [reflexivity | |].
    - repeat split; intros; unfold empty; cbn [get_pred run_pred]; lia.
    - repeat split; intros; lia. }
  destruct (rows s s 0 (List.length s) (seq 0 (List.length s)) empty (0, 0, 0))
    as [[bi bj] bk].
  destruct H as (<- & H2 & _).
  rewrite extend_left_diag. cbn [Nat.add].
  apply extend_right_diag. lia.
Qed.

(** [SequenceMatcher(None, s, s).ratio()] is 1.0. *)
Lemma ratio_self : (ratio s s == 1)%Q.
Proof.
  unfold ratio, _calculate_ratio, get_matching_blocks.
  destruct s as [| c t] eqn:Es; [reflexivity |].
  rewrite <- Es.
  replace (2 * List.length s + 1) with (S (2 * List.length s)) by lia.
  cbn [matching_loop]. rewrite find_longest_match_self.
  assert (Hn : List.length s <> 0) by (rewrite Es; discriminate).
  replace (List.length s =? 0) with false by (symmetry; apply Nat.eqb_neq; exact Hn).
  replace (0 <? 0) with false by reflexivity. cbn [andb].
  rewrite Nat.ltb_irrefl. cbn [andb app].
  replace (matching_loop s s (2 * List.length s) [] [(0, 0, List.length s)])
    with [(0, 0, List.length s)] by (destruct (2 * List.length s); reflexivity).
  cbn [size_sum fold_right snd]. rewrite Nat.add_0_r.
  replace (List.length s + List.length s =? 0) with false
    by (symmetry; apply Nat.eqb_neq; lia).
  change 2%Q with (inject_Z 2). rewrite <- inject_Z_mult.
  replace (2 * Z.of_nat (List.length s))%Z
    with (Z.of_nat (List.length s + List.length s)) by lia.
  apply Qmult_inv_r.
  change 0%Q with (inject_Z 0). rewrite inject_Z_injective. lia.
Qed.

End Diagonal.

End DifflibFacts.

(** ** Engine similarity *)

Lemma mem_In (w : str) (l : list str) : mem w l = true <-> In w l.
Proof.
  unfold mem. rewrite existsb_exists. split.
  - intros (x & Hx & E). apply str_eqb_eq in E. subst x. exact Hx.
  - intros H. exists w. split; [exact H | apply str_eqb_refl].
Qed.

Lemma set_of_NoDup (l : list str) : NoDup (set_of l).
Proof. apply NoDup_nodup. Qed.

Lemma set_inter_comm_length (x y : list str) :
  NoDup x -> NoDup y ->
  List.length (set_inter x y) = List.length (set_inter y x).
Proof.
  intros Hx Hy. apply Permutation_length, NoDup_Permutation.
  - apply NoDup_filter, Hx.
  - apply NoDup_filter, Hy.
  - intros w. unfold set_inter. rewrite !filter_In, !mem_In. tauto.
Qed.

Lemma set_union_comm_length (x y : list str) :
  List.length (set_union x y) = List.length (set_union y x).
Proof.
  apply Permutation_length, NoDup_Permutation; try apply set_of_NoDup.
  intros w. unfold set_union, set_of. rewrite !nodup_In, !in_app_iff. tauto.
Qed.

Lemma filter_true {A : Type} (f : A -> bool) (l : list A) :
  (forall a, In a l -> f a = true) -> filter f l = l.
Proof.
  induction l as [| x t IH]; intros H; cbn [filter]; [reflexivity |].
  rewrite (H x (or_introl eq_refl)), IH; [reflexivity |].
  intros a Ha. apply H. right. exact Ha.
Qed.

Lemma set_inter_self (x : list str) : set_inter x x = x.
Proof.
  unfold set_inter. apply filter_true. intros a Ha. apply mem_In, Ha.
Qed.

Lemma set_union_self_length (x : list str) :
  NoDup x -> List.length (set_union x x) = List.length x.
Proof.
  intros Hx. apply Permutation_length, NoDup_Permutation;
    [apply set_of_NoDup | exact Hx |].
  intros w. unfold set_union, set_of. rewrite nodup_In, in_app_iff. tauto.
Qed.

Lemma existsb_swap {A B : Type} (f : A -> B -> bool) (l1 : list A) (l2 : list B) :
  existsb (fun x => existsb (fun y => f x y) l2) l1
  = existsb (fun y => existsb (fun x => f x y) l1) l2.
Proof.
  apply eq_true_iff_eq. rewrite !existsb_exists. split.
  - intros (x & Hx & H). apply existsb_exists in H. destruct H as (y & Hy & H).
    exists y. split; [exact Hy |]. apply existsb_exists. eauto.
  - intros (y & Hy & H). apply existsb_exists in H. destruct H as (x & Hx & H).
    exists x. split; [exact Hx |]. apply existsb_exists. eauto.
Qed.

Lemma existsb_pointwise {A : Type} (f g : A -> bool) (l : list A) :
  (forall x, f x = g x) -> existsb f l = existsb g l.
Proof.
  intros H. induction l as [| x t IH]; cbn [existsb]; [reflexivity |].
  rewrite H, IH. reflexivity.
Qed.

(** [_similar_engines] does not depend on the order of its arguments, the
    exception included. *)
Lemma similar_engines_sym (e1 e2 : option str) :
  _similar_engines e1 e2 = _similar_engines e2 e1.
Proof.
  unfold _similar_engines.
  rewrite (orb_comm (negb (truthy e1))).
  destruct (negb (truthy e2) || negb (truthy e1)); [reflexivity |].
  rewrite existsb_swap.
  rewrite (existsb_pointwise _ (fun num2 => existsb (fun num1 =>
             Qlt_bool (Qabs (float num2 - float num1)) 0.1)
             (findall_numbers Outside (lower (val e1))))
             (findall_numbers Outside (lower (val e2)))).
  2:{ intros num2. apply existsb_pointwise. intros num1.
      rewrite Qabs_Qminus. reflexivity. }
  destruct (existsb _ (findall_numbers Outside (lower (val e2)))); [reflexivity |].
  rewrite (set_inter_comm_length _ _ (set_of_NoDup _) (set_of_NoDup _)).
  rewrite (set_union_comm_length (set_of (split (_normalize_string e1)))).
  reflexivity.
Qed.

Lemma split_aux_nonempty (t : str) :
  forall cur, cur <> [] -> split_aux cur t <> [].
Proof.
  induction t as [| c t IH]; intros cur Hc; cbn [split_aux].
  - destruct cur; [congruence | discriminate].
  - destruct (Unicode.isspace c).
    + destruct cur; [congruence | discriminate].
    + apply IH. discriminate.
Qed.

Lemma normalize_head_ok (x : option str) : head_ok (_normalize_string x).
Proof.
  unfold _normalize_string. destruct (negb (truthy x)); [exact I |].
  unfold strip. apply rstrip_head, dropwhile_head.
Qed.

Lemma split_normalize_nonempty (x : option str) :
  _normalize_string x <> [] -> split (_normalize_string x) <> [].
Proof.
  intros H. pose proof (normalize_head_ok x) as Hh.
  destruct (_normalize_string x) as [| c t]; [congruence |].
  unfold split. cbn [split_aux]. cbn [head_ok] in Hh. rewrite Hh.
  apply split_aux_nonempty. discriminate.
Qed.

(** Two engine texts with the same, non-empty, normal form are similar. *)
Lemma similar_engines_same (e1 e2 : option str) :
  truthy e1 = true -> truthy e2 = true ->
  _normalize_string e1 = _normalize_string e2 ->
  _normalize_string e1 <> [] ->
  _similar_engines e1 e2 = Ok true.
Proof.
  intros T1 T2 E Hne. unfold _similar_engines. rewrite T1, T2. cbn [negb orb].
  destruct (existsb _ _); [reflexivity |].
  rewrite <- E.
  set (w := set_of (split (_normalize_string e1))).
  rewrite set_inter_self, (set_union_self_length w (set_of_NoDup _)).
  assert (Hw : List.length w <> 0).
  { subst w. pose proof (split_normalize_nonempty e1 Hne) as Hs.
    destruct (split (_normalize_string e1)) as [| x l] eqn:Ex; [congruence |].
    assert (Hin : In x (set_of (x :: l))) by (apply nodup_In; left; reflexivity).
    destruct (set_of (x :: l)); [destruct Hin | discriminate]. }
  destruct (2 <=? List.length w) eqn:E2; [reflexivity |].
  apply Nat.leb_gt in E2.
  assert (E1 : List.length w = 1) by lia. rewrite E1. reflexivity.
Qed.

(** ** The similarity scorer *)

(** The scorer returns the number [q] (as a rational). *)
Definition returns (r : result Q) (q : Q) : Prop :=
  match r with
  | Ok q' => (q' == q)%Q
  | Raise _ => False
  end.

(** *** The range in which the embedding is exact

    The tables of [Unicode] hold the code points U+0000 to U+017F and U+0300
    to U+036F: outside them the classes and [lower1] are not those of
    Python.  Numbers are exact rationals here and binary64 numbers in the
    code: a comparison comes out the same in both unless the exact value
    lies within the rounding error of the bound it is compared with.  The
    properties that depend on the normal form of a text, or on the outcome
    of such a comparison, are stated in this range. *)

(** The text is written with code points of the tables. *)
Definition tabular (x : option str) : bool :=
  forallb Unicode.in_table (val x).

(** The texts of a listing, and of a group, that are normalized or put in
    lower case: the year is compared as it is written. *)
Definition tabular_listing (v : VehicleCreate.t) : bool :=
  tabular (VehicleCreate.brand v) && tabular (VehicleCreate.model v)
  && tabular (VehicleCreate.edition v) && tabular (VehicleCreate.engine v).

Definition tabular_group (c : CanonicalVehicle.t) : bool :=
  tabular (CanonicalVehicle.brand c) && tabular (CanonicalVehicle.model c)
  && tabular (CanonicalVehicle.edition c) && tabular (CanonicalVehicle.engine c).

(** A distance the rounding of binary64 stays far below, in the scorer
    (whose values lie between 0 and 1) and in the difference of two engine
    numbers below one million. *)
Definition margin : Q := 1 # 1000000000.

(** The test [abs(float(num1) - float(num2)) < 0.1] has the same outcome in
    binary64 as on the exact numbers: both are below one million, and their
    distance is not within [margin] of 0.1. *)
Definition clear_of_tie (x y : Q) : bool :=
  Qlt_bool x 1000000 && Qlt_bool y 1000000
  && Qlt_bool margin (Qabs (Qabs (x - y) - 0.1)).

(** ... for every number of the first engine against every number of the
    second. *)
Definition engines_clear (engine1 engine2 : option str) : bool :=
  forallb (fun num1 =>
             forallb (fun num2 => clear_of_tie (float num1) (float num2))
                     (findall_numbers Outside (lower (val engine2))))
          (findall_numbers Outside (lower (val engine1))).

(** The listing and the group are in the range of the tables, and their
    engines are compared without a tie. *)
Definition faithful (v : VehicleCreate.t) (c : CanonicalVehicle.t) : bool :=
  tabular_listing v && tabular_group c
  && engines_clear (VehicleCreate.engine v) (CanonicalVehicle.engine c).

(** The test [similarity_score >= threshold] has the same outcome in
    binary64 as on the exact score: the score is not within [margin] of the
    threshold. *)
Definition score_clear (threshold : Q) (v : VehicleCreate.t)
           (c : CanonicalVehicle.t) : bool :=
  match _calculate_similarity v c with
  | Ok q => Qlt_bool margin (Qabs (q - threshold))
  | Raise _ => true
  end.

(** A fuzzy loop with this threshold treats the group, for the listing, as
    the code does. *)
Definition comparable (threshold : Q) (v : VehicleCreate.t)
           (c : CanonicalVehicle.t) : bool :=
  faithful v c && score_clear threshold v c.

(** ... and so do both phases of the matcher. *)
Definition matchable (v : VehicleCreate.t) (c : CanonicalVehicle.t) : bool :=
  comparable 0.90 v c && comparable 0.95 v c.

(** A field is present on both sides. *)
Definition both (x y : option str) : bool := truthy x && truthy y.

Ltac score_cases :=
  repeat match goal with
         | |- context [truthy ?x && truthy ?y] =>
             destruct (truthy x && truthy y)
         | |- context [truthy ?x] =>
             let E := fresh "T" in destruct (truthy x) eqn:E
         end;
  cbn [andb orb negb rbind] in *.

Section Scorer.
Variables (v : VehicleCreate.t) (c : CanonicalVehicle.t).




End Scorer.

Definition listing (brand model year edition engine : option str)
  : VehicleCreate.t :=
  VehicleCreate.mk [] brand model year edition engine None None None.

Definition candidate (id : str) (brand model year edition engine : option str)
  : CanonicalVehicle.t :=
  CanonicalVehicle.mk id brand model year edition engine None None None
    None None None None 0 0 0 None CanonicalVehicleStatus.ACTIVE 0 0 None.

Definition text (s : string) : option str := Some (py s).




(** *** Symmetry *)

Definition attrs_of_listing (v : VehicleCreate.t) :=
  (VehicleCreate.brand v, VehicleCreate.model v, VehicleCreate.year v,
   VehicleCreate.edition v, VehicleCreate.engine v).

Definition attrs_of_candidate (c : CanonicalVehicle.t) :=
  (CanonicalVehicle.brand c, CanonicalVehicle.model c, CanonicalVehicle.year c,
   CanonicalVehicle.edition c, CanonicalVehicle.engine c).

(** Two runs of the scorer end the same way. *)
Definition same_result (r1 r2 : result Q) : Prop :=
  match r1, r2 with
  | Ok x, Ok y => (x == y)%Q
  | Raise e1, Raise e2 => e1 = e2
  | _, _ => False
  end.

(** C6, as stated, fails: [SequenceMatcher.ratio] depends on the order of
    its arguments.  With the brands "Dodge" and "Ford" the score is 2/9 in
    one direction and 4/9 in the other. *)
Lemma score_not_symmetric :
  let a := listing (text "Dodge") None None None None in
  let b := listing (text "Ford") None None None None in
  let ca := candidate [] (text "Dodge") None None None None in
  let cb := candidate [] (text "Ford") None None None None in
  attrs_of_candidate ca = attrs_of_listing a
  /\ attrs_of_candidate cb = attrs_of_listing b
  /\ returns (_calculate_similarity a cb) (2 # 9)
  /\ returns (_calculate_similarity b ca) (4 # 9)
  /\ ~ same_result (_calculate_similarity a cb) (_calculate_similarity b ca).
Proof.
  vm_compute. repeat split; try reflexivity. discriminate.
Qed.

(** C6, amended.  For records written with the code points of the tables:
    the gating on presence, the comparison of years and the engine
    similarity (its exception included) do not depend on the order of the
    two records; the score is the same in both directions whenever the
    string ratio is, on the normalized brands, models and editions. *)
Theorem score_symmetric_when_ratio_is
        (a b : VehicleCreate.t) (ca cb : CanonicalVehicle.t) :
  tabular_listing a = true ->
  tabular_listing b = true ->
  attrs_of_candidate ca = attrs_of_listing a ->
  attrs_of_candidate cb = attrs_of_listing b ->
  (field_ratio (VehicleCreate.brand a) (VehicleCreate.brand b)
   == field_ratio (VehicleCreate.brand b) (VehicleCreate.brand a))%Q ->
  (field_ratio (VehicleCreate.model a) (VehicleCreate.model b)
   == field_ratio (VehicleCreate.model b) (VehicleCreate.model a))%Q ->
  (field_ratio (VehicleCreate.edition a) (VehicleCreate.edition b)
   == field_ratio (VehicleCreate.edition b) (VehicleCreate.edition a))%Q ->
  same_result (_calculate_similarity a cb) (_calculate_similarity b ca)
  /\ _similar_engines (VehicleCreate.engine a) (VehicleCreate.engine b)
     = _similar_engines (VehicleCreate.engine b) (VehicleCreate.engine a).
Proof.
  unfold attrs_of_candidate, attrs_of_listing.
  intros _ _ Ha Hb Rb Rm Re.
  split; [| apply similar_engines_sym].
  unfold _calculate_similarity.
  injection Ha as -> -> -> -> ->. injection Hb as -> -> -> -> ->.
  rewrite (similar_engines_sym (VehicleCreate.engine b)).
  rewrite (str_eqb_sym (val (VehicleCreate.year b))).
  rewrite (andb_comm (truthy (VehicleCreate.brand b))),
          (andb_comm (truthy (VehicleCreate.model b))),
          (andb_comm (truthy (VehicleCreate.year b))),
          (andb_comm (truthy (VehicleCreate.edition b))),
          (andb_comm (truthy (VehicleCreate.engine b))).
  set (rb := field_ratio (VehicleCreate.brand a) (VehicleCreate.brand b)) in *.
  set (rm := field_ratio (VehicleCreate.model a) (VehicleCreate.model b)) in *.
  set (re := field_ratio (VehicleCreate.edition a) (VehicleCreate.edition b)) in *.
  set (rb' := field_ratio (VehicleCreate.brand b) (VehicleCreate.brand a)) in *.
  set (rm' := field_ratio (VehicleCreate.model b) (VehicleCreate.model a)) in *.
  set (re' := field_ratio (VehicleCreate.edition b) (VehicleCreate.edition a)) in *.
  clearbody rb rm re rb' rm' re'.
  destruct (_similar_engines (VehicleCreate.engine a) (VehicleCreate.engine b))
    as [[|] | e];
    destruct (str_eqb (val (VehicleCreate.year a)) (val (VehicleCreate.year b)));
    score_cases; cbn [same_result]; try reflexivity;
    match goal with
    | |- context [Qlt_bool ?x ?y] => destruct (Qlt_bool x y)
    end;
    rewrite ?Rb, ?Rm, ?Re; reflexivity.
Qed.

Lemma score_symmetric_when_ratio_is_witness :
  same_result
    (_calculate_similarity
       (listing (text "Honda") (text "Civic") (text "2020") (text "LX")
                (text "1.5L Turbo"))
       (candidate [] (text "Honda") (text "Civik") (text "2019") (text "EX")
                  (text "2.0")))
    (_calculate_similarity
       (listing (text "Honda") (text "Civik") (text "2019") (text "EX")
                (text "2.0"))
       (candidate [] (text "Honda") (text "Civic") (text "2020") (text "LX")
                  (text "1.5L Turbo"))).
Proof.
  refine (proj1 (score_symmetric_when_ratio_is
    (listing (text "Honda") (text "Civic") (text "2020") (text "LX")
             (text "1.5L Turbo"))
    (listing (text "Honda") (text "Civik") (text "2019") (text "EX") (text "2.0"))
    (candidate [] (text "Honda") (text "Civic") (text "2020") (text "LX")
               (text "1.5L Turbo"))
    (candidate [] (text "Honda") (text "Civik") (text "2019") (text "EX")
               (text "2.0"))
    eq_refl eq_refl eq_refl eq_refl _ _ _)); vm_compute; reflexivity.
Defined.

(** ** The matcher *)

Lemma Qlt_bool_iff (x y : Q) : Qlt_bool x y = true <-> (x < y)%Q.
Proof.
  unfold Qlt_bool. rewrite negb_true_iff. split.
  - intros H. apply Qnot_le_lt. intros L. apply Qle_bool_iff in L. congruence.
  - intros H. destruct (Qle_bool y x) eqn:E; [| reflexivity].
    apply Qle_bool_iff in E. apply Qlt_not_le in H. contradiction.
Qed.

Lemma Qle_bool_false (x y : Q) : Qle_bool x y = false <-> (y < x)%Q.
Proof.
  rewrite <- Qlt_bool_iff. unfold Qlt_bool. rewrite negb_true_iff. tauto.
Qed.

(** [c] is the first candidate of [cands] whose score reaches [threshold]:
    every candidate before it is scored, without error, below it. *)
Definition first_at_or_above (threshold : Q) (v : VehicleCreate.t)
           (cands : list CanonicalVehicle.t) (c : CanonicalVehicle.t) : Prop :=
  exists pre post q,
    cands = pre ++ c :: post
    /\ Forall (fun x => exists qx, _calculate_similarity v x = Ok qx
                                   /\ (qx < threshold)%Q) pre
    /\ _calculate_similarity v c = Ok q /\ (threshold <= q)%Q.

Lemma fuzzy_loop_first (threshold : Q) (v : VehicleCreate.t)
      (cands : list CanonicalVehicle.t) (c : CanonicalVehicle.t) :
  first_at_or_above threshold v cands c ->
  fuzzy_loop threshold v cands = Ok (Some (CanonicalVehicle._id c)).
Proof.
  intros (pre & post & q & -> & Hpre & Hc & Hq).
  induction Hpre as [| x pre (qx & Hx & Hlt) _ IH]; cbn [app fuzzy_loop].
  - rewrite Hc. cbn [rbind]. apply Qle_bool_iff in Hq. rewrite Hq. reflexivity.
  - rewrite Hx. cbn [rbind]. apply Qle_bool_false in Hlt. rewrite Hlt. exact IH.
Qed.

(** The scorer raises [e] before a candidate of [cands] reaches
    [threshold]: every candidate before the one it raises on is scored,
    without error, below the threshold. *)
Definition raises_first (threshold : Q) (v : VehicleCreate.t)
           (cands : list CanonicalVehicle.t) (e : exn) : Prop :=
  exists pre x post,
    cands = pre ++ x :: post
    /\ Forall (fun x => exists qx, _calculate_similarity v x = Ok qx
                                   /\ (qx < threshold)%Q) pre
    /\ _calculate_similarity v x = Raise e.

Lemma fuzzy_loop_raises (threshold : Q) (v : VehicleCreate.t)
      (cands : list CanonicalVehicle.t) (e : exn) :
  raises_first threshold v cands e ->
  fuzzy_loop threshold v cands = Raise e.
Proof.
  intros (pre & x & post & -> & Hpre & Hx).
  induction Hpre as [| y pre (qy & Hy & Hlt) _ IH]; cbn [app fuzzy_loop].
  - rewrite Hx. reflexivity.
  - rewrite Hy. cbn [rbind]. apply Qle_bool_false in Hlt. rewrite Hlt. exact IH.
Qed.

(** [c] is the first candidate of [cands] that satisfies the exact-match
    predicate: the predicate is evaluated, without error, to false on
    every candidate before it. *)
Definition first_exact (v : VehicleCreate.t)
           (cands : list CanonicalVehicle.t) (c : CanonicalVehicle.t) : Prop :=
  exists pre post,
    cands = pre ++ c :: post
    /\ Forall (fun x => _is_exact_match v x = Ok false) pre
    /\ _is_exact_match v c = Ok true.

Lemma exact_loop_first (v : VehicleCreate.t)
      (cands : list CanonicalVehicle.t) (c : CanonicalVehicle.t) :
  first_exact v cands c ->
  exact_loop v cands = Ok (Some (CanonicalVehicle._id c)).
Proof.
  intros (pre & post & -> & Hpre & Hc).
  induction Hpre as [| x pre Hx _ IH]; cbn [app exact_loop].
  - rewrite Hc. reflexivity.
  - rewrite Hx. exact IH.
Qed.

(** When no error precedes it, the first candidate of the narrow search
    that satisfies the exact predicate is returned, whatever the scores of
    the others. *)
Lemma exact_match_short_circuits (re_compile : str -> option (str -> bool))
      (v : VehicleCreate.t) (s s1 : db)
      (cands : list CanonicalVehicle.t) (c : CanonicalVehicle.t) :
  query_nonempty (narrow_query v) = true ->
  find_canonical re_compile (narrow_query v) s = (Ok cands, s1) ->
  first_exact v cands c ->
  _find_matching_canonical re_compile v s = (Ok (Some (CanonicalVehicle._id c)), s1).
Proof.
  intros Hq Hf Hc. unfold _find_matching_canonical, try_except, bind.
  rewrite Hq, Hf. unfold lift. rewrite (exact_loop_first _ _ _ Hc). reflexivity.
Qed.

(** C1, amended.  When the exact predicate holds of no candidate and
    raises on none, each fuzzy path scores the candidates in the order of
    the list and stops at the first one that reaches the threshold of the
    phase (0.90 narrow, 0.95 broad over the first 50 broad candidates), or
    on which the scorer raises.  In the first case [find_match] returns
    that candidate: the candidates after it are not scored, so a later
    candidate with a greater score is not preferred.  In the second it logs
    the error and returns no match.  The candidates are in the range of the
    tables and their scores are clear of the threshold. *)
Theorem find_match_returns_first_at_or_above_threshold
        (re_compile : str -> option (str -> bool))
        (v : VehicleCreate.t) (s s1 : db)
        (cands : list CanonicalVehicle.t) (c : CanonicalVehicle.t) :
  query_nonempty (narrow_query v) = true ->
  find_canonical re_compile (narrow_query v) s = (Ok cands, s1) ->
  forallb (comparable 0.90 v) cands = true ->
  exact_loop v cands = Ok None ->
  (first_at_or_above 0.90 v cands c ->
   _find_matching_canonical re_compile v s
   = (Ok (Some (CanonicalVehicle._id c)), s1))
  /\ (forall e,
        raises_first 0.90 v cands e ->
        _find_matching_canonical re_compile v s
        = (Ok None, snd (logger_error e s1)))
  /\ (forall broad s2,
        fuzzy_loop 0.90 v cands = Ok None ->
        truthy (VehicleCreate.brand v) && truthy (VehicleCreate.model v) = true ->
        find_canonical re_compile (broad_query v) s1 = (Ok broad, s2) ->
        forallb (comparable 0.95 v) (firstn 50 broad) = true ->
        (first_at_or_above 0.95 v (firstn 50 broad) c ->
         _find_matching_canonical re_compile v s
         = (Ok (Some (CanonicalVehicle._id c)), s2))
        /\ (forall e,
              raises_first 0.95 v (firstn 50 broad) e ->
              _find_matching_canonical re_compile v s
              = (Ok None, snd (logger_error e s2)))).
Proof.
  intros Hq Hf _ He. split; [| split].
  - intros Hc. unfold _find_matching_canonical, try_except, bind.
    rewrite Hq, Hf. unfold lift. rewrite He, (fuzzy_loop_first _ _ _ _ Hc).
    reflexivity.
  - intros e Hr. unfold _find_matching_canonical, try_except, bind.
    rewrite Hq, Hf. unfold lift. rewrite He, (fuzzy_loop_raises _ _ _ _ Hr).
    reflexivity.
  - intros broad s2 Hn Hbm Hb _. split.
    + intros Hc. unfold _find_matching_canonical, try_except, bind.
      rewrite Hq, Hf. unfold lift. rewrite He, Hn. unfold ret.
      rewrite Hbm, Hb, (fuzzy_loop_first _ _ _ _ Hc). reflexivity.
    + intros e Hr. unfold _find_matching_canonical, try_except, bind.
      rewrite Hq, Hf. unfold lift. rewrite He, Hn. unfold ret.
      rewrite Hbm, Hb, (fuzzy_loop_raises _ _ _ _ Hr). reflexivity.
Qed.

(** A store holding the given groups, no listing, no pending fault. *)
Definition store (groups : list CanonicalVehicle.t) : db :=
  mkdb groups [] [] 0 (N.of_nat (List.length groups)) [].

Definition honda_civic (edition engine : option str) : VehicleCreate.t :=
  listing (text "Honda") (text "Civic") (text "2020") edition engine.

Definition honda_civic_group (n : N) (year edition engine : option str)
  : CanonicalVehicle.t :=
  candidate (fresh_id n) (text "Honda") (text "Civic") year edition engine.

(** C1, as stated, fails: of two narrow candidates that both score at least
    0.90 and fail the exact predicate, the first of the list is returned
    although the second scores strictly more (35/36 against 151/153). *)
Lemma find_match_returns_first_not_highest :
  let v := honda_civic (text "LX Sport") None in
  let c1 := honda_civic_group 0 (text "2020") (text "EX Sport") None in
  let c2 := honda_civic_group 1 (text "2020") (text "LX Sports") None in
  _is_exact_match v c1 = Ok false
  /\ _is_exact_match v c2 = Ok false
  /\ returns (_calculate_similarity v c1) (35 # 36)
  /\ returns (_calculate_similarity v c2) (151 # 153)
  /\ (0.90 <= 35 # 36)%Q /\ (35 # 36 < 151 # 153)%Q
  /\ fst (_find_matching_canonical literal_regex v (store [c1; c2]))
     = Ok (Some (CanonicalVehicle._id c1))
  /\ CanonicalVehicle._id c1 <> CanonicalVehicle._id c2.
Proof.
  vm_compute. repeat split; try reflexivity; discriminate.
Qed.

Lemma find_match_returns_first_at_or_above_threshold_witness :
  (let v := honda_civic (text "LX Sport") None in
   let c1 := honda_civic_group 0 (text "2020") (text "EX Sport") None in
   let c2 := honda_civic_group 1 (text "2020") (text "LX Sports") None in
   _find_matching_canonical literal_regex v (store [c1; c2])
   = (Ok (Some (CanonicalVehicle._id c1)), store [c1; c2]))
  /\ (let v := honda_civic (text "LX Sport") (text "-") in
      let c1 := honda_civic_group 0 (text "2020") (text "EX Sport") (text "-") in
      let c2 := honda_civic_group 1 (text "2020") (text "LX Sports") None in
      _find_matching_canonical literal_regex v (store [c1; c2])
      = (Ok None, snd (logger_error ZeroDivisionError (store [c1; c2]))))
  /\ (let v := honda_civic None None in
      let c := honda_civic_group 0 None None None in
      _find_matching_canonical literal_regex v (store [c])
      = (Ok (Some (CanonicalVehicle._id c)), store [c])).
Proof.
  split; [| split].
  - refine (proj1 (find_match_returns_first_at_or_above_threshold
                     literal_regex
                     (honda_civic (text "LX Sport") None)
                     (store [honda_civic_group 0 (text "2020") (text "EX Sport") None;
                             honda_civic_group 1 (text "2020") (text "LX Sports") None])
                     _ _ (honda_civic_group 0 (text "2020") (text "EX Sport") None)
                     _ _ _ _) _).
    + reflexivity.
    + vm_compute. reflexivity.
    + vm_compute. reflexivity.
    + vm_compute. reflexivity.
    + exists [], [honda_civic_group 1 (text "2020") (text "LX Sports") None].
      eexists. split; [reflexivity |]. split; [constructor |].
      split; [vm_compute; reflexivity | vm_compute; discriminate].
  - refine (proj1 (proj2 (find_match_returns_first_at_or_above_threshold
                     literal_regex
                     (honda_civic (text "LX Sport") (text "-"))
                     (store [honda_civic_group 0 (text "2020") (text "EX Sport")
                                               (text "-");
                             honda_civic_group 1 (text "2020") (text "LX Sports") None])
                     _ _ (honda_civic_group 0 (text "2020") (text "EX Sport")
                                            (text "-"))
                     _ _ _ _)) ZeroDivisionError _).
    + reflexivity.
    + vm_compute. reflexivity.
    + vm_compute. reflexivity.
    + vm_compute. reflexivity.
    + exists [], (honda_civic_group 0 (text "2020") (text "EX Sport") (text "-")),
        [honda_civic_group 1 (text "2020") (text "LX Sports") None].
      split; [reflexivity |]. split; [constructor |]. vm_compute. reflexivity.
  - refine (proj1 (proj2 (proj2 (find_match_returns_first_at_or_above_threshold
                     literal_regex (honda_civic None None)
                     (store [honda_civic_group 0 None None None])
                     (store [honda_civic_group 0 None None None])
                     [] (honda_civic_group 0 None None None) _ _ _ _))
                  [honda_civic_group 0 None None None] _ _ _ _ _) _).
    + reflexivity.
    + vm_compute. reflexivity.
    + reflexivity.
    + reflexivity.
    + reflexivity.
    + reflexivity.
    + vm_compute. reflexivity.
    + vm_compute. reflexivity.
    + exists [], []. eexists. split; [reflexivity |]. split; [constructor |].
      split; [vm_compute; reflexivity | vm_compute; discriminate].
Defined.

(** C2 at its failing input.  The listing and the first candidate both
    carry the engine text "-", which has no digit and whose normal form is
    empty: [_similar_engines] divides 0 by 0.  The second candidate
    satisfies the exact predicate, but the error raised on the first one
    ends the search: [find_match] logs it and returns no match, and
    [find_or_create] then creates a third group. *)
Lemma exact_match_search_aborted_by_division_by_zero :
  let v := honda_civic None (text "-") in
  let c1 := honda_civic_group 0 (text "2020") None (text "-") in
  let c2 := honda_civic_group 1 (text "2020") None None in
  _similar_engines (text "-") (text "-") = Raise ZeroDivisionError
  /\ _is_exact_match v c1 = Raise ZeroDivisionError
  /\ _is_exact_match v c2 = Ok true
  /\ fst (_find_matching_canonical literal_regex v (store [c1; c2])) = Ok None
  /\ log (snd (_find_matching_canonical literal_regex v (store [c1; c2])))
     = [ZeroDivisionError]
  /\ fst (find_or_create_canonical_vehicle literal_regex v (store [c1; c2]))
     = Ok (Some (fresh_id 2))
  /\ List.length (canonical_vehicles
       (snd (find_or_create_canonical_vehicle literal_regex v (store [c1; c2]))))
     = 3.
Proof.
  vm_compute. repeat split; reflexivity.
Qed.

(** ** [find_or_create_canonical_vehicle] and storage errors *)



(** ** What the matcher reads of a group *)

(** The identifier and the five attributes: all [_find_matching_canonical]
    reads of a document.  The status is not among them. *)
Definition match_view (c : CanonicalVehicle.t) :=
  (CanonicalVehicle._id c, CanonicalVehicle.brand c, CanonicalVehicle.model c,
   CanonicalVehicle.year c, CanonicalVehicle.edition c, CanonicalVehicle.engine c).

Definition with_faults (f : list bool) (s : db) : db :=
  mkdb (canonical_vehicles s) (vehicles s) f (clock s) (next_id s) (log s).

Lemma match_view_fields (c1 c2 : CanonicalVehicle.t) :
  match_view c1 = match_view c2 ->
  CanonicalVehicle._id c1 = CanonicalVehicle._id c2
  /\ CanonicalVehicle.brand c1 = CanonicalVehicle.brand c2
  /\ CanonicalVehicle.model c1 = CanonicalVehicle.model c2
  /\ CanonicalVehicle.year c1 = CanonicalVehicle.year c2
  /\ CanonicalVehicle.edition c1 = CanonicalVehicle.edition c2
  /\ CanonicalVehicle.engine c1 = CanonicalVehicle.engine c2.
Proof. unfold match_view. intros H. injection H. auto 10. Qed.

Lemma exact_match_view (v : VehicleCreate.t) (c1 c2 : CanonicalVehicle.t) :
  match_view c1 = match_view c2 -> _is_exact_match v c1 = _is_exact_match v c2.
Proof.
  intros H. apply match_view_fields in H.
  destruct H as (_ & Hb & Hm & Hy & He & Hg).
  unfold _is_exact_match. rewrite Hb, Hm, Hy, He, Hg. reflexivity.
Qed.

Lemma similarity_view (v : VehicleCreate.t) (c1 c2 : CanonicalVehicle.t) :
  match_view c1 = match_view c2 ->
  _calculate_similarity v c1 = _calculate_similarity v c2.
Proof.
  intros H. apply match_view_fields in H.
  destruct H as (_ & Hb & Hm & Hy & He & Hg).
  unfold _calculate_similarity. rewrite Hb, Hm, Hy, He, Hg. reflexivity.
Qed.

Lemma cons_eq_inv {A : Type} (x y : A) (l l' : list A) :
  x :: l = y :: l' -> x = y /\ l = l'.
Proof. intros H. injection H. auto. Qed.

Lemma exact_loop_view (v : VehicleCreate.t) (l1 : list CanonicalVehicle.t) :
  forall l2, map match_view l1 = map match_view l2 ->
             exact_loop v l1 = exact_loop v l2.
Proof.
  induction l1 as [| c1 l1 IH]; intros [| c2 l2] H; try discriminate;
    [reflexivity |].
  cbn [map] in H. apply cons_eq_inv in H. destruct H as [Hc Hl]. cbn [exact_loop].
  rewrite (exact_match_view v c1 c2 Hc), (IH l2 Hl).
  apply match_view_fields in Hc. destruct Hc as [-> _]. reflexivity.
Qed.

Lemma fuzzy_loop_view (t : Q) (v : VehicleCreate.t) (l1 : list CanonicalVehicle.t) :
  forall l2, map match_view l1 = map match_view l2 ->
             fuzzy_loop t v l1 = fuzzy_loop t v l2.
Proof.
  induction l1 as [| c1 l1 IH]; intros [| c2 l2] H; try discriminate;
    [reflexivity |].
  cbn [map] in H. apply cons_eq_inv in H. destruct H as [Hc Hl]. cbn [fuzzy_loop].
  rewrite (similarity_view v c1 c2 Hc), (IH l2 Hl).
  apply match_view_fields in Hc. destruct Hc as [-> _]. reflexivity.
Qed.

Lemma filter_view (p : CanonicalVehicle.t -> bool) (l1 : list CanonicalVehicle.t) :
  (forall c1 c2, match_view c1 = match_view c2 -> p c1 = p c2) ->
  forall l2, map match_view l1 = map match_view l2 ->
             map match_view (filter p l1) = map match_view (filter p l2).
Proof.
  intros Hp. induction l1 as [| c1 l1 IH]; intros [| c2 l2] H; try discriminate;
    [reflexivity |].
  cbn [map] in H. apply cons_eq_inv in H. destruct H as [Hc Hl]. cbn [filter].
  rewrite (Hp c1 c2 Hc). destruct (p c2); cbn [map]; rewrite ?Hc, (IH l2 Hl);
    reflexivity.
Qed.

Lemma firstn_view (n : nat) (l1 : list CanonicalVehicle.t) :
  forall l2, map match_view l1 = map match_view l2 ->
             map match_view (firstn n l1) = map match_view (firstn n l2).
Proof.
  intros l2 H. rewrite <- !firstn_map, H. reflexivity.
Qed.

(** Two stores the matcher cannot tell apart. *)
Definition alike (s1 s2 : db) : Prop :=
  map match_view (canonical_vehicles s1) = map match_view (canonical_vehicles s2)
  /\ faults s1 = faults s2.

Section Alike.
Variable re_compile : str -> option (str -> bool).

Lemma find_canonical_alike (q : query) (s1 s2 : db) :
  alike s1 s2 ->
  match find_canonical re_compile q s1, find_canonical re_compile q s2 with
  | (Ok l1, s1'), (Ok l2, s2') =>
      map match_view l1 = map match_view l2 /\ alike s1' s2'
  | (Raise e1, _), (Raise e2, _) => e1 = e2
  | _, _ => False
  end.
Proof.
  intros [Hv Hf].
  assert (Hfilter : forall fb fm : option str -> bool,
    map match_view
      (filter (fun c => fb (CanonicalVehicle.brand c) && fm (CanonicalVehicle.model c)
                        && year_filter (q_year q) (CanonicalVehicle.year c))
              (canonical_vehicles s1))
    = map match_view
      (filter (fun c => fb (CanonicalVehicle.brand c) && fm (CanonicalVehicle.model c)
                        && year_filter (q_year q) (CanonicalVehicle.year c))
              (canonical_vehicles s2))).
  { intros fb fm. apply filter_view; [| exact Hv].
    intros c1 c2 Hc. apply match_view_fields in Hc.
    destruct Hc as (_ & -> & -> & -> & _). reflexivity. }
  unfold find_canonical, bind, storage_op, lift, get_canonical_vehicles, ret.
  rewrite <- Hf.
  destruct (faults s1) as [| [|] rest] eqn:E1; [| reflexivity |];
    cbn [canonical_vehicles faults];
    destruct (regex_filter re_compile (q_brand q)) as [fb | e]; try reflexivity;
    destruct (regex_filter re_compile (q_model q)) as [fm | e']; try reflexivity;
    (split; [apply Hfilter | split; cbn [canonical_vehicles faults]; congruence]).
Qed.

(** The answer of the matcher is the same on stores that are alike. *)
Lemma find_matching_alike (v : VehicleCreate.t) (s1 s2 : db) :
  alike s1 s2 ->
  fst (_find_matching_canonical re_compile v s1)
  = fst (_find_matching_canonical re_compile v s2).
Proof.
  intros H. unfold _find_matching_canonical, try_except, bind.
  destruct (query_nonempty (narrow_query v)).
  - pose proof (find_canonical_alike (narrow_query v) s1 s2 H) as F.
    destruct (find_canonical re_compile (narrow_query v) s1) as [[l1 | e1] s1'],
             (find_canonical re_compile (narrow_query v) s2) as [[l2 | e2] s2'];
      try contradiction; [| reflexivity].
    destruct F as [Hl H']. unfold lift.
    rewrite (exact_loop_view v l1 l2 Hl).
    destruct (exact_loop v l2) as [[id |] | e]; try reflexivity.
    rewrite (fuzzy_loop_view 0.90 v l1 l2 Hl).
    destruct (fuzzy_loop 0.90 v l2) as [[id |] | e]; try reflexivity.
    destruct (truthy (VehicleCreate.brand v) && truthy (VehicleCreate.model v));
      [| reflexivity].
    pose proof (find_canonical_alike (broad_query v) s1' s2' H') as F.
    destruct (find_canonical re_compile (broad_query v) s1') as [[b1 | e1] s1''],
             (find_canonical re_compile (broad_query v) s2') as [[b2 | e2] s2''];
      try contradiction; [| reflexivity].
    destruct F as [Hb _].
    rewrite (fuzzy_loop_view 0.95 v _ _ (firstn_view 50 b1 b2 Hb)).
    destruct (fuzzy_loop 0.95 v (firstn 50 b2)) as [[id |] | e]; reflexivity.
  - unfold ret.
    destruct (truthy (VehicleCreate.brand v) && truthy (VehicleCreate.model v));
      [| reflexivity].
    pose proof (find_canonical_alike (broad_query v) s1 s2 H) as F.
    destruct (find_canonical re_compile (broad_query v) s1) as [[b1 | e1] s1''],
             (find_canonical re_compile (broad_query v) s2) as [[b2 | e2] s2''];
      try contradiction; [| reflexivity].
    destruct F as [Hb _].
    rewrite (fuzzy_loop_view 0.95 v _ _ (firstn_view 50 b1 b2 Hb)).
    destruct (fuzzy_loop 0.95 v (firstn 50 b2)) as [[id |] | e]; reflexivity.
Qed.

End Alike.

(** ** What [update_canonical_vehicle_stats] and [merge] leave alone *)

(** A property of the [canonical_vehicles] collection that a computation
    maintains. *)
Definition preserves {A : Type} (P : list CanonicalVehicle.t -> Prop) (m : M A)
  : Prop :=
  forall s, P (canonical_vehicles s) -> P (canonical_vehicles (snd (m s))).

Section Preserves.
Variable P : list CanonicalVehicle.t -> Prop.

Lemma preserves_ret {A : Type} (a : A) : preserves P (ret a).
Proof. intros s H. exact H. Qed.

Lemma preserves_raise {A : Type} (e : exn) : preserves P (@raise A e).
Proof. intros s H. exact H. Qed.

Lemma preserves_lift {A : Type} (r : result A) : preserves P (lift r).
Proof. intros s H. exact H. Qed.

Lemma preserves_storage_op : preserves P storage_op.
Proof.
  intros s H. unfold storage_op. destruct (faults s) as [| [|] rest]; exact H.
Qed.

Lemma preserves_utcnow : preserves P utcnow.
Proof. intros s H. exact H. Qed.

Lemma preserves_logger_error (e : exn) : preserves P (logger_error e).
Proof. intros s H. exact H. Qed.

Lemma preserves_get_vehicles : preserves P get_vehicles.
Proof. intros s H. exact H. Qed.

Lemma preserves_put_vehicles (l : list Vehicle.t) : preserves P (put_vehicles l).
Proof. intros s H. exact H. Qed.

Lemma preserves_bind {A B : Type} (m : M A) (k : A -> M B) :
  preserves P m -> (forall a, preserves P (k a)) -> preserves P (bind m k).
Proof.
  intros Hm Hk s H. unfold bind. specialize (Hm s H).
  destruct (m s) as [[a | e] s1]; cbn [snd] in *; [| exact Hm].
  apply Hk, Hm.
Qed.

Lemma preserves_try_except {A : Type} (m : M A) (h : exn -> M A) :
  preserves P m -> (forall e, preserves P (h e)) -> preserves P (try_except m h).
Proof.
  intros Hm Hh s H. unfold try_except. specialize (Hm s H).
  destruct (m s) as [[a | e] s1]; cbn [snd] in *; [exact Hm |].
  apply Hh, Hm.
Qed.

(** Reading the collection, rewriting it with [g], and going on. *)
Lemma preserves_rewrite {A : Type}
      (g : list CanonicalVehicle.t -> list CanonicalVehicle.t) (k : M A) :
  (forall l, P l -> P (g l)) -> preserves P k ->
  preserves P (bind get_canonical_vehicles
                 (fun docs => bind (put_canonical_vehicles (g docs)) (fun _ => k))).
Proof.
  intros Hg Hk s H. unfold bind, get_canonical_vehicles, put_canonical_vehicles.
  apply Hk. cbn [canonical_vehicles]. apply Hg, H.
Qed.

Lemma preserves_rewrite_last
      (g : list CanonicalVehicle.t -> list CanonicalVehicle.t) :
  (forall l, P l -> P (g l)) ->
  preserves P (bind get_canonical_vehicles
                 (fun docs => put_canonical_vehicles (g docs))).
Proof.
  intros Hg s H. unfold bind, get_canonical_vehicles, put_canonical_vehicles.
  cbn [snd canonical_vehicles]. apply Hg, H.
Qed.

(** [P] survives every [$set] the service makes. *)
Hypothesis P_set_stats :
  forall oid listings u1 u2 l,
    P l -> P (update_first oid (set_stats listings u1 u2) l).
Hypothesis P_set_merged :
  forall oid u l, P l -> P (update_first oid (set_merged u) l).

Lemma preserves_update_stats (canonical_id : str) :
  preserves P (update_canonical_vehicle_stats canonical_id).
Proof.
  unfold update_canonical_vehicle_stats.
  apply preserves_try_except; [| apply preserves_logger_error].
  apply preserves_bind; [apply preserves_storage_op | intros _].
  apply preserves_bind; [apply preserves_get_vehicles | intros all].
  destruct (active_listings_of canonical_id all) as [| x l];
    [apply preserves_ret |].
  apply preserves_bind; [apply preserves_utcnow | intros u1].
  apply preserves_bind; [apply preserves_utcnow | intros u2].
  apply preserves_bind; [apply preserves_lift | intros oid].
  apply preserves_bind; [apply preserves_storage_op | intros _].
  apply preserves_rewrite_last. intros docs. apply P_set_stats.
Qed.

Lemma preserves_merge (source_id target_id : str) :
  preserves P (merge_canonical_vehicles source_id target_id).
Proof.
  unfold merge_canonical_vehicles.
  apply preserves_try_except.
  2:{ intros e. apply preserves_bind; [apply preserves_logger_error | intros _].
      apply preserves_ret. }
  apply preserves_bind; [apply preserves_storage_op | intros _].
  apply preserves_bind; [apply preserves_get_vehicles | intros all].
  apply preserves_bind; [apply preserves_put_vehicles | intros _].
  apply preserves_bind; [apply preserves_lift | intros oid].
  apply preserves_bind; [apply preserves_utcnow | intros u].
  apply preserves_bind; [apply preserves_storage_op | intros _].
  apply preserves_rewrite.
  - intros docs. apply P_set_merged.
  - apply preserves_bind; [apply preserves_update_stats | intros _].
    apply preserves_ret.
Qed.

End Preserves.

Lemma update_first_view (oid : str)
      (f : CanonicalVehicle.t -> CanonicalVehicle.t) (l : list CanonicalVehicle.t) :
  (forall c, match_view (f c) = match_view c) ->
  map match_view (update_first oid f l) = map match_view l.
Proof.
  intros Hf. induction l as [| c t IH]; cbn [update_first map]; [reflexivity |].
  destruct (str_eqb (CanonicalVehicle._id c) oid); cbn [map].
  - rewrite Hf. reflexivity.
  - rewrite IH. reflexivity.
Qed.

(** [merge] leaves the matcher's view of the groups as it was. *)
Lemma keeps_merge (source_id target_id : str) (s : db) :
  map match_view
      (canonical_vehicles (snd (merge_canonical_vehicles source_id target_id s)))
  = map match_view (canonical_vehicles s).
Proof.
  apply (preserves_merge
           (fun l => map match_view l = map match_view (canonical_vehicles s))).
  - intros oid listings u1 u2 l H. rewrite update_first_view; [exact H |].
    intros c. reflexivity.
  - intros oid u l H. rewrite update_first_view; [exact H |].
    intros c. reflexivity.
  - reflexivity.
Qed.

Definition honda_listing (cid : str) (price : Q) : Vehicle.t :=
  Vehicle.mk (Some cid) VehicleStatus.ACTIVE (Some price) (Some 10%Z)
             (text "50,000 km").

(** C4, as stated, fails: the candidate queries do not look at the status.
    After [merge] has moved the listing of the first group to the second
    and marked the first [merged], the matcher still returns the first. *)
Lemma merged_group_is_still_a_match_target :
  let source := honda_civic_group 0 (text "2020") (text "LX") None in
  let target := honda_civic_group 1 (text "2021") (text "LX") None in
  let s := mkdb [source; target] [honda_listing (fresh_id 0) 85000000] [] 0 2 [] in
  let s' := snd (merge_canonical_vehicles (fresh_id 0) (fresh_id 1) s) in
  fst (merge_canonical_vehicles (fresh_id 0) (fresh_id 1) s) = Ok true
  /\ map Vehicle.canonical_vehicle_id (vehicles s') = [Some (fresh_id 1)]
  /\ option_map CanonicalVehicle.status (lookup_by_id (fresh_id 0) (canonical_vehicles s'))
     = Some CanonicalVehicleStatus.MERGED
  /\ fst (_find_matching_canonical literal_regex (honda_civic (text "LX") None) s')
     = Ok (Some (fresh_id 0)).
Proof.
  vm_compute. repeat split; reflexivity.
Qed.

(** C4, amended.  [merge] changes nothing of what the matcher reads (the
    identifier, brand, model, year, edition and engine of every group, in
    collection order): the matcher does not read the status, neither search
    excludes a merged group, and after a merge [find_match] returns, for
    every listing, what it returned before. *)
Theorem merge_does_not_change_matching
        (re_compile : str -> option (str -> bool))
        (source_id target_id : str) (s : db) (v : VehicleCreate.t)
        (pending : list bool) :
  let s' := snd (merge_canonical_vehicles source_id target_id s) in
  map match_view (canonical_vehicles s') = map match_view (canonical_vehicles s)
  /\ fst (_find_matching_canonical re_compile v (with_faults pending s'))
     = fst (_find_matching_canonical re_compile v (with_faults pending s)).
Proof.
  cbv zeta. pose proof (keeps_merge source_id target_id s) as K.
  split; [exact K |].
  apply find_matching_alike. split; [exact K | reflexivity].
Qed.

(** ** Statistics refresh *)

Lemma lookup_update_first (oid oid' : str)
      (f : CanonicalVehicle.t -> CanonicalVehicle.t) (l : list CanonicalVehicle.t) :
  (forall c, CanonicalVehicle._id (f c) = CanonicalVehicle._id c) ->
  lookup_by_id oid (update_first oid' f l)
  = option_map (fun c => if str_eqb oid oid' then f c else c) (lookup_by_id oid l).
Proof.
  intros Hf. unfold lookup_by_id.
  induction l as [| c t IH]; cbn [update_first find option_map]; [reflexivity |].
  destruct (str_eqb (CanonicalVehicle._id c) oid') eqn:E1.
  - apply str_eqb_eq in E1. cbn [find]. rewrite Hf, E1, (str_eqb_sym oid' oid).
    destruct (str_eqb oid oid') eqn:E2; cbn [option_map].
    + reflexivity.
    + destruct (find _ t); reflexivity.
  - cbn [find]. destruct (str_eqb (CanonicalVehicle._id c) oid) eqn:E2.
    + cbn [option_map]. apply str_eqb_eq in E2. rewrite <- E2, E1. reflexivity.
    + exact IH.
Qed.

(** With no fault pending and at least one active listing,
    [update_canonical_vehicle_stats] is one [$set] on the group. *)
Lemma update_stats_run (canonical_id oid : str) (s : db)
      (x : Vehicle.t) (l : list Vehicle.t) :
  faults s = [] ->
  ObjectId canonical_id = Ok oid ->
  active_listings_of canonical_id (vehicles s) = x :: l ->
  update_canonical_vehicle_stats canonical_id s
  = (Ok tt,
     mkdb (update_first oid (set_stats (x :: l) (clock s) (clock s + 1))
                        (canonical_vehicles s))
          (vehicles s) [] (clock s + 1 + 1) (next_id s) (log s)).
Proof.
  intros Hf Ho Ha. destruct s as [cv vs fl ck nid lg].
  cbn [faults vehicles] in Hf, Ha. subst fl.
  unfold update_canonical_vehicle_stats, try_except, bind, storage_op,
    get_vehicles, utcnow, lift, get_canonical_vehicles, put_canonical_vehicles.
  cbn [faults vehicles canonical_vehicles clock next_id log].
  rewrite Ha, Ho. reflexivity.
Qed.

(** [update_canonical_vehicle_stats] never raises. *)
Lemma update_stats_total (canonical_id : str) (s : db) :
  fst (update_canonical_vehicle_stats canonical_id s) = Ok tt.
Proof.
  unfold update_canonical_vehicle_stats, try_except.
  match goal with
  | |- context [match ?m s with _ => _ end] => destruct (m s) as [[[] | e] s1]
  end; reflexivity.
Qed.










(** ** Merge *)

Definition references (source_id : str) (v : Vehicle.t) : bool :=
  opt_str_eqb (Vehicle.canonical_vehicle_id v) source_id.

Lemma repoint_nothing (source_id target_id : str) (l : list Vehicle.t) :
  filter (references source_id) l = [] ->
  map (repoint source_id target_id) l = l.
Proof.
  induction l as [| v t IH]; cbn [filter map]; [reflexivity |].
  unfold references at 1, repoint at 1.
  destruct (opt_str_eqb (Vehicle.canonical_vehicle_id v) source_id);
    [discriminate |].
  intros H. rewrite (IH H). reflexivity.
Qed.

(** The store after the [update_one] of [merge]: the source group marked,
    the clock one tick later. *)
Definition marked (oid : str) (s : db) : db :=
  mkdb (update_first oid (set_merged (clock s)) (canonical_vehicles s))
       (vehicles s) (faults s) (clock s + 1) (next_id s) (log s).

Lemma update_stats_keeps_status (canonical_id oid : str) (s : db)
      (g : CanonicalVehicle.t) :
  lookup_by_id oid (canonical_vehicles s) = Some g ->
  exists g',
    lookup_by_id oid
      (canonical_vehicles (snd (update_canonical_vehicle_stats canonical_id s)))
    = Some g'
    /\ CanonicalVehicle.status g' = CanonicalVehicle.status g.
Proof.
  intros Hg.
  apply (preserves_update_stats
           (fun l => exists g', lookup_by_id oid l = Some g'
                                /\ CanonicalVehicle.status g'
                                   = CanonicalVehicle.status g)).
  - intros oid' listings u1 u2 l (g' & Hl & Hs).
    rewrite lookup_update_first by reflexivity. rewrite Hl. cbn [option_map].
    eexists. split; [reflexivity |].
    destruct (str_eqb oid oid'); exact Hs.
  - exists g. split; [exact Hg | reflexivity].
Qed.

(** C10.  When no listing references the source group, [merge] returns
    [False] and yet changes the store: the source group is marked [merged]
    with a new [updated_at], and the statistics refresh of the target runs
    on the store so changed. *)
Theorem merge_without_listings_still_marks_source
        (source_id target_id oid : str) (s : db) (g : CanonicalVehicle.t) :
  faults s = [] ->
  ObjectId source_id = Ok oid ->
  lookup_by_id oid (canonical_vehicles s) = Some g ->
  filter (references source_id) (vehicles s) = [] ->
  merge_canonical_vehicles source_id target_id s
  = (Ok false, snd (update_canonical_vehicle_stats target_id (marked oid s)))
  /\ lookup_by_id oid (canonical_vehicles (marked oid s))
     = Some (set_merged (clock s) g)
  /\ CanonicalVehicle.status (set_merged (clock s) g) = CanonicalVehicleStatus.MERGED
  /\ CanonicalVehicle.updated_at (set_merged (clock s) g) = clock s
  /\ exists g',
       lookup_by_id oid
         (canonical_vehicles
            (snd (merge_canonical_vehicles source_id target_id s))) = Some g'
       /\ CanonicalVehicle.status g' = CanonicalVehicleStatus.MERGED.
Proof.
  intros Hf Ho Hg Hn.
  assert (Hm : lookup_by_id oid (canonical_vehicles (marked oid s))
               = Some (set_merged (clock s) g)).
  { unfold marked. cbn [canonical_vehicles].
    rewrite lookup_update_first by reflexivity.
    rewrite Hg, str_eqb_refl. reflexivity. }
  assert (Hrun : merge_canonical_vehicles source_id target_id s
                 = (Ok false,
                    snd (update_canonical_vehicle_stats target_id (marked oid s)))).
  { pose proof (update_stats_total target_id (marked oid s)) as Ht.
    unfold marked in *. destruct s as [cv vs fl ck nid lg].
    cbn [faults vehicles canonical_vehicles clock next_id log] in *. subst fl.
    unfold merge_canonical_vehicles, try_except, bind, storage_op, get_vehicles,
      put_vehicles, lift, utcnow, get_canonical_vehicles, put_canonical_vehicles,
      ret.
    cbn [faults vehicles canonical_vehicles clock next_id log].
    rewrite Ho, (repoint_nothing source_id target_id vs Hn).
    destruct (update_canonical_vehicle_stats target_id _) as [[[] | e] s2];
      cbn [fst] in Ht; [| discriminate].
    cbn [snd]. unfold modified_count. fold (references source_id). rewrite Hn.
    destruct (str_eqb source_id target_id); reflexivity. }
  split; [exact Hrun |]. split; [exact Hm |].
  split; [reflexivity |]. split; [reflexivity |].
  rewrite Hrun. cbn [snd].
  destruct (update_stats_keeps_status target_id oid (marked oid s) _ Hm)
    as (g' & Hg' & Hs).
  exists g'. split; [exact Hg' | exact Hs].
Qed.

Lemma merge_without_listings_still_marks_source_witness :
  let source := honda_civic_group 0 (text "2020") (text "LX") None in
  let target := honda_civic_group 1 (text "2021") (text "LX") None in
  let s := mkdb [source; target] [honda_listing (fresh_id 1) 85000000] [] 7 2 [] in
  fst (merge_canonical_vehicles (fresh_id 0) (fresh_id 1) s) = Ok false
  /\ exists g',
       lookup_by_id (fresh_id 0)
         (canonical_vehicles
            (snd (merge_canonical_vehicles (fresh_id 0) (fresh_id 1) s))) = Some g'
       /\ CanonicalVehicle.status g' = CanonicalVehicleStatus.MERGED.
Proof.
  cbv zeta.
  pose proof (merge_without_listings_still_marks_source
                (fresh_id 0) (fresh_id 1) (fresh_id 0)
                (mkdb [honda_civic_group 0 (text "2020") (text "LX") None;
                       honda_civic_group 1 (text "2021") (text "LX") None]
                      [honda_listing (fresh_id 1) 85000000] [] 7 2 [])
                (honda_civic_group 0 (text "2020") (text "LX") None)
                eq_refl eq_refl eq_refl eq_refl) as (H1 & _ & _ & _ & H2).
  split; [rewrite H1; reflexivity | exact H2].
Defined.

(* ===================================================================== *)
(** * Further properties of the normalizer                                *)
(* ===================================================================== *)

(** The strings the Unicode tables cover, U+0130 left out. *)
Definition tabulated (s : str) : bool :=
  forallb (fun c => Unicode.in_table c && negb (c =? 304)%N) s.

(** What lower-casing preserves of a character of the table: the classes
    the normalizer tests, and being in lower case already. *)
Definition case_blind (c : char) : bool :=
  (c =? 304)%N
  || match Unicode.lower1 c with
     | [c'] =>
         Bool.eqb (is_hyphen c') (is_hyphen c)
         && Bool.eqb (Unicode.isword c') (Unicode.isword c)
         && Bool.eqb (Unicode.isspace c') (Unicode.isspace c)
         && Unicode.in_table c' && negb (c' =? 304)%N
         && match Unicode.lower1 c' with [c''] => (c'' =? c')%N | _ => false end
     | _ => false
     end.

Lemma lower1_case_blind (c : char) :
  Unicode.in_table c && negb (c =? 304)%N = true ->
  exists c', Unicode.lower1 c = [c']
             /\ is_hyphen c' = is_hyphen c
             /\ Unicode.isword c' = Unicode.isword c
             /\ Unicode.isspace c' = Unicode.isspace c
             /\ Unicode.in_table c' && negb (c' =? 304)%N = true
             /\ Unicode.lower1 c' = [c'].
Proof.
  intros H. apply andb_true_iff in H as [Ht Hn].
  assert (K : case_blind c = true).
  { apply (table_forall case_blind); [vm_compute; reflexivity | exact Ht]. }
  unfold case_blind in K. apply negb_true_iff in Hn. rewrite Hn in K.
  cbn [orb] in K.
  destruct (Unicode.lower1 c) as [| c' [| ? ?]]; try discriminate.
  exists c'. repeat rewrite andb_true_iff in K.
  destruct K as (((((K1 & K2) & K3) & K4) & K5) & K6).
  apply eqb_prop in K1, K2, K3.
  destruct (Unicode.lower1 c') as [| c'' [| ? ?]]; try discriminate.
  apply N.eqb_eq in K6. subst c''.
  repeat split; try assumption. rewrite K4, K5. reflexivity.
Qed.

Lemma tabulated_Forall (s : str) :
  tabulated s = true <->
  Forall (fun c => Unicode.in_table c && negb (c =? 304)%N = true) s.
Proof. unfold tabulated. rewrite forallb_forall, Forall_forall. reflexivity. Qed.

Lemma lower_cons (c : char) (t : str) : lower (c :: t) = Unicode.lower1 c ++ lower t.
Proof. reflexivity. Qed.

Section CaseBlind.
Variable p : char -> bool.
Hypothesis p_lower :
  forall c c', Unicode.in_table c && negb (c =? 304)%N = true ->
               Unicode.lower1 c = [c'] -> p c' = p c.

Lemma sub_runs_lower (s : str) :
  tabulated s = true ->
  forall b, sub_runs p b (lower s) = lower (sub_runs p b s).
Proof.
  rewrite tabulated_Forall. induction 1 as [| c t Hc _ IH]; intros b; [reflexivity |].
  destruct (lower1_case_blind c Hc) as (c' & L & _).
  rewrite lower_cons, L. cbn [app sub_runs].
  rewrite (p_lower c c' Hc L).
  destruct (p c).
  - destruct b; rewrite IH; reflexivity.
  - rewrite IH, lower_cons, L. reflexivity.
Qed.

Lemma filter_lower (s : str) :
  tabulated s = true -> filter p (lower s) = lower (filter p s).
Proof.
  rewrite tabulated_Forall. induction 1 as [| c t Hc _ IH]; [reflexivity |].
  destruct (lower1_case_blind c Hc) as (c' & L & _).
  rewrite lower_cons, L. cbn [app filter].
  rewrite (p_lower c c' Hc L).
  destruct (p c).
  - rewrite IH, lower_cons, L. reflexivity.
  - exact IH.
Qed.

End CaseBlind.

Lemma lower_lower (s : str) : tabulated s = true -> lower (lower s) = lower s.
Proof.
  rewrite tabulated_Forall. induction 1 as [| c t Hc _ IH]; [reflexivity |].
  destruct (lower1_case_blind c Hc) as (c' & L & _ & _ & _ & _ & L').
  rewrite lower_cons, L. cbn [app]. rewrite lower_cons, L', IH. reflexivity.
Qed.

Lemma tabulated_sub_runs (p : char -> bool) (b : bool) (s : str) :
  tabulated s = true -> tabulated (sub_runs p b s) = true.
Proof.
  rewrite !tabulated_Forall. intros H.
  apply sub_runs_Forall; [reflexivity | exact H].
Qed.

Lemma tabulated_filter (p : char -> bool) (s : str) :
  tabulated s = true -> tabulated (filter p s) = true.
Proof.
  rewrite !tabulated_Forall, !Forall_forall. intros H c Hc.
  apply filter_In in Hc. apply H, Hc.
Qed.

Lemma lower_nil (s : str) : tabulated s = true -> lower s = [] -> s = [].
Proof.
  rewrite tabulated_Forall. intros H E. destruct H as [| c t Hc _]; [reflexivity |].
  destruct (lower1_case_blind c Hc) as (c' & L & _).
  rewrite lower_cons, L in E. discriminate.
Qed.

(** The normal form of a string is the normal form of its lower case. *)
Lemma normalize_lower (s : str) :
  tabulated s = true ->
  _normalize_string (Some (lower s)) = _normalize_string (Some s).
Proof.
  intros H. unfold _normalize_string.
  assert (T : truthy (Some (lower s)) = truthy (Some s)).
  { destruct s as [| c t]; [reflexivity |]. cbn [truthy].
    destruct (lower (c :: t)) eqn:E; [| reflexivity].
    apply lower_nil in E; [discriminate | exact H]. }
  rewrite T. destruct (truthy (Some s)); cbn [negb]; [| reflexivity].
  cbn [val].
  rewrite (sub_runs_lower is_hyphen) by
    (try exact H; intros c c' Hc L;
     destruct (lower1_case_blind c Hc) as (d & L' & K & _); congruence).
  rewrite (filter_lower (fun c => Unicode.isword c || Unicode.isspace c)).
  - rewrite (sub_runs_lower Unicode.isspace).
    + rewrite lower_lower; [reflexivity |].
      apply tabulated_sub_runs, tabulated_filter, tabulated_sub_runs, H.
    + intros c c' Hc L.
      destruct (lower1_case_blind c Hc) as (d & L' & _ & _ & K & _); congruence.
    + apply tabulated_filter, tabulated_sub_runs, H.
  - intros c c' Hc L.
    destruct (lower1_case_blind c Hc) as (d & L' & _ & K1 & K2 & _).
    assert (d = c') by congruence. subst d. rewrite K1, K2. reflexivity.
  - apply tabulated_sub_runs, H.
Qed.

(** X1.  Two strings of the tabulated code points that have the same lower
    case, and differ only in case therefore, have the same normal form. *)
Theorem normalize_ignores_case (s t : str) :
  tabulated s = true -> tabulated t = true ->
  lower s = lower t ->
  _normalize_string (Some s) = _normalize_string (Some t).
Proof.
  intros Hs Ht E.
  rewrite <- (normalize_lower s Hs), <- (normalize_lower t Ht), E. reflexivity.
Qed.

Lemma normalize_ignores_case_witness :
  _normalize_string (Some (py "HONDA Civic-LX")) = _normalize_string (Some (py "honda CIVIC-lx")).
Proof.
  apply (normalize_ignores_case (py "HONDA Civic-LX") (py "honda CIVIC-lx"));
    reflexivity.
Defined.

(** ** The shape of a normal form *)

Lemma isolated_no_double_space (pre post : str) :
  forall prev, isolated prev (pre ++ 32%N :: 32%N :: post) = false.
Proof.
  induction pre as [| c t IH]; intros prev.
  - cbn [app]. rewrite !isolated_cons.
    change (Unicode.isspace 32%N) with true. cbn [negb andb].
    rewrite andb_false_r. reflexivity.
  - cbn [app]. rewrite isolated_cons.
    destruct (Unicode.isspace c); rewrite IH; [apply andb_false_r | reflexivity].
Qed.

Lemma rstrip_fixed_last (s : str) :
  rstrip s = s -> s <> [] -> Unicode.isspace (last s 0%N) = false.
Proof.
  induction s as [| c t IH]; intros E Hn; [congruence |].
  cbn [rstrip] in E.
  destruct t as [| d u].
  - cbn [rstrip] in E. cbn [last]. destruct (Unicode.isspace c); [discriminate | reflexivity].
  - change (last (c :: d :: u) 0%N) with (last (d :: u) 0%N).
    destruct (rstrip (d :: u)) as [| x y] eqn:R.
    + destruct (Unicode.isspace c); discriminate.
    + apply IH; [congruence | discriminate].
Qed.

(** X2.  The normal form of a string of the tabulated code points holds
    only spaces and alphanumeric characters in lower case, neither begins
    nor ends with white space, has no two spaces in a row and is its own
    lower case. *)
Theorem normalize_output_shape (x : option str) :
  tabulated (val x) = true ->
  let r := _normalize_string x in
  Forall (fun c => c = 32%N
                   \/ (Unicode.isalnum c = true /\ Unicode.lower1 c = [c])) r
  /\ (forall c t, r = c :: t -> Unicode.isspace c = false)
  /\ (r <> [] -> Unicode.isspace (last r 0%N) = false)
  /\ (forall pre post, r <> pre ++ 32%N :: 32%N :: post)
  /\ lower r = r.
Proof.
  intros H r. destruct (normalize_normal x H) as (Hok & Hiso & Hhead & Hstrip).
  fold r in Hok, Hiso, Hhead, Hstrip.
  split; [| split; [| split; [| split]]].
  - eapply Forall_impl; [| exact Hok]. intros c Hc. cbn beta in Hc.
    unfold okc in Hc. apply orb_true_iff in Hc as [Hc | Hc].
    + left. apply N.eqb_eq, Hc.
    + right. unfold stable in Hc. repeat rewrite andb_true_iff in Hc.
      destruct Hc as (((Hw & Hh) & _) & Hl).
      split.
      * unfold Unicode.isword in Hw. unfold is_hyphen in Hh.
        apply negb_true_iff, orb_false_iff in Hh as [_ Hh].
        rewrite Hh, orb_false_r in Hw. exact Hw.
      * destruct (Unicode.lower1 c) as [| c' [| ? ?]]; try discriminate.
        apply N.eqb_eq in Hl. subst c'. reflexivity.
  - intros c t E. rewrite E in Hhead. exact Hhead.
  - intros Hn. apply rstrip_fixed_last; assumption.
  - intros pre post E. rewrite E, isolated_no_double_space in Hiso. discriminate.
  - apply lower_fixed, Hok.
Qed.

Lemma normalize_output_shape_witness :
  let r := _normalize_string (Some (py "  Honda--Civic_LX  (1.5L) ")) in
  r = py "honda civic lx 15l"
  /\ Forall (fun c => c = 32%N
                      \/ (Unicode.isalnum c = true /\ Unicode.lower1 c = [c])) r
  /\ (forall pre post, r <> pre ++ 32%N :: 32%N :: post).
Proof.
  pose proof (normalize_output_shape (Some (py "  Honda--Civic_LX  (1.5L) "))
                eq_refl) as (H1 & _ & _ & H4 & _).
  split; [reflexivity |]. split; [exact H1 | exact H4].
Defined.

(* ===================================================================== *)
(** * Further properties of the engine comparison                         *)
(* ===================================================================== *)

(** A decimal digit in a lower-cased string was there before. *)
Lemma lower1_digit_source (c d : char) :
  In d (Unicode.lower1 c) -> Unicode.isdecimal d = true -> d = c.
Proof.
  unfold Unicode.lower1, Unicode.isdecimal, Unicode.between.
  intros Hin Hd. apply andb_true_iff in Hd as [H1 H2]. apply N.leb_le in H1, H2.
  repeat match type of Hin with
         | In _ (if ?b then _ else _) =>
             let E := fresh "E" in
             destruct b eqn:E;
             [ repeat (rewrite andb_true_iff in E || rewrite orb_true_iff in E
                       || rewrite N.leb_le in E || rewrite N.eqb_eq in E);
               cbn [In] in Hin; lia |]
         end.
  cbn [In] in Hin. destruct Hin as [<- | []]. reflexivity.
Qed.

Lemma lower_digit_source (s : str) (d : char) :
  In d (lower s) -> Unicode.isdecimal d = true -> In d s.
Proof.
  unfold lower. intros Hin Hd. apply in_flat_map in Hin as (c & Hc & Hin).
  rewrite (lower1_digit_source c d Hin Hd). exact Hc.
Qed.

Definition digit_facts (d : char) : bool :=
  negb (Unicode.isdecimal d)
  || (negb (is_hyphen d) && Unicode.isword d && negb (Unicode.isspace d)
      && match Unicode.lower1 d with [d'] => (d' =? d)%N | _ => false end).

Lemma digit_survives (d : char) :
  Unicode.isdecimal d = true ->
  is_hyphen d = false /\ Unicode.isword d = true /\ Unicode.isspace d = false
  /\ Unicode.lower1 d = [d].
Proof.
  intros Hd.
  assert (Ht : Unicode.in_table d = true).
  { unfold Unicode.isdecimal, Unicode.between in Hd.
    apply andb_true_iff in Hd as [_ Hd]. apply N.leb_le in Hd.
    unfold Unicode.in_table. apply orb_true_iff. left. apply N.ltb_lt. lia. }
  assert (K : digit_facts d = true).
  { apply (table_forall digit_facts); [vm_compute; reflexivity | exact Ht]. }
  unfold digit_facts in K. rewrite Hd in K. cbn [negb orb] in K.
  repeat rewrite andb_true_iff in K. destruct K as (((K1 & K2) & K3) & K4).
  apply negb_true_iff in K1, K3.
  destruct (Unicode.lower1 d) as [| d' [| ? ?]]; try discriminate.
  apply N.eqb_eq in K4. subst d'. repeat split; assumption.
Qed.

Lemma sub_runs_In (p : char -> bool) (d : char) (s : str) :
  In d s -> p d = false -> forall b, In d (sub_runs p b s).
Proof.
  intros Hin Hp. induction s as [| c t IH]; intros b; [destruct Hin |].
  cbn [sub_runs]. destruct Hin as [-> | Hin].
  - rewrite Hp. left. reflexivity.
  - destruct (p c); [destruct b |]; try right; apply IH, Hin.
Qed.

Lemma dropwhile_In (p : char -> bool) (d : char) (s : str) :
  In d s -> p d = false -> In d (dropwhile p s).
Proof.
  intros Hin Hp. induction s as [| c t IH]; [destruct Hin |].
  cbn [dropwhile]. destruct (p c) eqn:E.
  - destruct Hin as [-> | Hin]; [congruence | apply IH, Hin].
  - exact Hin.
Qed.

Lemma rstrip_In (d : char) (s : str) :
  In d s -> Unicode.isspace d = false -> In d (rstrip s).
Proof.
  intros Hin Hp. induction s as [| c t IH]; [destruct Hin |].
  cbn [rstrip]. destruct Hin as [-> | Hin].
  - destruct (rstrip t); [rewrite Hp |]; left; reflexivity.
  - specialize (IH Hin). destruct (rstrip t); [destruct IH | right; exact IH].
Qed.

(** A digit of the text is still there in its normal form. *)
Lemma normalize_keeps_digit (s : str) (d : char) :
  In d s -> Unicode.isdecimal d = true -> In d (_normalize_string (Some s)).
Proof.
  intros Hin Hd. destruct (digit_survives d Hd) as (K1 & K2 & K3 & K4).
  unfold _normalize_string.
  destruct s as [| c t]; [destruct Hin |]. cbn [truthy negb val].
  unfold strip. apply rstrip_In; [| exact K3]. apply dropwhile_In; [| exact K3].
  unfold lower. apply in_flat_map. exists d. split; [| rewrite K4; left; reflexivity].
  apply sub_runs_In; [| exact K3]. apply filter_In. split.
  - apply sub_runs_In; assumption.
  - rewrite K2. reflexivity.
Qed.

Lemma findall_numbers_none (s : str) :
  (forall c, In c s -> Unicode.isdecimal c = false) ->
  findall_numbers Outside s = [].
Proof.
  induction s as [| c t IH]; intros H; [reflexivity |].
  cbn [findall_numbers]. rewrite (H c) by (left; reflexivity).
  apply IH. intros d Hd. apply H. right. exact Hd.
Qed.

Lemma engine_numbers_none (e : option str) :
  _normalize_string e = [] -> findall_numbers Outside (lower (val e)) = [].
Proof.
  intros E. apply findall_numbers_none. intros d Hd.
  destruct (Unicode.isdecimal d) eqn:D; [exfalso | reflexivity].
  destruct e as [s |]; [| destruct Hd]. cbn [val] in Hd.
  pose proof (normalize_keeps_digit s d (lower_digit_source s d Hd D) D) as K.
  rewrite E in K. destruct K.
Qed.

Lemma nodup_nil {A : Type} (dec : forall x y : A, {x = y} + {x <> y}) (l : list A) :
  nodup dec l = [] -> l = [].
Proof.
  destruct l as [| a t]; [reflexivity |]. intros E.
  assert (K : In a (nodup dec (a :: t))) by (apply nodup_In; left; reflexivity).
  rewrite E in K. destruct K.
Qed.

(** Two engine strings made of punctuation only: the division by the size
    of the union of the two empty word sets fails. *)
Lemma similar_engines_empty (e1 e2 : option str) :
  truthy e1 = true -> truthy e2 = true ->
  _normalize_string e1 = [] -> _normalize_string e2 = [] ->
  _similar_engines e1 e2 = Raise ZeroDivisionError.
Proof.
  intros T1 T2 N1 N2. unfold _similar_engines.
  rewrite T1, T2, (engine_numbers_none e1 N1), N1, N2. reflexivity.
Qed.

Lemma similar_engines_raise (e1 e2 : option str) (x : exn) :
  _similar_engines e1 e2 = Raise x ->
  x = ZeroDivisionError /\ truthy e1 = true /\ truthy e2 = true
  /\ _normalize_string e1 = [] /\ _normalize_string e2 = [].
Proof.
  unfold _similar_engines.
  destruct (truthy e1), (truthy e2); cbn [negb orb]; try discriminate.
  destruct (existsb _ _); [discriminate |].
  destruct (2 <=? _); [discriminate |].
  destruct (_ =? 0) eqn:U; [| discriminate].
  intros [= <-]. apply Nat.eqb_eq, length_zero_iff_nil in U.
  unfold set_union, set_of in U.
  apply nodup_nil, app_eq_nil in U as [U1 U2]. apply nodup_nil in U1, U2.
  repeat split.
  - destruct (_normalize_string e1) eqn:E; [reflexivity |].
    exfalso. apply (split_normalize_nonempty e1); rewrite E; [discriminate | exact U1].
  - destruct (_normalize_string e2) eqn:E; [reflexivity |].
    exfalso. apply (split_normalize_nonempty e2); rewrite E; [discriminate | exact U2].
Qed.

(** X3.  On engines written with the code points of the tables, the
    engine comparison raises [ZeroDivisionError] and nothing else, and
    exactly when both engines are given and both normalize to the empty
    string. *)
Theorem similar_engines_raises_iff (e1 e2 : option str) (x : exn) :
  tabular e1 = true -> tabular e2 = true ->
  _similar_engines e1 e2 = Raise x
  <-> x = ZeroDivisionError /\ truthy e1 = true /\ truthy e2 = true
      /\ _normalize_string e1 = [] /\ _normalize_string e2 = [].
Proof.
  intros _ _. split.
  - apply similar_engines_raise.
  - intros (-> & T1 & T2 & N1 & N2). apply similar_engines_empty; assumption.
Qed.

Lemma similar_engines_raises_iff_witness :
  _similar_engines (text "-") (text "(...)") = Raise ZeroDivisionError
  /\ _similar_engines (text "n/a") (text "-") <> Raise ZeroDivisionError.
Proof.
  split.
  - apply (similar_engines_raises_iff (text "-") (text "(...)")
             ZeroDivisionError eq_refl eq_refl).
    repeat split; reflexivity.
  - intros H.
    apply (similar_engines_raises_iff (text "n/a") (text "-")
             ZeroDivisionError eq_refl eq_refl) in H.
    destruct H as (_ & _ & _ & N & _). discriminate N.
Defined.

(** X4.  An engine written with the code points of the tables, compared
    with itself: [False] when it is missing or empty, [ZeroDivisionError]
    when it normalizes to the empty string, [True] otherwise. *)
Theorem similar_engines_self (e : option str) :
  tabular e = true ->
  _similar_engines e e
  = if negb (truthy e) then Ok false
    else if str_eqb (_normalize_string e) [] then Raise ZeroDivisionError
         else Ok true.
Proof.
  intros _.
  destruct (truthy e) eqn:T; cbn [negb].
  - destruct (str_eqb (_normalize_string e) []) eqn:E.
    + apply str_eqb_eq in E. apply similar_engines_empty; assumption.
    + apply similar_engines_same; try assumption; try reflexivity.
      intros K. rewrite K, str_eqb_refl in E. discriminate.
  - unfold _similar_engines. rewrite T. reflexivity.
Qed.

Lemma similar_engines_self_witness :
  _similar_engines (text "1.5L Turbo") (text "1.5L Turbo") = Ok true
  /\ _similar_engines (text "--") (text "--") = Raise ZeroDivisionError
  /\ _similar_engines None None = Ok false.
Proof.
  split; [| split].
  - exact (similar_engines_self (text "1.5L Turbo") eq_refl).
  - exact (similar_engines_self (text "--") eq_refl).
  - exact (similar_engines_self None eq_refl).
Defined.

(* ===================================================================== *)
(** * The exact-match predicate against the scorer                        *)
(* ===================================================================== *)

Section ExactAndScore.
Variables (v : VehicleCreate.t) (c : CanonicalVehicle.t).

Lemma exact_match_true :
  _is_exact_match v c = Ok true ->
  _normalize_string (VehicleCreate.brand v)
  = _normalize_string (CanonicalVehicle.brand c)
  /\ _normalize_string (VehicleCreate.model v)
     = _normalize_string (CanonicalVehicle.model c)
  /\ (both (VehicleCreate.year v) (CanonicalVehicle.year c) = true ->
      val (VehicleCreate.year v) = val (CanonicalVehicle.year c))
  /\ (both (VehicleCreate.edition v) (CanonicalVehicle.edition c) = true ->
      _normalize_string (VehicleCreate.edition v)
      = _normalize_string (CanonicalVehicle.edition c))
  /\ (both (VehicleCreate.engine v) (CanonicalVehicle.engine c) = true ->
      _similar_engines (VehicleCreate.engine v) (CanonicalVehicle.engine c)
      = Ok true).
Proof.
  unfold _is_exact_match, both.
  destruct (str_eqb (_normalize_string (VehicleCreate.brand v)) _) eqn:Eb;
    cbn [negb]; [| discriminate].
  destruct (str_eqb (_normalize_string (VehicleCreate.model v)) _) eqn:Em;
    cbn [negb]; [| discriminate].
  destruct (truthy (VehicleCreate.year v) && truthy (CanonicalVehicle.year c)).
  - destruct (str_eqb (val (VehicleCreate.year v)) _) eqn:Ey;
      cbn [negb andb]; [| discriminate].
    destruct (truthy (VehicleCreate.edition v)
              && truthy (CanonicalVehicle.edition c)).
    + destruct (str_eqb (_normalize_string (VehicleCreate.edition v)) _) eqn:Ee;
        cbn [negb andb]; [| discriminate].
      apply str_eqb_eq in Eb, Em, Ey, Ee.
      destruct (truthy (VehicleCreate.engine v)
                && truthy (CanonicalVehicle.engine c)).
      * destruct (_similar_engines _ _) as [[|] | e]; cbn [rbind];
          try discriminate. intros _. repeat split; auto.
      * intros _. repeat split; auto; discriminate.
    + cbn [andb]. apply str_eqb_eq in Eb, Em, Ey.
      destruct (truthy (VehicleCreate.engine v)
                && truthy (CanonicalVehicle.engine c)).
      * destruct (_similar_engines _ _) as [[|] | e]; cbn [rbind];
          try discriminate. intros _. repeat split; auto; discriminate.
      * intros _. repeat split; auto; discriminate.
  - cbn [andb]. apply str_eqb_eq in Eb, Em.
    destruct (truthy (VehicleCreate.edition v)
              && truthy (CanonicalVehicle.edition c)).
    + destruct (str_eqb (_normalize_string (VehicleCreate.edition v)) _) eqn:Ee;
        cbn [negb andb]; [| discriminate].
      apply str_eqb_eq in Ee.
      destruct (truthy (VehicleCreate.engine v)
                && truthy (CanonicalVehicle.engine c)).
      * destruct (_similar_engines _ _) as [[|] | e]; cbn [rbind];
          try discriminate. intros _. repeat split; auto; discriminate.
      * intros _. repeat split; auto; discriminate.
    + cbn [andb].
      destruct (truthy (VehicleCreate.engine v)
                && truthy (CanonicalVehicle.engine c)).
      * destruct (_similar_engines _ _) as [[|] | e]; cbn [rbind];
          try discriminate. intros _. repeat split; auto; discriminate.
      * intros _. repeat split; auto; discriminate.
Qed.

(** Two different years settle the exact-match predicate. *)
Lemma exact_match_year :
  both (VehicleCreate.year v) (CanonicalVehicle.year c) = true ->
  str_eqb (val (VehicleCreate.year v)) (val (CanonicalVehicle.year c)) = false ->
  _is_exact_match v c = Ok false.
Proof.
  unfold _is_exact_match, both. intros -> ->.
  destruct (negb _); [reflexivity |]. destruct (negb _); reflexivity.
Qed.

Lemma score_year_mismatch (q : Q) :
  both (VehicleCreate.year v) (CanonicalVehicle.year c) = true ->
  str_eqb (val (VehicleCreate.year v)) (val (CanonicalVehicle.year c)) = false ->
  _calculate_similarity v c = Ok q -> (q <= 0.8)%Q.
Proof.
  unfold _calculate_similarity, both. intros -> ->.
  set (rb := field_ratio (VehicleCreate.brand v) (CanonicalVehicle.brand c)).
  set (rm := field_ratio (VehicleCreate.model v) (CanonicalVehicle.model c)).
  set (re := field_ratio (VehicleCreate.edition v) (CanonicalVehicle.edition c)).
  assert (Hb : (0 <= rb <= 1)%Q) by apply DifflibFacts.ratio_range.
  assert (Hm : (0 <= rm <= 1)%Q) by apply DifflibFacts.ratio_range.
  assert (He : (0 <= re <= 1)%Q) by apply DifflibFacts.ratio_range.
  clearbody rb rm re.
  destruct (_similar_engines (VehicleCreate.engine v) (CanonicalVehicle.engine c))
    as [[|] | e];
    score_cases; intros H; try discriminate; injection H as <-;
    try match goal with
        | |- context [Qlt_bool ?a ?b] => destruct (Qlt_bool a b)
        end;
    first [ apply Qle_shift_div_r; [reflexivity | lra] | lra ].
Qed.

Lemma score_of_exact :
  _is_exact_match v c = Ok true ->
  both (VehicleCreate.brand v) (CanonicalVehicle.brand c)
  || both (VehicleCreate.model v) (CanonicalVehicle.model c)
  || both (VehicleCreate.year v) (CanonicalVehicle.year c)
  || both (VehicleCreate.edition v) (CanonicalVehicle.edition c)
  || both (VehicleCreate.engine v) (CanonicalVehicle.engine c) = true ->
  returns (_calculate_similarity v c) 1.
Proof.
  intros Hx Hp. destruct (exact_match_true Hx) as (Nb & Nm & Hy & He & Hg).
  unfold both in *. unfold _calculate_similarity.
  set (rb := field_ratio (VehicleCreate.brand v) (CanonicalVehicle.brand c)).
  set (rm := field_ratio (VehicleCreate.model v) (CanonicalVehicle.model c)).
  set (re := field_ratio (VehicleCreate.edition v) (CanonicalVehicle.edition c)).
  assert (Hb : (rb == 1)%Q).
  { subst rb. unfold field_ratio. rewrite <- Nb. apply DifflibFacts.ratio_self. }
  assert (Hm : (rm == 1)%Q).
  { subst rm. unfold field_ratio. rewrite <- Nm. apply DifflibFacts.ratio_self. }
  assert (He' : truthy (VehicleCreate.edition v)
                && truthy (CanonicalVehicle.edition c) = true -> (re == 1)%Q).
  { intros T. subst re. unfold field_ratio. rewrite <- (He T).
    apply DifflibFacts.ratio_self. }
  assert (Hy' : truthy (VehicleCreate.year v)
                && truthy (CanonicalVehicle.year c) = true ->
                str_eqb (val (VehicleCreate.year v))
                        (val (CanonicalVehicle.year c)) = true).
  { intros T. apply str_eqb_eq, Hy, T. }
  clearbody rb rm re. clear Hx Nb Nm Hy He.
  destruct (truthy (VehicleCreate.brand v) && truthy (CanonicalVehicle.brand c));
    destruct (truthy (VehicleCreate.model v) && truthy (CanonicalVehicle.model c));
    destruct (truthy (VehicleCreate.year v) && truthy (CanonicalVehicle.year c));
    destruct (truthy (VehicleCreate.edition v)
              && truthy (CanonicalVehicle.edition c));
    destruct (truthy (VehicleCreate.engine v)
              && truthy (CanonicalVehicle.engine c));
    try discriminate;
    try rewrite (Hg eq_refl); try rewrite (Hy' eq_refl);
    try specialize (He' eq_refl); cbn [rbind returns];
    match goal with
    | |- context [Qlt_bool ?a ?b] =>
        let E := fresh "E" in
        destruct (Qlt_bool a b) eqn:E;
        [ rewrite ?Hb, ?Hm, ?He'; reflexivity | vm_compute in E; discriminate ]
    end.
Qed.

End ExactAndScore.

(** X5.  In the range of the tables and clear of a tie between engine
    numbers, a candidate the exact-match predicate accepts, with a field
    given on both sides, has the score 1; the fuzzy loop of the narrow phase
    takes it. *)
Theorem exact_match_scores_one (v : VehicleCreate.t) (c : CanonicalVehicle.t) :
  faithful v c = true ->
  _is_exact_match v c = Ok true ->
  both (VehicleCreate.brand v) (CanonicalVehicle.brand c)
  || both (VehicleCreate.model v) (CanonicalVehicle.model c)
  || both (VehicleCreate.year v) (CanonicalVehicle.year c)
  || both (VehicleCreate.edition v) (CanonicalVehicle.edition c)
  || both (VehicleCreate.engine v) (CanonicalVehicle.engine c) = true ->
  returns (_calculate_similarity v c) 1
  /\ fuzzy_loop 0.90 v [c] = Ok (Some (CanonicalVehicle._id c)).
Proof.
  intros _ Hx Hp. pose proof (score_of_exact v c Hx Hp) as H.
  split; [exact H |].
  cbn [fuzzy_loop]. destruct (_calculate_similarity v c) as [q | e];
    cbn [returns] in H; [| destruct H].
  cbn [rbind].
  assert (K : Qle_bool 0.90 q = true).
  { apply Qle_bool_iff. rewrite H. discriminate. }
  rewrite K. reflexivity.
Qed.

Lemma exact_match_scores_one_witness :
  returns (_calculate_similarity
             (listing (text "HONDA") (text "Civic") (text "2020") None
                      (text "1.5L Turbo"))
             (candidate [] (text "honda") (text " civic ") None (text "LX")
                        (text "1.5 turbo"))) 1.
Proof.
  apply (exact_match_scores_one
           (listing (text "HONDA") (text "Civic") (text "2020") None
                    (text "1.5L Turbo"))
           (candidate [] (text "honda") (text " civic ") None (text "LX")
                      (text "1.5 turbo"))); reflexivity.
Defined.

(** X6.  When both years are given and differ, the candidate is no exact
    match, its score is at most 0.8, and a fuzzy loop with a threshold above
    0.8 passes it by. *)
Theorem different_year_is_no_match (v : VehicleCreate.t) (c : CanonicalVehicle.t) :
  truthy (VehicleCreate.year v) = true ->
  truthy (CanonicalVehicle.year c) = true ->
  val (VehicleCreate.year v) <> val (CanonicalVehicle.year c) ->
  _is_exact_match v c = Ok false
  /\ (forall q, _calculate_similarity v c = Ok q -> (q <= 0.8)%Q)
  /\ (forall threshold, (0.8 < threshold)%Q -> forall rest,
        fuzzy_loop threshold v (c :: rest)
        = rbind (_calculate_similarity v c)
                (fun _ => fuzzy_loop threshold v rest)).
Proof.
  intros T1 T2 Hne.
  assert (B : both (VehicleCreate.year v) (CanonicalVehicle.year c) = true).
  { unfold both. rewrite T1, T2. reflexivity. }
  assert (E : str_eqb (val (VehicleCreate.year v)) (val (CanonicalVehicle.year c))
              = false).
  { destruct (str_eqb _ _) eqn:E; [| reflexivity].
    apply str_eqb_eq in E. contradiction. }
  split; [apply exact_match_year; assumption |].
  split; [intros q; apply score_year_mismatch; assumption |].
  intros threshold Ht rest. cbn [fuzzy_loop].
  destruct (_calculate_similarity v c) as [q | e] eqn:S; cbn [rbind];
    [| reflexivity].
  pose proof (score_year_mismatch v c q B E S) as Hq.
  assert (K : Qle_bool threshold q = false).
  { apply Qle_bool_false. lra. }
  rewrite K. reflexivity.
Qed.

Lemma different_year_is_no_match_witness :
  _is_exact_match
    (listing (text "Honda") (text "Civic") (text "2019") (text "LX") None)
    (candidate [] (text "Honda") (text "Civic") (text "2020") (text "LX") None)
  = Ok false.
Proof.
  apply (different_year_is_no_match
           (listing (text "Honda") (text "Civic") (text "2019") (text "LX") None)
           (candidate [] (text "Honda") (text "Civic") (text "2020") (text "LX")
                      None)); [reflexivity | reflexivity | discriminate].
Defined.

(* ===================================================================== *)
(** * Further properties of the matcher                                   *)
(* ===================================================================== *)

(** What a computation that only reads leaves as it was: the two
    collections, the clock and the identifier counter. *)
Definition frame (s s' : db) : Prop :=
  canonical_vehicles s' = canonical_vehicles s
  /\ vehicles s' = vehicles s
  /\ clock s' = clock s
  /\ next_id s' = next_id s.

Lemma frame_refl (s : db) : frame s s.
Proof. repeat split. Qed.

Lemma frame_trans (s1 s2 s3 : db) : frame s1 s2 -> frame s2 s3 -> frame s1 s3.
Proof.
  unfold frame. intros (A1 & A2 & A3 & A4) (B1 & B2 & B3 & B4).
  repeat split; congruence.
Qed.

Lemma In_firstn {A : Type} (n : nat) (x : A) :
  forall l, In x (firstn n l) -> In x l.
Proof.
  induction n as [| n IH]; intros [| a l] H; cbn [firstn] in H;
    try destruct H; [left; assumption | right; apply IH; assumption].
Qed.

Lemma exact_loop_some (v : VehicleCreate.t) (l : list CanonicalVehicle.t)
      (id : str) :
  exact_loop v l = Ok (Some id) ->
  exists c, In c l /\ CanonicalVehicle._id c = id /\ _is_exact_match v c = Ok true.
Proof.
  induction l as [| c t IH]; cbn [exact_loop]; [discriminate |].
  destruct (_is_exact_match v c) as [[|] | e] eqn:E; cbn [rbind];
    [| | discriminate].
  - intros [= <-]. exists c. repeat split; [left; reflexivity | exact E].
  - intros H. destruct (IH H) as (c' & Hin & Hid & Hx).
    exists c'. repeat split; [right; exact Hin | exact Hid | exact Hx].
Qed.

Lemma exact_loop_none (v : VehicleCreate.t) (l : list CanonicalVehicle.t) :
  exact_loop v l = Ok None <-> Forall (fun c => _is_exact_match v c = Ok false) l.
Proof.
  induction l as [| c t IH]; cbn [exact_loop].
  - split; [constructor | reflexivity].
  - destruct (_is_exact_match v c) as [[|] | e] eqn:E; cbn [rbind]; split;
      intros H; try discriminate; try (inversion H; subst; congruence).
    + constructor; [exact E | apply IH, H].
    + inversion H; subst. apply IH. assumption.
Qed.

Lemma fuzzy_loop_some (threshold : Q) (v : VehicleCreate.t)
      (l : list CanonicalVehicle.t) (id : str) :
  fuzzy_loop threshold v l = Ok (Some id) ->
  exists c q, In c l /\ CanonicalVehicle._id c = id
              /\ _calculate_similarity v c = Ok q /\ (threshold <= q)%Q.
Proof.
  induction l as [| c t IH]; cbn [fuzzy_loop]; [discriminate |].
  destruct (_calculate_similarity v c) as [q | e] eqn:E; cbn [rbind];
    [| discriminate].
  destruct (Qle_bool threshold q) eqn:L.
  - intros [= <-]. exists c, q.
    repeat split; [left; reflexivity | exact E | apply Qle_bool_iff, L].
  - intros H. destruct (IH H) as (c' & q' & Hin & Hid & Hs & Hq).
    exists c', q'. repeat split; [right; exact Hin | exact Hid | exact Hs | exact Hq].
Qed.

Lemma fuzzy_loop_none (threshold : Q) (v : VehicleCreate.t)
      (l : list CanonicalVehicle.t) :
  fuzzy_loop threshold v l = Ok None
  <-> Forall (fun c => exists q, _calculate_similarity v c = Ok q
                                 /\ (q < threshold)%Q) l.
Proof.
  induction l as [| c t IH]; cbn [fuzzy_loop].
  - split; [constructor | reflexivity].
  - destruct (_calculate_similarity v c) as [q | e] eqn:E; cbn [rbind].
    + destruct (Qle_bool threshold q) eqn:L; split; intros H.
      * discriminate.
      * inversion H as [| ? ? (q' & Hq' & Hlt) _]; subst. exfalso.
        rewrite E in Hq'. injection Hq' as <-. apply Qle_bool_iff in L. lra.
      * constructor; [| apply IH, H].
        exists q. split; [exact E | apply Qle_bool_false, L].
      * inversion H; subst. apply IH. assumption.
    + split; [discriminate |]. intros H.
      inversion H as [| ? ? (q' & Hq' & _) _]. congruence.
Qed.

Section MatcherReads.
Variable re_compile : str -> option (str -> bool).

(** A query reads: it changes nothing but the fault schedule, and its
    answer is a sub-list of the collection. *)
Lemma find_canonical_reads (q : query) (s : db) :
  frame s (snd (find_canonical re_compile q s))
  /\ log (snd (find_canonical re_compile q s)) = log s
  /\ (faults s = [] -> snd (find_canonical re_compile q s) = s)
  /\ forall l, fst (find_canonical re_compile q s) = Ok l ->
               forall c, In c l -> In c (canonical_vehicles s).
Proof.
  unfold find_canonical, bind, storage_op, lift, get_canonical_vehicles, ret.
  destruct s as [cv vs fl ck nid lg]. cbn [faults canonical_vehicles vehicles
                                             clock next_id log].
  destruct fl as [| [|] rest];
    try (destruct (regex_filter re_compile (q_brand q)) as [fb | e]);
    try (destruct (regex_filter re_compile (q_model q)) as [fm | e']);
    cbn [fst snd canonical_vehicles vehicles clock next_id log faults];
    (split; [repeat split |]); (split; [reflexivity |]);
    (split; [try reflexivity; discriminate |]);
    intros l H; try discriminate; injection H as <-; intros c Hc;
    apply filter_In in Hc; apply Hc.
Qed.

Lemma frame_log (s s1 : db) (lg : list exn) :
  frame s s1 ->
  frame s (mkdb (canonical_vehicles s1) (vehicles s1) (faults s1) (clock s1)
                (next_id s1) lg).
Proof. intros H. exact H. Qed.

(** What the matcher returns: the identifier of a stored group that the
    exact-match predicate accepts or that scores at least 0.90. *)
Definition sound_answer (v : VehicleCreate.t) (s : db) (r : option str) : Prop :=
  forall id, r = Some id ->
    exists c, In c (canonical_vehicles s)
              /\ CanonicalVehicle._id c = id
              /\ (_is_exact_match v c = Ok true
                  \/ exists q, _calculate_similarity v c = Ok q /\ (0.90 <= q)%Q).

Lemma sound_answer_none (v : VehicleCreate.t) (s : db) : sound_answer v s None.
Proof. intros id. discriminate. Qed.

(** The broad phase. *)
Lemma broad_phase_spec (v : VehicleCreate.t) (s s1 s' : db)
      (r : result (option str)) :
  frame s s1 ->
  try_except
    (bind (find_canonical re_compile (broad_query v))
          (fun broad_candidates =>
             lift (fuzzy_loop 0.95 v (firstn 50 broad_candidates))))
    (fun e => bind (logger_error e) (fun _ => ret None)) s1 = (r, s') ->
  frame s s' /\ (faults s1 = [] -> faults s' = [])
  /\ exists a, r = Ok a /\ sound_answer v s a.
Proof.
  intros F1 H. unfold try_except, bind, lift, ret, logger_error in H.
  destruct (find_canonical_reads (broad_query v) s1) as (F2 & _ & Q2 & I2).
  destruct (find_canonical re_compile (broad_query v) s1) as [[broad | e] s2];
    cbn [fst snd] in *.
  - destruct (fuzzy_loop 0.95 v (firstn 50 broad)) as [[id |] | e] eqn:Z;
      injection H as <- <-.
    + split; [eapply frame_trans; eassumption |].
      split; [intros K; rewrite (Q2 K); exact K |].
      exists (Some id). split; [reflexivity |]. intros id' [= <-].
      apply fuzzy_loop_some in Z as (c & q & Hin & Hid & Hs & Hq).
      exists c. split.
      { destruct F1 as (C1 & _). rewrite <- C1.
        apply (I2 broad eq_refl), (In_firstn 50), Hin. }
      split; [exact Hid |]. right. exists q. split; [exact Hs | lra].
    + split; [eapply frame_trans; eassumption |].
      split; [intros K; rewrite (Q2 K); exact K |].
      exists None. split; [reflexivity | apply sound_answer_none].
    + split; [apply frame_log; eapply frame_trans; eassumption |].
      split; [intros K; cbn [faults]; rewrite (Q2 K); exact K |].
      exists None. split; [reflexivity | apply sound_answer_none].
  - injection H as <- <-.
    split; [apply frame_log; eapply frame_trans; eassumption |].
    split; [intros K; cbn [faults]; rewrite (Q2 K); exact K |].
    exists None. split; [reflexivity | apply sound_answer_none].
Qed.

(** The matcher: it never raises, it reads only, and its answer is sound. *)
Lemma find_matching_spec (v : VehicleCreate.t) (s s' : db)
      (r : result (option str)) :
  _find_matching_canonical re_compile v s = (r, s') ->
  frame s s' /\ (faults s = [] -> faults s' = [])
  /\ exists a, r = Ok a /\ sound_answer v s a.
Proof.
  unfold _find_matching_canonical, try_except, bind, lift, ret, logger_error.
  intros H.
  destruct (query_nonempty (narrow_query v)).
  - destruct (find_canonical_reads (narrow_query v) s) as (F1 & _ & Q1 & I1).
    destruct (find_canonical re_compile (narrow_query v) s) as [[cands | e] s1];
      cbn [fst snd] in *.
    + destruct (exact_loop v cands) as [[id |] | e] eqn:X.
      * injection H as <- <-.
        split; [exact F1 |]. split; [intros K; rewrite (Q1 K); exact K |].
        exists (Some id). split; [reflexivity |]. intros id' [= <-].
        apply exact_loop_some in X as (c & Hin & Hid & Hx).
        exists c. split; [apply (I1 cands eq_refl), Hin |].
        split; [exact Hid | left; exact Hx].
      * destruct (fuzzy_loop 0.90 v cands) as [[id |] | e] eqn:Z.
        -- injection H as <- <-.
           split; [exact F1 |]. split; [intros K; rewrite (Q1 K); exact K |].
           exists (Some id). split; [reflexivity |]. intros id' [= <-].
           apply fuzzy_loop_some in Z as (c & q & Hin & Hid & Hs & Hq).
           exists c. split; [apply (I1 cands eq_refl), Hin |].
           split; [exact Hid |]. right. exists q. split; [exact Hs | exact Hq].
        -- destruct (truthy (VehicleCreate.brand v)
                     && truthy (VehicleCreate.model v)).
           ++ destruct (broad_phase_spec v s s1 s' r F1 H) as (A & B & C).
              split; [exact A |]. split; [| exact C].
              intros K. apply B. rewrite (Q1 K). exact K.
           ++ injection H as <- <-.
              split; [exact F1 |]. split; [intros K; rewrite (Q1 K); exact K |].
              exists None. split; [reflexivity | apply sound_answer_none].
        -- injection H as <- <-.
           split; [apply frame_log, F1 |].
           split; [intros K; cbn [faults]; rewrite (Q1 K); exact K |].
           exists None. split; [reflexivity | apply sound_answer_none].
      * injection H as <- <-.
        split; [apply frame_log, F1 |].
        split; [intros K; cbn [faults]; rewrite (Q1 K); exact K |].
        exists None. split; [reflexivity | apply sound_answer_none].
    + injection H as <- <-.
      split; [apply frame_log, F1 |].
      split; [intros K; cbn [faults]; rewrite (Q1 K); exact K |].
      exists None. split; [reflexivity | apply sound_answer_none].
  - destruct (truthy (VehicleCreate.brand v) && truthy (VehicleCreate.model v)).
    + destruct (broad_phase_spec v s s s' r (frame_refl s) H) as (A & B & C).
      split; [exact A |]. split; [exact B | exact C].
    + injection H as <- <-.
      split; [apply frame_refl |]. split; [auto |].
      exists None. split; [reflexivity | apply sound_answer_none].
Qed.

End MatcherReads.

(** X7.  The matcher never raises and only reads: the two collections, the
    identifier counter and the clock are as they were. *)
Theorem find_matching_never_raises_and_reads_only
        (re_compile : str -> option (str -> bool))
        (v : VehicleCreate.t) (s : db) :
  exists r s',
    _find_matching_canonical re_compile v s = (Ok r, s')
    /\ canonical_vehicles s' = canonical_vehicles s
    /\ vehicles s' = vehicles s
    /\ next_id s' = next_id s
    /\ clock s' = clock s.
Proof.
  destruct (_find_matching_canonical re_compile v s) as [r s'] eqn:E.
  destruct (find_matching_spec re_compile v s s' r E)
    as ((A1 & A2 & A3 & A4) & _ & a & -> & _).
  exists a, s'. repeat split; assumption.
Qed.

(** X8.  When the stored groups are in the range of the tables and their
    scores and engine numbers are clear of a tie, the identifier the matcher
    answers is that of a stored group which is an exact match or scores at
    least 0.90; when both give a year, the years are the same. *)
Theorem find_matching_answer_is_sound
        (re_compile : str -> option (str -> bool))
        (v : VehicleCreate.t) (s : db) (id : str) :
  forallb (matchable v) (canonical_vehicles s) = true ->
  fst (_find_matching_canonical re_compile v s) = Ok (Some id) ->
  exists c,
    In c (canonical_vehicles s)
    /\ CanonicalVehicle._id c = id
    /\ (_is_exact_match v c = Ok true
        \/ exists q, _calculate_similarity v c = Ok q /\ (0.90 <= q)%Q)
    /\ (truthy (VehicleCreate.year v) = true ->
        truthy (CanonicalVehicle.year c) = true ->
        val (VehicleCreate.year v) = val (CanonicalVehicle.year c)).
Proof.
  intros _.
  destruct (_find_matching_canonical re_compile v s) as [r s'] eqn:E.
  cbn [fst]. intros ->.
  destruct (find_matching_spec re_compile v s s' _ E) as (_ & _ & a & Ha & Hs).
  injection Ha as <-.
  destruct (Hs id eq_refl) as (c & Hin & Hid & Hc).
  exists c. split; [exact Hin |]. split; [exact Hid |]. split; [exact Hc |].
  intros T1 T2.
  assert (B : both (VehicleCreate.year v) (CanonicalVehicle.year c) = true).
  { unfold both. rewrite T1, T2. reflexivity. }
  destruct Hc as [Hx | (q & Hq & Hle)].
  - destruct (exact_match_true v c Hx) as (_ & _ & Hy & _). apply Hy, B.
  - destruct (str_eqb (val (VehicleCreate.year v)) (val (CanonicalVehicle.year c)))
      eqn:Y; [apply str_eqb_eq, Y |].
    pose proof (score_year_mismatch v c q B Y Hq). lra.
Qed.

Lemma find_matching_answer_is_sound_witness :
  exists c,
    In c [honda_civic_group 0 (text "2019") (text "LX") None;
          honda_civic_group 1 (text "2020") (text "LX") None]
    /\ CanonicalVehicle._id c = fresh_id 1
    /\ CanonicalVehicle.year c = text "2020".
Proof.
  destruct (find_matching_answer_is_sound literal_regex
              (honda_civic (text "LX") None)
              (store [honda_civic_group 0 (text "2019") (text "LX") None;
                      honda_civic_group 1 (text "2020") (text "LX") None])
              (fresh_id 1) eq_refl eq_refl) as (c & Hin & Hid & _ & _).
  exists c. split; [exact Hin |]. split; [exact Hid |].
  destruct Hin as [<- | [<- | []]]; [discriminate Hid | reflexivity].
Defined.

(* ===================================================================== *)
(** * Creating a group, and resolving a listing twice                     *)
(* ===================================================================== *)

Lemma hex_digits_length (n : nat) :
  forall x acc, List.length (hex_digits n x acc) = n + List.length acc.
Proof.
  induction n as [| n IH]; intros x acc; cbn [hex_digits]; [reflexivity |].
  rewrite IH. cbn [List.length]. lia.
Qed.

Lemma fresh_id_truthy (x : N) : truthy (Some (fresh_id x)) = true.
Proof.
  pose proof (hex_digits_length 24 x []) as H. fold (fresh_id x) in H.
  destruct (fresh_id x); [discriminate H | reflexivity].
Qed.

Lemma lookup_none_existsb (oid : str) (l : list CanonicalVehicle.t) :
  lookup_by_id oid l = None ->
  existsb (fun c => str_eqb (CanonicalVehicle._id c) oid) l = false.
Proof.
  unfold lookup_by_id. induction l as [| c t IH]; cbn [find existsb];
    [reflexivity |].
  destruct (str_eqb (CanonicalVehicle._id c) oid); [discriminate | exact IH].
Qed.

Lemma lookup_app_fresh (oid : str) (l : list CanonicalVehicle.t)
      (g : CanonicalVehicle.t) :
  lookup_by_id oid l = None -> CanonicalVehicle._id g = oid ->
  lookup_by_id oid (l ++ [g]) = Some g.
Proof.
  unfold lookup_by_id. intros H <-. induction l as [| c t IH]; cbn [app find].
  - rewrite str_eqb_refl. reflexivity.
  - cbn [find] in H.
    destruct (str_eqb (CanonicalVehicle._id c) (CanonicalVehicle._id g));
      [discriminate | apply IH, H].
Qed.

(** The document [create_canonical_vehicle] inserts in the state [s]. *)
Definition new_group (brand model : str)
           (year edition engine transmission fuel_type : option str)
           (doors : option Z) (s : db) : CanonicalVehicle.t :=
  CanonicalVehicle.mk (fresh_id (next_id s)) (Some brand) (Some model) year
    edition engine transmission fuel_type doors None None None None 0 0 0 None
    CanonicalVehicleStatus.ACTIVE (clock s) (clock s + 1) None.

Lemma create_run (brand model : str)
      (year edition engine transmission fuel_type : option str)
      (doors : option Z) (s : db) :
  faults s = [] ->
  lookup_by_id (fresh_id (next_id s)) (canonical_vehicles s) = None ->
  create_canonical_vehicle brand model year edition engine transmission fuel_type
                           doors s
  = (Ok (new_group brand model year edition engine transmission fuel_type doors s),
     mkdb (canonical_vehicles s
           ++ [new_group brand model year edition engine transmission fuel_type
                         doors s])
          (vehicles s) [] (clock s + 1 + 1) (next_id s + 1) (log s)).
Proof.
  intros Hf Hn. unfold new_group. destruct s as [cv vs fl ck nid lg].
  cbn [faults canonical_vehicles next_id clock vehicles log] in *. subst fl.
  unfold create_canonical_vehicle, try_except, bind, utcnow, storage_op,
    get_canonical_vehicles, put_canonical_vehicles, raise, ret.
  cbn [faults canonical_vehicles next_id clock vehicles log].
  rewrite (lookup_none_existsb _ _ Hn).
  cbn [faults canonical_vehicles next_id clock vehicles log].
  erewrite lookup_app_fresh; [reflexivity | exact Hn | reflexivity].
Qed.

(** X9.  A group is inserted before it is read back; when the read fails,
    the caller gets the error and the group stays. *)
Theorem create_can_fail_after_inserting (brand model : str)
        (year edition engine transmission fuel_type : option str)
        (doors : option Z) (s : db) (rest : list bool) :
  faults s = false :: true :: rest ->
  lookup_by_id (fresh_id (next_id s)) (canonical_vehicles s) = None ->
  let out := create_canonical_vehicle brand model year edition engine
                                      transmission fuel_type doors s in
  fst out = Raise PyMongoError
  /\ canonical_vehicles (snd out)
     = canonical_vehicles s
       ++ [new_group brand model year edition engine transmission fuel_type
                     doors s]
  /\ log (snd out) = log s ++ [PyMongoError].
Proof.
  intros Hf Hn. unfold new_group. destruct s as [cv vs fl ck nid lg].
  cbn [faults canonical_vehicles next_id clock vehicles log] in *. subst fl.
  unfold create_canonical_vehicle, try_except, bind, utcnow, storage_op,
    get_canonical_vehicles, put_canonical_vehicles, raise, ret, logger_error.
  cbn [faults canonical_vehicles next_id clock vehicles log].
  rewrite (lookup_none_existsb _ _ Hn).
  cbn [faults canonical_vehicles next_id clock vehicles log fst snd].
  repeat split.
Qed.

Lemma create_can_fail_after_inserting_witness :
  let s := mkdb [] [] [false; true] 0 0 [] in
  let out := create_canonical_vehicle (py "Honda") (py "Civic") (text "2020")
                                      None None None None None s in
  fst out = Raise PyMongoError
  /\ List.length (canonical_vehicles (snd out)) = 1.
Proof.
  cbv zeta.
  destruct (create_can_fail_after_inserting (py "Honda") (py "Civic")
              (text "2020") None None None None None
              (mkdb [] [] [false; true] 0 0 []) [] eq_refl eq_refl)
    as (H1 & H2 & _).
  split; [exact H1 | rewrite H2; reflexivity].
Defined.

Section Resolve.
Variable re_compile : str -> option (str -> bool).

(** The brand and the model [find_or_create_canonical_vehicle] gives to a
    new group. *)
Definition brand_or_unknown (field : option str) : str :=
  if truthy field then val field else py "Unknown".

Definition group_of_listing (v : VehicleCreate.t) (s : db) : CanonicalVehicle.t :=
  new_group (brand_or_unknown (VehicleCreate.brand v))
            (brand_or_unknown (VehicleCreate.model v))
            (VehicleCreate.year v) (VehicleCreate.edition v)
            (VehicleCreate.engine v) (VehicleCreate.transmission v)
            (VehicleCreate.fuel_type v) (VehicleCreate.doors v) s.

Lemma find_or_create_found (v : VehicleCreate.t) (s s' : db) (id : str) :
  _find_matching_canonical re_compile v s = (Ok (Some id), s') ->
  truthy (Some id) = true ->
  find_or_create_canonical_vehicle re_compile v s = (Ok (Some id), s').
Proof.
  intros H T. unfold find_or_create_canonical_vehicle, try_except, bind.
  rewrite H, T. reflexivity.
Qed.

Lemma find_or_create_new (v : VehicleCreate.t) (s : db) :
  _find_matching_canonical re_compile v s = (Ok None, s) ->
  faults s = [] ->
  lookup_by_id (fresh_id (next_id s)) (canonical_vehicles s) = None ->
  find_or_create_canonical_vehicle re_compile v s
  = (Ok (Some (fresh_id (next_id s))),
     mkdb (canonical_vehicles s ++ [group_of_listing v s])
          (vehicles s) [] (clock s + 1 + 1) (next_id s + 1) (log s)).
Proof.
  intros H Hf Hn. unfold find_or_create_canonical_vehicle, try_except, bind.
  rewrite H. cbn [truthy].
  fold (brand_or_unknown (VehicleCreate.brand v)).
  fold (brand_or_unknown (VehicleCreate.model v)).
  rewrite (create_run _ _ _ _ _ _ _ _ s Hf Hn). reflexivity.
Qed.

End Resolve.

(** X10.  A listing without brand, model and year is never matched: it gets a
    group of its own, named "Unknown". *)
Theorem listing_without_criteria_gets_new_group
        (re_compile : str -> option (str -> bool))
        (v : VehicleCreate.t) (s : db) :
  truthy (VehicleCreate.brand v) = false ->
  truthy (VehicleCreate.model v) = false ->
  truthy (VehicleCreate.year v) = false ->
  faults s = [] ->
  lookup_by_id (fresh_id (next_id s)) (canonical_vehicles s) = None ->
  _find_matching_canonical re_compile v s = (Ok None, s)
  /\ exists s',
       find_or_create_canonical_vehicle re_compile v s
       = (Ok (Some (fresh_id (next_id s))), s')
       /\ canonical_vehicles s'
          = canonical_vehicles s ++ [group_of_listing v s]
       /\ CanonicalVehicle.brand (group_of_listing v s) = Some (py "Unknown")
       /\ CanonicalVehicle.model (group_of_listing v s) = Some (py "Unknown")
       /\ next_id s' = (next_id s + 1)%N.
Proof.
  intros Tb Tm Ty Hf Hn.
  assert (H : _find_matching_canonical re_compile v s = (Ok None, s)).
  { unfold _find_matching_canonical, narrow_query, try_except, bind.
    rewrite Tb, Tm, Ty. reflexivity. }
  split; [exact H |].
  eexists. split; [apply find_or_create_new; assumption |].
  cbn [canonical_vehicles next_id]. split; [reflexivity |].
  unfold group_of_listing, new_group, brand_or_unknown. rewrite Tb, Tm.
  repeat split.
Qed.

Lemma listing_without_criteria_gets_new_group_witness :
  let v := listing None None None (text "LX") (text "1.5L") in
  let first := find_or_create_canonical_vehicle literal_regex v (store []) in
  let second := find_or_create_canonical_vehicle literal_regex v (snd first) in
  fst first = Ok (Some (fresh_id 0)) /\ fst second = Ok (Some (fresh_id 1)).
Proof.
  cbv zeta.
  destruct (listing_without_criteria_gets_new_group literal_regex
              (listing None None None (text "LX") (text "1.5L")) (store [])
              eq_refl eq_refl eq_refl eq_refl eq_refl)
    as (_ & s' & H & _).
  rewrite H. cbn [fst snd]. split; [reflexivity |].
  injection H as <-. reflexivity.
Defined.

(** ** The narrow pattern *)

Lemma special_not_alnum (c : char) : re_special c = true -> ascii_alnum c = false.
Proof.
  unfold re_special. cbn [existsb]. rewrite !orb_true_iff, !N.eqb_eq.
  intros H. repeat destruct H as [H | H]; try discriminate; subst c; reflexivity.
Qed.

Lemma not_special_literal (c : char) :
  re_special c = false ->
  (c =? 92)%N = false /\ (c =? 36)%N = false /\ re_meta c = false.
Proof.
  intros H.
  assert (K : forall d, re_special d = true -> c <> d) by (intros d Hd ->; congruence).
  repeat split.
  - apply N.eqb_neq, K. reflexivity.
  - apply N.eqb_neq, K. reflexivity.
  - destruct (re_meta c) eqn:E; [| reflexivity]. exfalso.
    unfold re_meta in E. cbn [existsb] in E.
    rewrite !orb_true_iff, !N.eqb_eq in E.
    repeat destruct E as [E | E]; try discriminate;
      (apply (K c); [subst c; reflexivity | reflexivity]).
Qed.

(** An escaped text between [^] and [$] is a literal pattern: the engine
    reads the text back. *)
Lemma literal_body_escape (s : str) :
  literal_body false (re_escape s ++ [36%N]) = Some (s, true).
Proof.
  induction s as [| c t IH]; [reflexivity |].
  unfold re_escape in *. cbn [flat_map]. destruct (re_special c) eqn:E.
  - cbn [app literal_body]. change (92 =? 92)%N with true. cbn match.
    rewrite (special_not_alnum c E), IH. reflexivity.
  - destruct (not_special_literal c E) as (E1 & E2 & E3).
    cbn [app literal_body]. rewrite E1, E2, E3, IH. reflexivity.
Qed.

Lemma fold_case_newline (c : char) : fold_case c = 10%N <-> c = 10%N.
Proof.
  unfold fold_case, Unicode.between.
  destruct ((65 <=? c)%N && (c <=? 90)%N) eqn:E; [| tauto].
  apply andb_true_iff in E as [E1 E2]. apply N.leb_le in E1, E2. lia.
Qed.

Lemma match_here_anchored (s : str) :
  forall t, match_here s true t = true
            <-> (map fold_case t = map fold_case s
                 \/ map fold_case t = map fold_case s ++ [10%N]).
Proof.
  induction s as [| b s' IH]; intros t.
  - cbn [match_here map app]. destruct t as [| c [| d u]].
    + split; [left; reflexivity | reflexivity].
    + rewrite N.eqb_eq, <- fold_case_newline. cbn [map]. split.
      * intros ->. right. reflexivity.
      * intros [H | H]; [discriminate | congruence].
    + cbn [map]. split; [discriminate | intros [H | H]; discriminate].
  - cbn [match_here map app]. destruct t as [| c u].
    + split; [discriminate | intros [H | H]; discriminate].
    + cbn [map]. rewrite andb_true_iff, N.eqb_eq, IH. split.
      * intros (E & [H | H]); [left | right]; congruence.
      * intros [H | H]; injection H as E H; (split; [congruence |]);
          [left | right]; exact H.
Qed.

(** The narrow pattern is accepted whatever the text, and finds the
    text itself. *)
Lemma narrow_pattern_is_literal (s : str) :
  literal_regex ([94%N] ++ re_escape s ++ [36%N]) = Some (match_here s true)
  /\ match_here s true s = true
  /\ forall t, match_here s true t = true
               <-> (map fold_case t = map fold_case s
                    \/ map fold_case t = map fold_case s ++ [10%N]).
Proof.
  split; [| split].
  - cbn [app literal_regex]. change (94 =? 94)%N with true. cbn match.
    rewrite literal_body_escape. reflexivity.
  - apply match_here_anchored. left. reflexivity.
  - apply match_here_anchored.
Qed.

(** ** Resolving the same listing twice *)

(** The pattern of the narrow search on a field. *)
Definition anchored (field : option str) : str :=
  [94%N] ++ re_escape (val field) ++ [36%N].

(** The server accepts the narrow pattern of the field and finds the
    field's own text with it. *)
Definition finds_itself (re_compile : str -> option (str -> bool))
           (field : option str) : Prop :=
  exists search, re_compile (anchored field) = Some search
                 /\ search (val field) = true.

Section Twice.
Variable re_compile : str -> option (str -> bool).
Variable v : VehicleCreate.t.
Hypothesis brand_given : truthy (VehicleCreate.brand v) = true.
Hypothesis model_given : truthy (VehicleCreate.model v) = true.
Hypothesis brand_found : finds_itself re_compile (VehicleCreate.brand v).
Hypothesis model_found : finds_itself re_compile (VehicleCreate.model v).

(** The filter of the narrow search. *)
Definition narrow_filter (sb sm : str -> bool) (c : CanonicalVehicle.t) : bool :=
  match CanonicalVehicle.brand c with Some subject => sb subject | None => false end
  && match CanonicalVehicle.model c with Some subject => sm subject | None => false end
  && year_filter (q_year (narrow_query v)) (CanonicalVehicle.year c).

Lemma narrow_query_nonempty : query_nonempty (narrow_query v) = true.
Proof. unfold narrow_query. rewrite brand_given. reflexivity. Qed.

Lemma narrow_run (s : db) :
  faults s = [] ->
  exists sb sm,
    sb (val (VehicleCreate.brand v)) = true
    /\ sm (val (VehicleCreate.model v)) = true
    /\ forall s', faults s' = [] ->
         find_canonical re_compile (narrow_query v) s'
         = (Ok (filter (narrow_filter sb sm) (canonical_vehicles s')), s').
Proof.
  intros _. destruct brand_found as (sb & Cb & Hb), model_found as (sm & Cm & Hm).
  exists sb, sm. split; [exact Hb |]. split; [exact Hm |].
  intros s' Hf. destruct s' as [cv vs fl ck nid lg]. cbn [faults] in Hf. subst fl.
  unfold find_canonical, bind, storage_op, lift, get_canonical_vehicles, ret,
    regex_filter, narrow_filter.
  cbn [faults canonical_vehicles]. unfold narrow_query at 1 2.
  rewrite brand_given, model_given. cbn [q_brand q_model].
  unfold anchored in Cb, Cm. rewrite Cb, Cm. reflexivity.
Qed.

Lemma app_cons_neq {A : Type} (l : list A) (x : A) : l ++ [x] <> l.
Proof.
  intros H. apply (f_equal (@List.length A)) in H.
  rewrite length_app in H. cbn [List.length] in H. lia.
Qed.

(** A matcher that answers [None] and logs nothing found no exact match
    among the narrow candidates, and left the state as it was. *)
Lemma quiet_none (s s0 : db) (cands : list CanonicalVehicle.t) :
  faults s = [] ->
  find_canonical re_compile (narrow_query v) s = (Ok cands, s) ->
  _find_matching_canonical re_compile v s = (Ok None, s0) ->
  log s0 = log s ->
  s0 = s /\ exact_loop v cands = Ok None.
Proof.
  intros Hf Hc H Hl. split.
  - destruct (find_matching_spec re_compile v s s0 _ H)
      as ((A1 & A2 & A3 & A4) & B & _).
    specialize (B Hf). clear H Hc.
    destruct s as [a1 a2 a3 a4 a5 a6], s0 as [b1 b2 b3 b4 b5 b6].
    cbn [canonical_vehicles vehicles faults clock next_id log] in *. congruence.
  - unfold _find_matching_canonical, try_except, bind, lift, ret, logger_error in H.
    rewrite narrow_query_nonempty, Hc in H.
    destruct (exact_loop v cands) as [[id |] | e]; [discriminate | reflexivity |].
    injection H as <-. cbn [log] in Hl. exfalso. exact (app_cons_neq _ _ Hl).
Qed.

(** The group created from a listing is an exact match of the listing,
    unless its engine text is made of punctuation only. *)
Lemma exact_match_own_group (s : db) :
  (truthy (VehicleCreate.engine v) = true ->
   _normalize_string (VehicleCreate.engine v) <> []) ->
  _is_exact_match v (group_of_listing v s) = Ok true.
Proof.
  intros He. unfold group_of_listing, new_group, brand_or_unknown, _is_exact_match.
  cbn [CanonicalVehicle.brand CanonicalVehicle.model CanonicalVehicle.year
       CanonicalVehicle.edition CanonicalVehicle.engine].
  rewrite brand_given, model_given.
  destruct (VehicleCreate.brand v) as [b |]; [| discriminate].
  destruct (VehicleCreate.model v) as [m |]; [| discriminate].
  cbn [val]. rewrite !str_eqb_refl. cbn [negb]. rewrite !andb_false_r.
  destruct (truthy (VehicleCreate.engine v)) eqn:T; cbn [andb]; [| reflexivity].
  rewrite (similar_engines_same _ _ T T eq_refl (He eq_refl)). reflexivity.
Qed.

Lemma narrow_filter_own_group (sb sm : str -> bool) (s : db) :
  sb (val (VehicleCreate.brand v)) = true ->
  sm (val (VehicleCreate.model v)) = true ->
  narrow_filter sb sm (group_of_listing v s) = true.
Proof.
  intros Hb Hm. unfold narrow_filter, group_of_listing, new_group, brand_or_unknown.
  cbn [CanonicalVehicle.brand CanonicalVehicle.model CanonicalVehicle.year].
  rewrite brand_given, model_given, Hb, Hm. cbn [andb].
  unfold narrow_query. cbn [q_year]. unfold year_filter.
  destruct (truthy (VehicleCreate.year v)) eqn:T; [| reflexivity].
  destruct (VehicleCreate.year v) as [y |]; [| discriminate].
  cbn [opt_str_eqb]. apply str_eqb_refl.
Qed.

Lemma resolve_twice (s s0 : db) :
  faults s = [] ->
  lookup_by_id (fresh_id (next_id s)) (canonical_vehicles s) = None ->
  (truthy (VehicleCreate.engine v) = true ->
   _normalize_string (VehicleCreate.engine v) <> []) ->
  _find_matching_canonical re_compile v s = (Ok None, s0) ->
  log s0 = log s ->
  exists s1,
    find_or_create_canonical_vehicle re_compile v s
    = (Ok (Some (fresh_id (next_id s))), s1)
    /\ canonical_vehicles s1 = canonical_vehicles s ++ [group_of_listing v s]
    /\ find_or_create_canonical_vehicle re_compile v s1
       = (Ok (Some (fresh_id (next_id s))), s1).
Proof.
  intros Hf Hn He H Hl.
  destruct (narrow_run s Hf) as (sb & sm & Hb & Hm & Hrun).
  destruct (quiet_none s s0 _ Hf (Hrun s Hf) H Hl) as (-> & Hx).
  eexists. split; [apply find_or_create_new; assumption |].
  split; [reflexivity |].
  apply find_or_create_found; [| apply fresh_id_truthy].
  change (fresh_id (next_id s)) with (CanonicalVehicle._id (group_of_listing v s)).
  apply exact_match_short_circuits
    with (cands := filter (narrow_filter sb sm) (canonical_vehicles s)
                   ++ [group_of_listing v s]).
  - apply narrow_query_nonempty.
  - rewrite Hrun by reflexivity. cbn [canonical_vehicles].
    rewrite filter_app. cbn [filter].
    rewrite (narrow_filter_own_group sb sm s Hb Hm). reflexivity.
  - exists (filter (narrow_filter sb sm) (canonical_vehicles s)), [].
    split; [reflexivity |]. split; [apply exact_loop_none, Hx |].
    apply exact_match_own_group, He.
Qed.

End Twice.

(** X11.  A listing with brand and model that matches no group gets a new
    one; resolved again, it goes to that group and the store stays as it
    is.  The listing and the stored groups are in the range of the tables,
    and their scores and engine numbers are clear of a tie. *)
Theorem same_listing_resolves_to_same_group
        (re_compile : str -> option (str -> bool))
        (v : VehicleCreate.t) (s s0 : db) :
  tabular_listing v = true ->
  forallb (matchable v) (canonical_vehicles s) = true ->
  truthy (VehicleCreate.brand v) = true ->
  truthy (VehicleCreate.model v) = true ->
  finds_itself re_compile (VehicleCreate.brand v) ->
  finds_itself re_compile (VehicleCreate.model v) ->
  (truthy (VehicleCreate.engine v) = true ->
   _normalize_string (VehicleCreate.engine v) <> []) ->
  faults s = [] ->
  lookup_by_id (fresh_id (next_id s)) (canonical_vehicles s) = None ->
  _find_matching_canonical re_compile v s = (Ok None, s0) ->
  log s0 = log s ->
  exists s1,
    find_or_create_canonical_vehicle re_compile v s
    = (Ok (Some (fresh_id (next_id s))), s1)
    /\ canonical_vehicles s1 = canonical_vehicles s ++ [group_of_listing v s]
    /\ find_or_create_canonical_vehicle re_compile v s1
       = (Ok (Some (fresh_id (next_id s))), s1).
Proof.
  intros _ _ Tb Tm Rb Rm He Hf Hn H Hl.
  exact (resolve_twice re_compile v Tb Tm Rb Rm s s0 Hf Hn He H Hl).
Qed.

Lemma same_listing_resolves_to_same_group_witness :
  let v := honda_civic (text "LX") (text "1.5L Turbo") in
  let s := store [honda_civic_group 0 (text "2019") (text "LX") None] in
  exists s1,
    find_or_create_canonical_vehicle literal_regex v s
    = (Ok (Some (fresh_id 1)), s1)
    /\ find_or_create_canonical_vehicle literal_regex v s1
       = (Ok (Some (fresh_id 1)), s1).
Proof.
  cbv zeta.
  destruct (same_listing_resolves_to_same_group literal_regex
              (honda_civic (text "LX") (text "1.5L Turbo"))
              (store [honda_civic_group 0 (text "2019") (text "LX") None])
              (store [honda_civic_group 0 (text "2019") (text "LX") None]))
    as (s1 & H1 & _ & H2).
  - reflexivity.
  - reflexivity.
  - reflexivity.
  - reflexivity.
  - eexists. split; reflexivity.
  - eexists. split; reflexivity.
  - intros _. discriminate.
  - reflexivity.
  - reflexivity.
  - vm_compute. reflexivity.
  - reflexivity.
  - exists s1. split; [exact H1 | exact H2].
Defined.

(* ===================================================================== *)
(** * Further properties of the statistics refresh                        *)
(* ===================================================================== *)

(** The ways a refresh can go: an error before anything is written, no
    active listing, or one [$set] on the group. *)
Lemma update_stats_cases (canonical_id : str) (s : db) :
  let out := update_canonical_vehicle_stats canonical_id s in
  fst out = Ok tt
  /\ vehicles (snd out) = vehicles s
  /\ next_id (snd out) = next_id s
  /\ ((canonical_vehicles (snd out) = canonical_vehicles s
       /\ (log (snd out) = log s \/ exists e, log (snd out) = log s ++ [e]))
      \/ (exists oid x l u,
            ObjectId canonical_id = Ok oid
            /\ active_listings_of canonical_id (vehicles s) = x :: l
            /\ log (snd out) = log s
            /\ canonical_vehicles (snd out)
               = update_first oid (set_stats (x :: l) u (u + 1))
                              (canonical_vehicles s))).
Proof.
  destruct s as [cv vs fl ck nid lg]. cbv zeta.
  unfold update_canonical_vehicle_stats, try_except, bind, storage_op,
    get_vehicles, utcnow, lift, get_canonical_vehicles, put_canonical_vehicles,
    ret, logger_error.
  cbn [faults vehicles canonical_vehicles clock next_id log].
  assert (Hnone : forall lg',
             lg' = lg \/ (exists e, lg' = lg ++ [e]) ->
             Ok tt = Ok tt :> result unit /\ vs = vs /\ nid = nid
             /\ ((cv = cv /\ (lg' = lg \/ exists e, lg' = lg ++ [e]))
                 \/ (exists oid x l u,
                       ObjectId canonical_id = Ok oid
                       /\ active_listings_of canonical_id vs = x :: l
                       /\ lg' = lg
                       /\ cv = update_first oid (set_stats (x :: l) u (u + 1)) cv))).
  { intros lg' H. repeat split. left. split; [reflexivity | exact H]. }
  destruct fl as [| [|] rest];
    cbn [faults vehicles canonical_vehicles clock next_id log fst snd];
    [| apply Hnone; right; eexists; reflexivity |];
    (destruct (active_listings_of canonical_id vs) as [| x l] eqn:Ha;
     cbn [faults vehicles canonical_vehicles clock next_id log fst snd];
     [apply Hnone; left; reflexivity |]);
    (destruct (ObjectId canonical_id) as [oid | e] eqn:Ho;
     cbn [faults vehicles canonical_vehicles clock next_id log fst snd];
     [| apply Hnone; right; eexists; reflexivity]).
  - repeat split. right. exists oid, x, l, ck. repeat split.
  - destruct rest as [| [|] rest'];
      cbn [faults vehicles canonical_vehicles clock next_id log fst snd];
      [| apply Hnone; right; eexists; reflexivity |];
      (repeat split; right; exists oid, x, l, ck; repeat split).
Qed.

(** X12.  A refresh never raises, leaves the listings alone, and writes
    nothing when it logs an error. *)
Theorem refresh_is_all_or_nothing (canonical_id : str) (s : db) :
  exists s',
    update_canonical_vehicle_stats canonical_id s = (Ok tt, s')
    /\ vehicles s' = vehicles s
    /\ (log s' = log s
        \/ ((exists e, log s' = log s ++ [e])
            /\ canonical_vehicles s' = canonical_vehicles s)).
Proof.
  pose proof (update_stats_cases canonical_id s) as H. cbv zeta in H.
  destruct (update_canonical_vehicle_stats canonical_id s) as [r s'].
  cbn [fst snd] in H. destruct H as (-> & Hv & _ & H).
  exists s'. split; [reflexivity |]. split; [exact Hv |].
  destruct H as [(Hc & [Hl | He]) | (oid & x & l & u & _ & _ & Hl & _)].
  - left. exact Hl.
  - right. split; assumption.
  - left. exact Hl.
Qed.

Lemma update_stats_no_listings (canonical_id : str) (s : db) :
  active_listings_of canonical_id (vehicles s) = [] ->
  canonical_vehicles (snd (update_canonical_vehicle_stats canonical_id s))
  = canonical_vehicles s.
Proof.
  intros Ha. pose proof (update_stats_cases canonical_id s) as H. cbv zeta in H.
  destruct H as (_ & _ & _ & [(Hc & _) | (oid & x & l & u & _ & Hx & _)]).
  - exact Hc.
  - rewrite Ha in Hx. discriminate.
Qed.

(** X13.  With no active listing the refresh writes nothing: the group keeps
    the statistics it had, whatever has become of its listings. *)
Theorem refresh_without_active_listings (canonical_id : str) (s : db) :
  active_listings_of canonical_id (vehicles s) = [] ->
  canonical_vehicles (snd (update_canonical_vehicle_stats canonical_id s))
  = canonical_vehicles s
  /\ vehicles (snd (update_canonical_vehicle_stats canonical_id s)) = vehicles s.
Proof.
  intros Ha. split; [apply update_stats_no_listings, Ha |].
  apply (update_stats_cases canonical_id s).
Qed.

Lemma refresh_without_active_listings_witness :
  let g := CanonicalVehicle.mk (fresh_id 0) (text "Honda") (text "Civic")
             (text "2020") None None None None None
             (Some 10%Q) (Some 30%Q) (Some 20%Q) (Some 20%Q) 3 3 40 None
             CanonicalVehicleStatus.ACTIVE 0 0 None in
  let sold := Vehicle.mk (Some (fresh_id 0)) VehicleStatus.SOLD (Some 10%Q)
                         (Some 5%Z) None in
  let s := mkdb [g] [sold; sold; sold] [] 0 1 [] in
  canonical_vehicles (snd (update_canonical_vehicle_stats (fresh_id 0) s)) = [g]
  /\ CanonicalVehicle.active_listings g = 3%Z.
Proof.
  cbv zeta. split; [| reflexivity].
  apply (refresh_without_active_listings (fresh_id 0)
           (mkdb [CanonicalVehicle.mk (fresh_id 0) (text "Honda") (text "Civic")
                    (text "2020") None None None None None
                    (Some 10%Q) (Some 30%Q) (Some 20%Q) (Some 20%Q) 3 3 40 None
                    CanonicalVehicleStatus.ACTIVE 0 0 None]
                 [Vehicle.mk (Some (fresh_id 0)) VehicleStatus.SOLD (Some 10%Q)
                             (Some 5%Z) None;
                  Vehicle.mk (Some (fresh_id 0)) VehicleStatus.SOLD (Some 10%Q)
                             (Some 5%Z) None;
                  Vehicle.mk (Some (fresh_id 0)) VehicleStatus.SOLD (Some 10%Q)
                             (Some 5%Z) None] [] 0 1 [])).
  reflexivity.
Defined.

(** X14.  A refresh rewrites the group refreshed and no other. *)
Theorem refresh_touches_one_group (canonical_id other : str) (s : db) :
  (forall oid, ObjectId canonical_id = Ok oid -> other <> oid) ->
  lookup_by_id other
    (canonical_vehicles (snd (update_canonical_vehicle_stats canonical_id s)))
  = lookup_by_id other (canonical_vehicles s).
Proof.
  intros Hne. pose proof (update_stats_cases canonical_id s) as H. cbv zeta in H.
  destruct H as (_ & _ & _ & [(Hc & _) | (oid & x & l & u & Ho & _ & _ & Hc)]).
  - rewrite Hc. reflexivity.
  - rewrite Hc, lookup_update_first by reflexivity.
    destruct (str_eqb other oid) eqn:E.
    + apply str_eqb_eq in E. exfalso. exact (Hne oid Ho E).
    + destruct (lookup_by_id other (canonical_vehicles s)); reflexivity.
Qed.

Lemma refresh_touches_one_group_witness :
  let s := mkdb [honda_civic_group 0 (text "2020") None None;
                 honda_civic_group 1 (text "2021") None None]
                [honda_listing (fresh_id 0) 85000000] [] 0 2 [] in
  lookup_by_id (fresh_id 1)
    (canonical_vehicles (snd (update_canonical_vehicle_stats (fresh_id 0) s)))
  = Some (honda_civic_group 1 (text "2021") None None).
Proof.
  cbv zeta. rewrite refresh_touches_one_group; [reflexivity |].
  intros oid [= <-]. discriminate.
Defined.

(** ** The price statistics *)






(** ** Refreshing twice *)

(** A group without its two timestamps. *)
Definition without_timestamps (c : CanonicalVehicle.t) : CanonicalVehicle.t :=
  CanonicalVehicle.mk
    (CanonicalVehicle._id c) (CanonicalVehicle.brand c)
    (CanonicalVehicle.model c) (CanonicalVehicle.year c)
    (CanonicalVehicle.edition c) (CanonicalVehicle.engine c)
    (CanonicalVehicle.transmission c) (CanonicalVehicle.fuel_type c)
    (CanonicalVehicle.doors c) (CanonicalVehicle.min_price c)
    (CanonicalVehicle.max_price c) (CanonicalVehicle.avg_price c)
    (CanonicalVehicle.median_price c) (CanonicalVehicle.total_listings c)
    (CanonicalVehicle.active_listings c) (CanonicalVehicle.total_views c)
    (CanonicalVehicle.average_kilometers c) (CanonicalVehicle.status c)
    (CanonicalVehicle.created_at c) 0 None.

Lemma set_stats_twice (listings : list Vehicle.t) (u1 u2 u3 u4 : Z)
      (c : CanonicalVehicle.t) :
  without_timestamps (set_stats listings u3 u4 (set_stats listings u1 u2 c))
  = without_timestamps (set_stats listings u1 u2 c).
Proof.
  unfold without_timestamps, set_stats.
  cbn [CanonicalVehicle._id CanonicalVehicle.brand CanonicalVehicle.model
       CanonicalVehicle.year CanonicalVehicle.edition CanonicalVehicle.engine
       CanonicalVehicle.transmission CanonicalVehicle.fuel_type
       CanonicalVehicle.doors CanonicalVehicle.min_price
       CanonicalVehicle.max_price CanonicalVehicle.avg_price
       CanonicalVehicle.median_price CanonicalVehicle.total_listings
       CanonicalVehicle.active_listings CanonicalVehicle.total_views
       CanonicalVehicle.average_kilometers CanonicalVehicle.status
       CanonicalVehicle.created_at].
  destruct (prices_of listings), (kilometers_of listings); reflexivity.
Qed.

Lemma update_first_twice (oid : str) (f1 f2 : CanonicalVehicle.t -> CanonicalVehicle.t)
      (l : list CanonicalVehicle.t) :
  (forall c, CanonicalVehicle._id (f1 c) = CanonicalVehicle._id c) ->
  (forall c, without_timestamps (f2 (f1 c)) = without_timestamps (f1 c)) ->
  map without_timestamps (update_first oid f2 (update_first oid f1 l))
  = map without_timestamps (update_first oid f1 l).
Proof.
  intros Hid H. induction l as [| c t IH]; cbn [update_first map]; [reflexivity |].
  destruct (str_eqb (CanonicalVehicle._id c) oid) eqn:E; cbn [update_first].
  - rewrite Hid, E. cbn [map]. rewrite H. reflexivity.
  - rewrite E. cbn [map]. rewrite IH. reflexivity.
Qed.

(** X16.  Without a storage error, refreshing twice is refreshing once, the
    timestamps apart. *)
Theorem refresh_twice_is_refresh_once (canonical_id : str) (s : db) :
  faults s = [] ->
  let s1 := snd (update_canonical_vehicle_stats canonical_id s) in
  let s2 := snd (update_canonical_vehicle_stats canonical_id s1) in
  map without_timestamps (canonical_vehicles s2)
  = map without_timestamps (canonical_vehicles s1).
Proof.
  intros Hf s1 s2.
  destruct (active_listings_of canonical_id (vehicles s)) as [| x l] eqn:Ha.
  - subst s2. rewrite update_stats_no_listings; [reflexivity |].
    subst s1. destruct (update_stats_cases canonical_id s) as (_ & -> & _).
    exact Ha.
  - destruct (ObjectId canonical_id) as [oid | e] eqn:Ho.
    + subst s2 s1. rewrite (update_stats_run canonical_id oid s x l Hf Ho Ha).
      cbn [snd].
      rewrite (update_stats_run canonical_id oid
                 (mkdb (update_first oid (set_stats (x :: l) (clock s) (clock s + 1))
                                     (canonical_vehicles s))
                       (vehicles s) [] (clock s + 1 + 1) (next_id s) (log s))
                 x l eq_refl Ho Ha).
      cbn [snd canonical_vehicles].
      apply update_first_twice; [reflexivity |].
      intros c. apply set_stats_twice.
    + assert (K : forall s0, canonical_vehicles
                               (snd (update_canonical_vehicle_stats canonical_id s0))
                             = canonical_vehicles s0).
      { intros s0. destruct (update_stats_cases canonical_id s0)
          as (_ & _ & _ & [(Hc & _) | (oid & ? & ? & ? & Ho' & _)]);
          [exact Hc | congruence]. }
      subst s2. rewrite K. reflexivity.
Qed.

Lemma refresh_twice_is_refresh_once_witness :
  let s := mkdb [honda_civic_group 0 (text "2020") (text "LX") None]
                [honda_listing (fresh_id 0) 30; honda_listing (fresh_id 0) 10]
                [] 0 1 [] in
  let s1 := snd (update_canonical_vehicle_stats (fresh_id 0) s) in
  let s2 := snd (update_canonical_vehicle_stats (fresh_id 0) s1) in
  map without_timestamps (canonical_vehicles s2)
  = map without_timestamps (canonical_vehicles s1)
  /\ map CanonicalVehicle.updated_at (canonical_vehicles s2)
     <> map CanonicalVehicle.updated_at (canonical_vehicles s1).
Proof.
  cbv zeta. split.
  - apply (refresh_twice_is_refresh_once (fresh_id 0)
             (mkdb [honda_civic_group 0 (text "2020") (text "LX") None]
                   [honda_listing (fresh_id 0) 30; honda_listing (fresh_id 0) 10]
                   [] 0 1 [])). reflexivity.
  - vm_compute. discriminate.
Defined.

(* ===================================================================== *)
(** * Further properties of the merge                                     *)
(* ===================================================================== *)

(** The store after the two writes of a merge that meets no error, before
    the refresh of the target. *)
Definition merged (source_id target_id oid : str) (s : db) (rest : list bool) : db :=
  mkdb (update_first oid (set_merged (clock s)) (canonical_vehicles s))
       (map (repoint source_id target_id) (vehicles s))
       rest (clock s + 1) (next_id s) (log s).

(** The fault schedule lets the two writes of a merge through. *)
Definition two_writes_pass (f : list bool) : option (list bool) :=
  match f with
  | [] => Some []
  | [false] => Some []
  | false :: false :: rest => Some rest
  | _ => None
  end.

Lemma merge_run (source_id target_id oid : str) (s : db) (rest : list bool) :
  two_writes_pass (faults s) = Some rest ->
  ObjectId source_id = Ok oid ->
  merge_canonical_vehicles source_id target_id s
  = (Ok (0 <? modified_count source_id target_id (vehicles s)),
     snd (update_canonical_vehicle_stats target_id
            (merged source_id target_id oid s rest))).
Proof.
  intros Hf Ho.
  pose proof (update_stats_cases target_id (merged source_id target_id oid s rest))
    as (Ht & _).
  unfold merged in *. destruct s as [cv vs fl ck nid lg].
  cbn [faults vehicles canonical_vehicles clock next_id log] in *.
  unfold merge_canonical_vehicles, try_except, bind, storage_op, get_vehicles,
    put_vehicles, lift, utcnow, get_canonical_vehicles, put_canonical_vehicles,
    ret.
  cbn [faults vehicles canonical_vehicles clock next_id log].
  destruct fl as [| [|] [| [|] fl']]; try discriminate; injection Hf as <-;
    cbn [faults vehicles canonical_vehicles clock next_id log];
    rewrite Ho; cbn [faults vehicles canonical_vehicles clock next_id log];
    destruct (update_canonical_vehicle_stats target_id _) as [[[] | e] s2];
    cbn [fst] in Ht; try discriminate; reflexivity.
Qed.

Lemma references_repoint (source_id target_id : str) (v : Vehicle.t) :
  str_eqb source_id target_id = false ->
  references source_id (repoint source_id target_id v) = false
  /\ references target_id (repoint source_id target_id v)
     = references source_id v || references target_id v
  /\ (references source_id v && references target_id v) = false.
Proof.
  intros Hne. unfold references, repoint.
  destruct (opt_str_eqb (Vehicle.canonical_vehicle_id v) source_id) eqn:E.
  - cbn [Vehicle.canonical_vehicle_id opt_str_eqb orb andb].
    rewrite str_eqb_refl, (str_eqb_sym target_id source_id), Hne.
    repeat split.
    destruct (Vehicle.canonical_vehicle_id v) as [c |]; [| discriminate].
    cbn [opt_str_eqb] in *. apply str_eqb_eq in E. subst c. exact Hne.
  - rewrite E. repeat split.
Qed.

Lemma repoint_all (source_id target_id : str) (l : list Vehicle.t) :
  str_eqb source_id target_id = false ->
  filter (references source_id) (map (repoint source_id target_id) l) = []
  /\ List.length (filter (references target_id)
                         (map (repoint source_id target_id) l))
     = List.length (filter (references source_id) l)
       + List.length (filter (references target_id) l).
Proof.
  intros Hne. induction l as [| v t [IH1 IH2]]; [split; reflexivity |].
  cbn [map filter].
  destruct (references_repoint source_id target_id v Hne) as (R1 & R2 & R3).
  rewrite R1, R2. split; [exact IH1 |].
  destruct (references source_id v), (references target_id v);
    cbn [orb andb List.length] in *; try discriminate; lia.
Qed.

Lemma repoint_self (id : str) (l : list Vehicle.t) : map (repoint id id) l = l.
Proof.
  induction l as [| v t IH]; cbn [map]; [reflexivity |]. rewrite IH. f_equal.
  unfold repoint. destruct v as [[c |] st p vc km]; cbn [Vehicle.canonical_vehicle_id
    Vehicle.status Vehicle.price_numeric Vehicle.views_count Vehicle.kilometers
    opt_str_eqb]; [| reflexivity].
  destruct (str_eqb c id) eqn:E; [| reflexivity].
  apply str_eqb_eq in E. subst c. reflexivity.
Qed.

(** X17.  A merge of two different groups that meets no error repoints every
    listing of the source: none references the source afterwards, the target
    has the listings of both, and the answer tells whether the source had
    any. *)
Theorem merge_moves_every_listing (source_id target_id oid : str) (s : db) :
  faults s = [] ->
  ObjectId source_id = Ok oid ->
  source_id <> target_id ->
  let out := merge_canonical_vehicles source_id target_id s in
  vehicles (snd out) = map (repoint source_id target_id) (vehicles s)
  /\ filter (references source_id) (vehicles (snd out)) = []
  /\ List.length (filter (references target_id) (vehicles (snd out)))
     = List.length (filter (references source_id) (vehicles s))
       + List.length (filter (references target_id) (vehicles s))
  /\ fst out
     = Ok (negb (Nat.eqb (List.length
                            (filter (references source_id) (vehicles s))) 0)).
Proof.
  intros Hf Ho Hne out. subst out.
  assert (E : str_eqb source_id target_id = false).
  { destruct (str_eqb source_id target_id) eqn:E; [| reflexivity].
    apply str_eqb_eq in E. contradiction. }
  rewrite (merge_run source_id target_id oid s []) by (try rewrite Hf; auto).
  cbn [fst snd].
  destruct (update_stats_cases target_id (merged source_id target_id oid s []))
    as (_ & -> & _).
  unfold merged. cbn [vehicles].
  destruct (repoint_all source_id target_id (vehicles s) E) as [R1 R2].
  split; [reflexivity |]. split; [exact R1 |]. split; [exact R2 |].
  unfold modified_count. rewrite E. fold (references source_id).
  destruct (filter (references source_id) (vehicles s)); reflexivity.
Qed.

Lemma merge_moves_every_listing_witness :
  let source := honda_civic_group 0 (text "2020") (text "LX") None in
  let target := honda_civic_group 1 (text "2021") (text "LX") None in
  let s := mkdb [source; target]
                [honda_listing (fresh_id 0) 85000000;
                 honda_listing (fresh_id 1) 87000000;
                 honda_listing (fresh_id 0) 84500000] [] 0 2 [] in
  let out := merge_canonical_vehicles (fresh_id 0) (fresh_id 1) s in
  filter (references (fresh_id 0)) (vehicles (snd out)) = []
  /\ List.length (filter (references (fresh_id 1)) (vehicles (snd out))) = 3
  /\ fst out = Ok true.
Proof.
  cbv zeta.
  pose proof (merge_moves_every_listing (fresh_id 0) (fresh_id 1) (fresh_id 0)
                (mkdb [honda_civic_group 0 (text "2020") (text "LX") None;
                       honda_civic_group 1 (text "2021") (text "LX") None]
                      [honda_listing (fresh_id 0) 85000000;
                       honda_listing (fresh_id 1) 87000000;
                       honda_listing (fresh_id 0) 84500000] [] 0 2 [])
                eq_refl eq_refl) as K.
  cbv zeta in K. destruct K as (_ & K1 & K2 & K3); [discriminate |].
  split; [exact K1 |]. split; [rewrite K2; reflexivity | rewrite K3; reflexivity].
Defined.

(** X18.  Merging a group into itself moves nothing and answers [False],
    and yet marks the group as merged. *)
Theorem merge_into_itself (id oid : str) (s : db) (g : CanonicalVehicle.t) :
  faults s = [] ->
  ObjectId id = Ok oid ->
  lookup_by_id oid (canonical_vehicles s) = Some g ->
  let out := merge_canonical_vehicles id id s in
  fst out = Ok false
  /\ vehicles (snd out) = vehicles s
  /\ exists g',
       lookup_by_id oid (canonical_vehicles (snd out)) = Some g'
       /\ CanonicalVehicle.status g' = CanonicalVehicleStatus.MERGED.
Proof.
  intros Hf Ho Hg out. subst out.
  rewrite (merge_run id id oid s []) by (try rewrite Hf; auto).
  cbn [fst snd].
  destruct (update_stats_cases id (merged id id oid s [])) as (_ & Hv & _).
  split.
  - unfold modified_count. rewrite str_eqb_refl. reflexivity.
  - split.
    + rewrite Hv. unfold merged. cbn [vehicles]. apply repoint_self.
    + assert (Hm : lookup_by_id oid (canonical_vehicles (merged id id oid s []))
                   = Some (set_merged (clock s) g)).
      { unfold merged. cbn [canonical_vehicles].
        rewrite lookup_update_first by reflexivity.
        rewrite Hg, str_eqb_refl. reflexivity. }
      destruct (update_stats_keeps_status id oid _ _ Hm) as (g' & Hg' & Hs).
      exists g'. split; [exact Hg' | exact Hs].
Qed.

Lemma merge_into_itself_witness :
  let g := honda_civic_group 0 (text "2020") (text "LX") None in
  let s := mkdb [g] [honda_listing (fresh_id 0) 85000000] [] 0 1 [] in
  let out := merge_canonical_vehicles (fresh_id 0) (fresh_id 0) s in
  fst out = Ok false
  /\ vehicles (snd out) = vehicles s
  /\ option_map CanonicalVehicle.status
       (lookup_by_id (fresh_id 0) (canonical_vehicles (snd out)))
     = Some CanonicalVehicleStatus.MERGED.
Proof.
  cbv zeta.
  pose proof (merge_into_itself (fresh_id 0) (fresh_id 0)
                (mkdb [honda_civic_group 0 (text "2020") (text "LX") None]
                      [honda_listing (fresh_id 0) 85000000] [] 0 1 [])
                (honda_civic_group 0 (text "2020") (text "LX") None)
                eq_refl eq_refl eq_refl) as K.
  cbv zeta in K. destruct K as (K1 & K2 & g' & K3 & K4).
  split; [exact K1 |]. split; [exact K2 |]. rewrite K3. cbn [option_map].
  rewrite K4. reflexivity.
Defined.

(** The first write of a merge passes and the second step fails: the
    source identifier is malformed, or the second write is refused. *)
Definition fails_after_first_write (source_id : str) (f : list bool) : bool :=
  match f with
  | true :: _ => false
  | [] | [false] | false :: false :: _ =>
      match ObjectId source_id with Ok _ => false | Raise _ => true end
  | false :: true :: _ => true
  end.

(** X19.  A merge is not atomic: when the step after the first write fails,
    the listings have been moved, no group has been marked, the error is
    logged and the answer is [False]. *)
Theorem merge_can_fail_after_moving (source_id target_id : str) (s : db) :
  fails_after_first_write source_id (faults s) = true ->
  let out := merge_canonical_vehicles source_id target_id s in
  fst out = Ok false
  /\ vehicles (snd out) = map (repoint source_id target_id) (vehicles s)
  /\ canonical_vehicles (snd out) = canonical_vehicles s
  /\ exists e, log (snd out) = log s ++ [e].
Proof.
  intros H out. subst out. destruct s as [cv vs fl ck nid lg].
  cbn [faults vehicles canonical_vehicles log] in *.
  unfold merge_canonical_vehicles, try_except, bind, storage_op, get_vehicles,
    put_vehicles, lift, utcnow, get_canonical_vehicles, put_canonical_vehicles,
    ret, logger_error.
  cbn [faults vehicles canonical_vehicles clock next_id log].
  unfold fails_after_first_write in H.
  destruct fl as [| [|] [| [|] fl']]; try discriminate;
    cbn [faults vehicles canonical_vehicles clock next_id log];
    destruct (ObjectId source_id) as [oid | e]; try discriminate;
    cbn [faults vehicles canonical_vehicles clock next_id log fst snd];
    repeat split; eexists; reflexivity.
Qed.

Lemma merge_can_fail_after_moving_witness :
  let target := honda_civic_group 0 (text "2020") (text "LX") None in
  let s := mkdb [target] [honda_listing (py "legacy") 85000000] [] 0 1 [] in
  let out := merge_canonical_vehicles (py "legacy") (fresh_id 0) s in
  fst out = Ok false
  /\ map Vehicle.canonical_vehicle_id (vehicles (snd out)) = [Some (fresh_id 0)].
Proof.
  cbv zeta.
  pose proof (merge_can_fail_after_moving (py "legacy") (fresh_id 0)
                (mkdb [honda_civic_group 0 (text "2020") (text "LX") None]
                      [honda_listing (py "legacy") 85000000] [] 0 1 [])
                eq_refl) as K.
  cbv zeta in K. destruct K as (K1 & K2 & _).
  split; [exact K1 | rewrite K2; reflexivity].
Defined.

Lemma update_first_length (oid : str)
      (f : CanonicalVehicle.t -> CanonicalVehicle.t) (l : list CanonicalVehicle.t) :
  List.length (update_first oid f l) = List.length l.
Proof.
  induction l as [| c t IH]; cbn [update_first]; [reflexivity |].
  destruct (str_eqb (CanonicalVehicle._id c) oid); cbn [List.length]; congruence.
Qed.

(** X20.  A merge never raises and never deletes; when it answers [True],
    listings of the source were there and have all been moved. *)
Theorem merge_true_means_listings_moved (source_id target_id : str) (s : db) :
  exists b s',
    merge_canonical_vehicles source_id target_id s = (Ok b, s')
    /\ List.length (canonical_vehicles s') = List.length (canonical_vehicles s)
    /\ List.length (vehicles s') = List.length (vehicles s)
    /\ (b = true ->
        source_id <> target_id
        /\ filter (references source_id) (vehicles s) <> []
        /\ vehicles s' = map (repoint source_id target_id) (vehicles s)).
Proof.
  assert (Hcv : List.length
                  (canonical_vehicles
                     (snd (merge_canonical_vehicles source_id target_id s)))
                = List.length (canonical_vehicles s)).
  { apply (preserves_merge
             (fun l => List.length l = List.length (canonical_vehicles s)));
      [| | reflexivity]; intros; rewrite update_first_length; assumption. }
  destruct (ObjectId source_id) as [oid | e] eqn:Ho;
    [destruct (two_writes_pass (faults s)) as [rest |] eqn:Hw |].
  - rewrite (merge_run source_id target_id oid s rest Hw Ho) in *.
    cbn [snd] in Hcv.
    destruct (update_stats_cases target_id (merged source_id target_id oid s rest))
      as (_ & Hv & _).
    eexists _, _. split; [reflexivity |]. split; [exact Hcv |].
    rewrite Hv. unfold merged. cbn [vehicles]. split; [apply length_map |].
    intros Hb. apply Nat.ltb_lt in Hb. unfold modified_count in Hb.
    destruct (str_eqb source_id target_id) eqn:E; [inversion Hb |].
    split; [intros ->; rewrite str_eqb_refl in E; discriminate |].
    split; [| reflexivity].
    fold (references source_id) in Hb. intros K. rewrite K in Hb. inversion Hb.
  - revert Hcv. destruct s as [cv vs fl ck nid lg].
    cbn [faults vehicles canonical_vehicles log] in *.
    unfold merge_canonical_vehicles, try_except, bind, storage_op, get_vehicles,
      put_vehicles, lift, utcnow, get_canonical_vehicles, put_canonical_vehicles,
      ret, logger_error.
    cbn [faults vehicles canonical_vehicles clock next_id log].
    rewrite Ho.
    destruct fl as [| [|] [| [|] fl']]; try discriminate;
      cbn [faults vehicles canonical_vehicles clock next_id log fst snd];
      intros Hcv; eexists _, _; (split; [reflexivity |]);
      (split; [exact Hcv |]); (split; [try apply length_map; reflexivity |]);
      discriminate.
  - revert Hcv. destruct s as [cv vs fl ck nid lg].
    cbn [faults vehicles canonical_vehicles log] in *.
    unfold merge_canonical_vehicles, try_except, bind, storage_op, get_vehicles,
      put_vehicles, lift, utcnow, get_canonical_vehicles, put_canonical_vehicles,
      ret, logger_error.
    cbn [faults vehicles canonical_vehicles clock next_id log].
    rewrite Ho.
    destruct fl as [| [|] fl'];
      cbn [faults vehicles canonical_vehicles clock next_id log fst snd];
      intros Hcv; eexists _, _; (split; [reflexivity |]);
      (split; [exact Hcv |]); (split; [try apply length_map; reflexivity |]);
      discriminate.
Qed.

(* ===================================================================== *)
(** * The body type read from a title                                     *)
(* ===================================================================== *)

Lemma startswith_spec (prefix : str) :
  forall s, startswith s prefix = true <-> exists post, s = prefix ++ post.
Proof.
  induction prefix as [| p t IH]; intros s; cbn [startswith].
  - split; [intros _; exists s; reflexivity | reflexivity].
  - destruct s as [| c s'].
    + split; [discriminate | intros (post & H); discriminate].
    + rewrite andb_true_iff, N.eqb_eq, IH. split.
      * intros (-> & post & ->). exists post. reflexivity.
      * intros (post & H). injection H as -> ->. split; [reflexivity |].
        exists post. reflexivity.
Qed.

(** [contains] is the substring test. *)
Lemma contains_spec (keyword : str) :
  forall s, contains keyword s = true
            <-> exists pre post, s = pre ++ keyword ++ post.
Proof.
  induction s as [| c s' IH].
  - cbn [contains]. rewrite orb_false_r, startswith_spec. split.
    + intros (post & H). exists [], post. exact H.
    + intros ([| ? ?] & post & H); [exists post; exact H | discriminate].
  - cbn [contains]. rewrite orb_true_iff, startswith_spec, IH. split.
    + intros [(post & H) | (pre & post & H)].
      * exists [], post. exact H.
      * exists (c :: pre), post. rewrite H. reflexivity.
    + intros ([| d pre] & post & H).
      * left. exists post. exact H.
      * right. injection H as -> H. exists pre, post. exact H.
Qed.

Lemma find_first {A : Type} (p : A -> bool) (l : list A) :
  match find p l with
  | Some x => exists before after,
                l = before ++ x :: after /\ p x = true
                /\ forallb (fun y => negb (p y)) before = true
  | None => forallb (fun y => negb (p y)) l = true
  end.
Proof.
  induction l as [| a t IH]; cbn [find forallb]; [reflexivity |].
  destruct (p a) eqn:E.
  - exists [], t. repeat split. exact E.
  - destruct (find p t) as [x |].
    + destruct IH as (before & after & -> & Hx & Hb).
      exists (a :: before), after. repeat split; [exact Hx |].
      cbn [forallb]. rewrite E, Hb. reflexivity.
    + cbn [negb andb]. exact IH.
Qed.

(** A keyword of the entry occurs in the lower-cased title. *)
Definition hit (title : str) (entry : str * list str) : bool :=
  existsb (fun keyword => contains keyword (lower title)) (snd entry).

(** X21.  For a title written with the code points of the tables, the body
    type is the first entry of the dictionary, in its order, one of whose
    keywords occurs in the lower-cased title. *)
Theorem body_type_is_first_hit (title : str) :
  forallb Unicode.in_table title = true ->
  match _extract_body_type title with
  | Some body_type =>
      exists before keywords after keyword pre post,
        body_types = before ++ (body_type, keywords) :: after
        /\ In keyword keywords
        /\ lower title = pre ++ keyword ++ post
        /\ forallb (fun entry => negb (hit title entry)) before = true
  | None =>
      title = []
      \/ forall body_type keywords keyword pre post,
           In (body_type, keywords) body_types -> In keyword keywords ->
           lower title <> pre ++ keyword ++ post
  end.
Proof.
  intros _.
  unfold _extract_body_type. destruct title as [| c t]; [left; reflexivity |].
  cbv zeta. fold (hit (c :: t)).
  pose proof (find_first (hit (c :: t)) body_types) as H.
  destruct (find (hit (c :: t)) body_types) as [[body_type keywords] |];
    cbn [option_map fst].
  - destruct H as (before & after & Hl & Hx & Hb).
    unfold hit in Hx. cbn [snd] in Hx.
    apply existsb_exists in Hx as (keyword & Hin & Hc).
    apply contains_spec in Hc as (pre & post & Hc).
    exists before, keywords, after, keyword, pre, post. repeat split; assumption.
  - right. intros body_type keywords keyword pre post Hin Hk E.
    rewrite forallb_forall in H. specialize (H _ Hin).
    apply negb_true_iff in H. unfold hit in H. cbn [snd] in H.
    assert (K : existsb (fun k => contains k (lower (c :: t))) keywords = true).
    { apply existsb_exists. exists keyword. split; [exact Hk |].
      apply contains_spec. exists pre, post. exact E. }
    congruence.
Qed.

Lemma body_type_is_first_hit_witness :
  exists before keywords after keyword pre post,
    body_types = before ++ (py "hatchback", keywords) :: after
    /\ In keyword keywords
    /\ lower (py "Kia Rio HATCHBACK suv") = pre ++ keyword ++ post
    /\ forallb (fun entry => negb (hit (py "Kia Rio HATCHBACK suv") entry))
               before = true.
Proof.
  pose proof (body_type_is_first_hit (py "Kia Rio HATCHBACK suv") eq_refl) as H.
  assert (E : _extract_body_type (py "Kia Rio HATCHBACK suv")
              = Some (py "hatchback")) by (vm_compute; reflexivity).
  rewrite E in H. exact H.
Defined.

Definition lower_stable (c : char) : bool :=
  str_eqb (lower (Unicode.lower1 c)) (Unicode.lower1 c).

Lemma lower_app (s t : str) : lower (s ++ t) = lower s ++ lower t.
Proof. unfold lower. apply flat_map_app. Qed.

Lemma lower_idempotent (s : str) :
  forallb Unicode.in_table s = true -> lower (lower s) = lower s.
Proof.
  induction s as [| c t IH]; cbn [forallb]; [reflexivity |].
  intros H. apply andb_true_iff in H as [Hc Ht].
  rewrite lower_cons, lower_app, (IH Ht). f_equal.
  apply str_eqb_eq. apply (table_forall lower_stable); [vm_compute; reflexivity |].
  exact Hc.
Qed.

Lemma lower_empty (s : str) : lower s = [] -> s = [].
Proof.
  destruct s as [| c t]; [reflexivity |]. rewrite lower_cons.
  unfold Unicode.lower1.
  repeat match goal with
         | |- context [if ?b then _ else _] => destruct b
         end; discriminate.
Qed.

(** X22.  The body type does not depend on the case of the title. *)
Theorem body_type_ignores_case (title other : str) :
  forallb Unicode.in_table title = true ->
  forallb Unicode.in_table other = true ->
  (lower title = lower other ->
   _extract_body_type title = _extract_body_type other)
  /\ _extract_body_type (lower title) = _extract_body_type title.
Proof.
  intros Ht Ho.
  assert (K : forall a b, lower a = lower b ->
                          _extract_body_type a = _extract_body_type b).
  { intros a b E. unfold _extract_body_type.
    destruct a as [| x a'], b as [| y b']; try reflexivity.
    - symmetry in E. apply lower_empty in E. discriminate.
    - apply lower_empty in E. discriminate.
    - cbv zeta. rewrite E. reflexivity. }
  split; [apply K |]. apply K, lower_idempotent, Ht.
Qed.

Lemma body_type_ignores_case_witness :
  _extract_body_type (py "Ford Ranger PICK-UP 4x4")
  = _extract_body_type (py "ford ranger Pick-Up 4X4")
  /\ _extract_body_type (py "Ford Ranger PICK-UP 4x4") = Some (py "pickup").
Proof.
  split; [| reflexivity].
  apply (body_type_ignores_case (py "Ford Ranger PICK-UP 4x4")
                                (py "ford ranger Pick-Up 4X4"));
    reflexivity.
Defined.

(* ===================================================================== *)
(** * The specifications of a new group                                   *)
(* ===================================================================== *)

Definition well_formed (specs : list (str * any)) : Prop :=
  NoDup (map fst specs) /\ Forall (fun item => truth (snd item) = true) specs.

Lemma has_key_In (key : str) (specs : list (str * any)) :
  has_key key specs = true <-> In key (map fst specs).
Proof.
  unfold has_key. rewrite existsb_exists, in_map_iff. split.
  - intros (item & Hin & E). apply str_eqb_eq in E. exists item. auto.
  - intros (item & E & Hin). exists item. split; [exact Hin |].
    apply str_eqb_eq, E.
Qed.

Lemma well_formed_add (specs : list (str * any)) (item : str * any) :
  well_formed specs -> has_key (fst item) specs = false ->
  truth (snd item) = true -> well_formed (specs ++ [item]).
Proof.
  intros [Hn Ht] Hk Hv. split.
  - rewrite map_app. cbn [map]. apply NoDup_app_remove_l with (l := []).
    cbn [app]. apply Permutation_NoDup with (l := fst item :: map fst specs).
    + apply Permutation_cons_append.
    + constructor; [| exact Hn]. intros Hin. apply has_key_In in Hin. congruence.
  - apply Forall_app. split; [exact Ht |]. constructor; [exact Hv | constructor].
Qed.

(** The loop over [additional_info]. *)
Definition add_items (items specs : list (str * any)) : list (str * any) :=
  fold_left (fun specs item =>
               if negb (has_key (fst item) specs) && truth (snd item)
               then specs ++ [item] else specs)
            items specs.

Lemma add_items_spec (items : list (str * any)) :
  forall specs,
    well_formed specs ->
    well_formed (add_items items specs)
    /\ (exists added, add_items items specs = specs ++ added
                      /\ forall item, In item added -> In item items).
Proof.
  unfold add_items. induction items as [| item t IH]; intros specs Hw;
    cbn [fold_left].
  - split; [exact Hw |]. exists []. split; [symmetry; apply app_nil_r |].
    intros ? [].
  - destruct (negb (has_key (fst item) specs) && truth (snd item)) eqn:E.
    + apply andb_true_iff in E as [E1 E2]. apply negb_true_iff in E1.
      destruct (IH (specs ++ [item]) (well_formed_add specs item Hw E1 E2))
        as (W & added & Ha & Hin).
      split; [exact W |]. exists (item :: added). split.
      * rewrite Ha, <- app_assoc. reflexivity.
      * intros x [<- | Hx]; [left; reflexivity | right; apply Hin, Hx].
    + destruct (IH specs Hw) as (W & added & Ha & Hin).
      split; [exact W |]. exists added. split; [exact Ha |].
      intros x Hx. right. apply Hin, Hx.
Qed.

(** The items the listing's own fields give. *)
Definition own_specs (v : VehicleCreate.t) : list (str * any) :=
  _extract_specifications v None.

Lemma own_specs_well_formed (v : VehicleCreate.t) : well_formed (own_specs v).
Proof.
  unfold own_specs, _extract_specifications, well_formed.
  destruct (truthy (VehicleCreate.engine v)) eqn:T1;
    destruct (truthy (VehicleCreate.transmission v)) eqn:T2;
    destruct (truthy (VehicleCreate.fuel_type v)) eqn:T3;
    destruct (VehicleCreate.doors v) as [d |];
    try destruct (truth (PyInt d)) eqn:T4;
    cbn [app map fst];
    (split;
     [ repeat constructor; cbn [In]; intros H;
       repeat destruct H as [H | H]; try discriminate H; exact H
     | repeat constructor; cbn [snd truth]; try exact T4;
       match goal with
       | |- match val ?f with [] => false | _ :: _ => true end = true =>
           destruct f as [[| ? ?] |]; try discriminate; reflexivity
       end ]).
Qed.

(** X23.  The specifications form a dictionary of true values, and the
    listing's own fields come first and are never overridden. *)
Theorem specifications_keep_own_fields
        (v : VehicleCreate.t) (additional_info : option (list (str * any))) :
  let specs := _extract_specifications v additional_info in
  NoDup (map fst specs)
  /\ Forall (fun item => truth (snd item) = true) specs
  /\ exists added,
       specs = _extract_specifications v None ++ added
       /\ forall item, In item added ->
            exists items, additional_info = Some items /\ In item items.
Proof.
  cbv zeta. pose proof (own_specs_well_formed v) as Hw.
  destruct additional_info as [[| i t] |].
  - change (_extract_specifications v (Some [])) with (own_specs v).
    destruct Hw as [H1 H2]. split; [exact H1 |]. split; [exact H2 |].
    exists []. split; [symmetry; apply app_nil_r | intros ? []].
  - change (_extract_specifications v (Some (i :: t)))
      with (add_items (i :: t) (own_specs v)).
    destruct (add_items_spec (i :: t) (own_specs v) Hw) as ([H1 H2] & added & Ha & Hin).
    split; [exact H1 |]. split; [exact H2 |].
    exists added. split; [exact Ha |].
    intros item Hi. exists (i :: t). split; [reflexivity | apply Hin, Hi].
  - change (_extract_specifications v None) with (own_specs v).
    destruct Hw as [H1 H2]. split; [exact H1 |]. split; [exact H2 |].
    exists []. split; [symmetry; apply app_nil_r | intros ? []].
Qed.

(* ===================================================================== *)
(** * Pagination                                                          *)
(* ===================================================================== *)

Lemma firstn_add {A : Type} (a b : nat) :
  forall l : list A, firstn (a + b) l = firstn a l ++ firstn b (skipn a l).
Proof.
  induction a as [| a IH]; intros l; [reflexivity |].
  destruct l as [| x t]; cbn [Nat.add firstn skipn app].
  - rewrite firstn_nil. reflexivity.
  - rewrite IH. reflexivity.
Qed.

(** The first [m] windows of size [k], one after the other. *)
Lemma windows_concat {A : Type} (k : nat) (l : list A) (m : nat) :
  List.concat (map (fun i => firstn k (skipn (i * k) l)) (seq 0 m)) = firstn (m * k) l.
Proof.
  induction m as [| m IH]; [reflexivity |].
  rewrite seq_S, map_app, concat_app, IH. cbn [Nat.add map List.concat].
  rewrite app_nil_r. rewrite <- firstn_add. f_equal. lia.
Qed.

Lemma window_nat {A : Type} (l : list A) (i : nat) (page_size : Z) :
  (0 <= page_size)%Z ->
  Pagination.window l (Z.of_nat (S i)) page_size
  = firstn (Z.to_nat page_size) (skipn (i * Z.to_nat page_size) l).
Proof.
  intros H. unfold Pagination.window, Pagination.skip. f_equal. f_equal.
  rewrite Z2Nat.inj_mul by lia. f_equal. lia.
Qed.

Lemma total_pages_ceiling (n page_size : Z) :
  (0 <= n)%Z -> (1 <= page_size)%Z ->
  let pages := ((n + page_size - 1) / page_size)%Z in
  (0 <= pages)%Z
  /\ (n <= pages * page_size)%Z
  /\ forall page, (page < pages)%Z <-> (page * page_size < n)%Z.
Proof.
  intros Hn Hp pages.
  assert (H1 : (page_size * pages <= n + page_size - 1)%Z)
    by (apply Z.mul_div_le; lia).
  assert (H2 : (n + page_size - 1 < page_size * Z.succ pages)%Z)
    by (apply Z.mul_succ_div_gt; lia).
  assert (H0 : (0 <= pages)%Z) by (apply Z.div_pos; lia).
  split; [exact H0 |]. split; [nia |].
  intros page. split; intros H; nia.
Qed.

(** X24.  The pages from 1 to [total_pages] are the result, cut into pieces of
    [page_size]. *)
Theorem pages_partition_the_result {A : Type} (docs : list A) (page_size : Z) :
  (1 <= page_size)%Z ->
  exists pages,
    Pagination.total_pages (Z.of_nat (List.length docs)) page_size = Ok pages
    /\ (0 <= pages)%Z
    /\ List.concat (map (fun i => Pagination.window docs (Z.of_nat (S i)) page_size)
                   (seq 0 (Z.to_nat pages)))
       = docs
    /\ forall page, (1 <= page)%Z ->
         (List.length (Pagination.window docs page page_size)
          <= Z.to_nat page_size)%nat
         /\ ((page < pages)%Z ->
             List.length (Pagination.window docs page page_size)
             = Z.to_nat page_size)
         /\ ((pages < page)%Z -> Pagination.window docs page page_size = []).
Proof.
  intros Hp. unfold Pagination.total_pages.
  destruct (Z.eqb_spec page_size 0) as [E | _]; [lia |].
  destruct (total_pages_ceiling (Z.of_nat (List.length docs)) page_size
              (Nat2Z.is_nonneg _) Hp) as (H0 & H1 & H2).
  set (pages := ((Z.of_nat (List.length docs) + page_size - 1) / page_size)%Z) in *.
  exists pages. split; [reflexivity |]. split; [exact H0 |]. split.
  - rewrite (map_ext _ (fun i => firstn (Z.to_nat page_size)
                                        (skipn (i * Z.to_nat page_size) docs)))
      by (intros i; apply window_nat; lia).
    rewrite windows_concat. apply firstn_all2.
    apply Nat2Z.inj_le. rewrite Nat2Z.inj_mul, !Z2Nat.id by lia. exact H1.
  - intros page Hpage. unfold Pagination.window, Pagination.skip.
    split; [apply firstn_le_length |]. split.
    + intros Hlt. apply firstn_length_le. rewrite length_skipn.
      assert (K : (page * page_size <= Z.of_nat (List.length docs))%Z).
      { apply Z.lt_le_incl, H2. exact Hlt. }
      apply Nat2Z.inj_le. rewrite Nat2Z.inj_sub.
      * rewrite !Z2Nat.id by nia. nia.
      * apply Nat2Z.inj_le. rewrite Z2Nat.id by nia. nia.
    + intros Hgt. rewrite skipn_all2; [apply firstn_nil |].
      apply Nat2Z.inj_le. rewrite Z2Nat.id by nia. nia.
Qed.

Lemma pages_partition_the_result_witness :
  exists pages,
    Pagination.total_pages 7 3 = Ok pages
    /\ List.concat (map (fun i => Pagination.window [1; 2; 3; 4; 5; 6; 7]
                                                    (Z.of_nat (S i)) 3)
                        (seq 0 (Z.to_nat pages)))
       = [1; 2; 3; 4; 5; 6; 7].
Proof.
  destruct (pages_partition_the_result [1; 2; 3; 4; 5; 6; 7] 3 ltac:(lia))
    as (pages & H1 & _ & H2 & _).
  exists pages. split; [exact H1 | exact H2].
Defined.

Lemma window_nonempty {A : Type} (docs : list A) (page page_size : Z) :
  (1 <= page)%Z -> (1 <= page_size)%Z ->
  Pagination.window docs page page_size <> []
  <-> ((page - 1) * page_size < Z.of_nat (List.length docs))%Z.
Proof.
  intros Hpage Hp. unfold Pagination.window, Pagination.skip.
  set (k := Z.to_nat ((page - 1) * page_size)).
  assert (Hk : Z.of_nat k = ((page - 1) * page_size)%Z)
    by (subst k; apply Z2Nat.id; nia).
  rewrite <- Hk, <- Nat2Z.inj_lt.
  destruct (Z.to_nat page_size) as [| n] eqn:E; [lia |].
  split.
  - intros H. destruct (Nat.lt_ge_cases k (List.length docs)) as [L | L];
      [exact L |]. exfalso. apply H. rewrite skipn_all2 by exact L. reflexivity.
  - intros H K. apply (f_equal (@List.length A)) in K.
    rewrite length_firstn, length_skipn in K. cbn [List.length] in K. lia.
Qed.

(** X25.  [has_next] tells whether the next page holds a document,
    [has_previous] whether there is a page before. *)
Theorem has_next_is_exact {A : Type} (docs : list A) (page page_size : Z) :
  (1 <= page)%Z -> (1 <= page_size)%Z ->
  exists pages,
    Pagination.total_pages (Z.of_nat (List.length docs)) page_size = Ok pages
    /\ (Pagination.has_next page pages = true
        <-> Pagination.window docs (page + 1) page_size <> [])
    /\ (Pagination.has_previous page = true <-> (1 <= page - 1)%Z)
    /\ (Pagination.window docs page page_size <> [] <-> (page <= pages)%Z).
Proof.
  intros Hpage Hp. unfold Pagination.total_pages.
  destruct (Z.eqb_spec page_size 0) as [E | _]; [lia |].
  destruct (total_pages_ceiling (Z.of_nat (List.length docs)) page_size
              (Nat2Z.is_nonneg _) Hp) as (H0 & H1 & H2).
  set (pages := ((Z.of_nat (List.length docs) + page_size - 1) / page_size)%Z) in *.
  exists pages. split; [reflexivity |]. split; [| split].
  - unfold Pagination.has_next. rewrite Z.ltb_lt, window_nonempty by lia.
    rewrite H2. replace (page + 1 - 1)%Z with page by lia. reflexivity.
  - unfold Pagination.has_previous. rewrite Z.ltb_lt. lia.
  - rewrite window_nonempty by lia. rewrite <- H2. lia.
Qed.

Lemma has_next_is_exact_witness :
  Pagination.has_next 2 3 = true
  /\ Pagination.window [1; 2; 3; 4; 5; 6; 7] 3 3 = [7]
  /\ Pagination.has_next 3 3 = false
  /\ Pagination.window [1; 2; 3; 4; 5; 6; 7] 4 3 = [].
Proof.
  destruct (has_next_is_exact [1; 2; 3; 4; 5; 6; 7] 2 3 ltac:(lia) ltac:(lia))
    as (pages & H1 & _).
  injection H1 as <-. repeat split.
Defined.

(** ** What resolving a listing does to the store *)

Lemma create_appends (brand model : str)
      (year edition engine transmission fuel_type : option str)
      (doors : option Z) (s : db) :
  let out := create_canonical_vehicle brand model year edition engine
                                      transmission fuel_type doors s in
  vehicles (snd out) = vehicles s
  /\ (exists added, canonical_vehicles (snd out) = canonical_vehicles s ++ added
                    /\ List.length added <= 1)
  /\ forall g, fst out = Ok g -> In g (canonical_vehicles (snd out)).
Proof.
  destruct s as [cv vs fl ck nid lg]. cbv zeta.
  unfold create_canonical_vehicle, try_except, bind, utcnow, storage_op,
    get_canonical_vehicles, put_canonical_vehicles, raise, ret, logger_error.
  cbn [faults vehicles canonical_vehicles clock next_id log].
  assert (Hsame : forall r c n l' e,
             let out := (@Raise CanonicalVehicle.t e, mkdb cv vs r c n l') in
             vehicles (snd out) = vs
             /\ (exists added, canonical_vehicles (snd out) = cv ++ added
                               /\ List.length added <= 1)
             /\ forall g, fst out = Ok g -> In g (canonical_vehicles (snd out))).
  { intros. cbn. split; [reflexivity |]. split; [| discriminate].
    exists []. split; [symmetry; apply app_nil_r | cbn; lia]. }
  assert (Hnew : forall r c n l' x (res : result CanonicalVehicle.t),
             (forall g, res = Ok g -> In g (cv ++ [x])) ->
             let out := (res, mkdb (cv ++ [x]) vs r c n l') in
             vehicles (snd out) = vs
             /\ (exists added, canonical_vehicles (snd out) = cv ++ added
                               /\ List.length added <= 1)
             /\ forall g, fst out = Ok g -> In g (canonical_vehicles (snd out))).
  { intros r c n l' x res Hres. cbn. split; [reflexivity |]. split; [| exact Hres].
    exists [x]. split; [reflexivity | cbn; lia]. }
  destruct fl as [| [|] fl'];
    cbn [faults vehicles canonical_vehicles clock next_id log];
    [| apply Hsame |];
    (destruct (existsb _ cv);
     cbn [faults vehicles canonical_vehicles clock next_id log];
     [apply Hsame |]).
  - destruct (lookup_by_id (fresh_id nid) (cv ++ _)) as [g |] eqn:L;
      cbn [faults vehicles canonical_vehicles clock next_id log].
    + apply Hnew. intros g' [= <-]. unfold lookup_by_id in L.
      apply find_some in L. apply L.
    + apply Hnew. discriminate.
  - destruct fl' as [| [|] fl''];
      cbn [faults vehicles canonical_vehicles clock next_id log];
      [| apply Hnew; discriminate |];
      (destruct (lookup_by_id (fresh_id nid) (cv ++ _)) as [g |] eqn:L;
       cbn [faults vehicles canonical_vehicles clock next_id log];
       [ apply Hnew; intros g' [= <-]; unfold lookup_by_id in L;
         apply find_some in L; apply L
       | apply Hnew; discriminate ]).
Qed.

(** X26.  Resolving a listing never raises, leaves the listings alone, never
    rewrites or deletes a group and adds one at most; the identifier it
    returns is that of a stored group. *)
Theorem find_or_create_only_appends
        (re_compile : str -> option (str -> bool))
        (v : VehicleCreate.t) (s : db) :
  exists r s' added,
    find_or_create_canonical_vehicle re_compile v s = (Ok r, s')
    /\ vehicles s' = vehicles s
    /\ canonical_vehicles s' = canonical_vehicles s ++ added
    /\ List.length added <= 1
    /\ forall id, r = Some id ->
         exists c, In c (canonical_vehicles s') /\ CanonicalVehicle._id c = id.
Proof.
  unfold find_or_create_canonical_vehicle, try_except, bind.
  destruct (_find_matching_canonical re_compile v s) as [r0 s0] eqn:E.
  destruct (find_matching_spec re_compile v s s0 r0 E)
    as ((F1 & F2 & _ & _) & _ & a & -> & Hs).
  destruct (truthy a) eqn:T.
  - unfold ret. exists a, s0, []. split; [reflexivity |]. split; [exact F2 |].
    split; [rewrite app_nil_r; exact F1 |]. split; [cbn; lia |].
    intros id ->. destruct (Hs id eq_refl) as (c & Hin & Hid & _).
    exists c. split; [rewrite F1; exact Hin | exact Hid].
  - match goal with
    | |- context [create_canonical_vehicle ?b ?m ?y ?e ?g ?t ?f ?d s0] =>
        pose proof (create_appends b m y e g t f d s0) as H;
        destruct (create_canonical_vehicle b m y e g t f d s0) as [[g' | x] s1]
    end; cbv zeta in H; cbn [fst snd] in H;
      destruct H as (Hv & (added & Hc & Hl) & Hin).
    + unfold ret. exists (Some (CanonicalVehicle._id g')), s1, added.
      split; [reflexivity |]. split; [congruence |].
      split; [rewrite Hc, F1; reflexivity |]. split; [exact Hl |].
      intros id [= <-]. exists g'. split; [apply Hin; reflexivity | reflexivity].
    + unfold logger_error, ret. cbn [vehicles canonical_vehicles].
      exists None, (mkdb (canonical_vehicles s1) (vehicles s1) (faults s1)
                         (clock s1) (next_id s1) (log s1 ++ [x])), added.
      split; [reflexivity |]. cbn [vehicles canonical_vehicles].
      split; [congruence |]. split; [rewrite Hc, F1; reflexivity |].
      split; [exact Hl | discriminate].
Qed.

(** ** The target of a merge *)






(* ===================================================================== *)
(** * The matching blocks are matches                                     *)
(* ===================================================================== *)

Module DifflibBlocks.
Import Difflib.

Section Genuine.
Variables (a b : str).

(** The block [(i, j, k)] is a match: [a[i:i+k] == b[j:j+k]]. *)
Definition genuine (m : Match) : Prop :=
  let '(i, j, k) := m in
  forall t, t < k -> nth (i + t) a 0%N = nth (j + t) b 0%N.

(** The lengths of a row of the table are lengths of matches that end in
    the row before [i0]. *)
Definition ends_matches (i0 : nat) (d : dict) : Prop :=
  forall j t, t < d j -> nth (i0 - 1 - t) a 0%N = nth (j - t) b 0%N.

Lemma ends_matches_empty (i0 : nat) : ends_matches i0 empty.
Proof. intros j t H. unfold empty in H. lia. Qed.

Section Window.
Variables (alo ahi blo bhi : nat).

Lemma row_genuine (i0 : nat) (d : dict) (js : list nat) :
  alo <= i0 -> DifflibFacts.dict_ok alo blo bhi i0 d -> ends_matches i0 d ->
  (forall j, In j js -> nth j b 0%N = nth i0 a 0%N) ->
  forall newd best,
    ends_matches (S i0) newd -> genuine best ->
    ends_matches (S i0) (fst (row i0 blo bhi d js newd best))
    /\ genuine (snd (row i0 blo bhi d js newd best)).
Proof.
  intros Hi Hd Hg. induction js as [| j js IH]; intros Hjs newd best Hn Hb;
    cbn [row].
  - auto.
  - assert (Hjs' : forall j', In j' js -> nth j' b 0%N = nth i0 a 0%N)
      by (intros j' Hj'; apply Hjs; right; exact Hj').
    destruct (j <? blo) eqn:E1; [apply IH; auto |].
    destruct (bhi <=? j) eqn:E2; [auto |].
    apply Nat.ltb_ge in E1. apply Nat.leb_gt in E2.
    destruct (DifflibFacts.get_pred_ok alo blo bhi i0 d j Hd E1 Hi) as [K1 K2].
    assert (Hnew : forall t, t < get_pred d j + 1 ->
                             nth (i0 - t) a 0%N = nth (j - t) b 0%N).
    { intros t Ht. destruct t as [| t'].
      - rewrite !Nat.sub_0_r. symmetry. apply Hjs. left. reflexivity.
      - destruct j as [| j']; cbn [get_pred] in Ht; [lia |].
        specialize (Hg j' t' ltac:(lia)).
        replace (i0 - S t') with (i0 - 1 - t') by lia.
        replace (S j' - S t') with (j' - t') by lia. exact Hg. }
    destruct best as [[bi bj] bk].
    apply IH; [exact Hjs' | |].
    + intros j' t Ht. unfold set in Ht.
      destruct (j' =? j) eqn:E.
      * apply Nat.eqb_eq in E. subst j'.
        replace (S i0 - 1 - t) with (i0 - t) by lia. apply Hnew, Ht.
      * apply Hn, Ht.
    + destruct (bk <? get_pred d j + 1) eqn:E; [| exact Hb].
      intros t Ht.
      specialize (Hnew (get_pred d j + 1 - 1 - t) ltac:(lia)).
      replace (i0 + 1 - (get_pred d j + 1) + t)
        with (i0 - (get_pred d j + 1 - 1 - t)) by lia.
      replace (j + 1 - (get_pred d j + 1) + t)
        with (j - (get_pred d j + 1 - 1 - t)) by lia.
      exact Hnew.
Qed.

Lemma b2j_positions (c : char) (j : nat) : In j (b2j b c) -> nth j b 0%N = c.
Proof.
  unfold b2j. destruct (popular b c); [intros [] |].
  intros H. apply DifflibFacts.indices_In in H as (_ & _ & H).
  rewrite Nat.sub_0_r in H. exact H.
Qed.

Lemma rows_genuine (n : nat) :
  forall i0 d best,
    alo <= i0 -> DifflibFacts.dict_ok alo blo bhi i0 d ->
    DifflibFacts.within alo blo bhi i0 best ->
    ends_matches i0 d -> genuine best ->
    genuine (rows a b blo bhi (seq i0 n) d best).
Proof.
  induction n as [| n IH]; intros i0 d best Hi Hd Hw Hg Hb; cbn [seq rows].
  - exact Hb.
  - pose proof (@DifflibFacts.row_within alo blo bhi i0 d
                  (b2j b (nth i0 a 0%N)) Hi Hd empty best
                  (DifflibFacts.dict_ok_empty alo blo bhi (S i0))
                  (DifflibFacts.within_mono alo blo bhi _ _ _
                     (Nat.le_succ_diag_r i0) Hw)) as [R1 R2].
    pose proof (row_genuine i0 d (b2j b (nth i0 a 0%N)) Hi Hd Hg
                  (b2j_positions (nth i0 a 0%N)) empty best
                  (ends_matches_empty (S i0)) Hb) as [G1 G2].
    destruct (row i0 blo bhi d (b2j b (nth i0 a 0%N)) empty best)
      as [newd best'].
    cbn [fst snd] in *. apply IH; auto.
Qed.

Lemma extend_left_genuine :
  forall i j k, genuine (i, j, k) -> genuine (extend_left a b alo blo i j k).
Proof.
  induction i as [| i' IH]; intros j k H; cbn [extend_left]; [exact H |].
  destruct ((alo <? S i') && (blo <? j)
            && (nth (S i' - 1) a 0 =? nth (j - 1) b 0)%N) eqn:E; [| exact H].
  apply andb_true_iff in E. destruct E as [E E3].
  apply andb_true_iff in E. destruct E as [E1 E2].
  apply Nat.ltb_lt in E1. apply Nat.ltb_lt in E2. apply N.eqb_eq in E3.
  apply IH. intros t Ht. destruct t as [| t'].
  - rewrite !Nat.add_0_r. replace i' with (S i' - 1) by lia. exact E3.
  - replace (i' + S t') with (S i' + t') by lia.
    replace (j - 1 + S t') with (j + t') by lia. apply H. lia.
Qed.

Lemma extend_right_genuine (room : nat) :
  forall i j k, genuine (i, j, k) -> genuine (extend_right a b bhi room i j k).
Proof.
  induction room as [| room IH]; intros i j k H; cbn [extend_right]; [exact H |].
  destruct ((j + k <? bhi) && (nth (i + k) a 0 =? nth (j + k) b 0)%N) eqn:E;
    [| exact H].
  apply andb_true_iff in E. destruct E as [_ E]. apply N.eqb_eq in E.
  apply IH. intros t Ht.
  destruct (Nat.eq_dec t k) as [-> | Hne]; [exact E | apply H; lia].
Qed.

(** [find_longest_match] returns a match. *)
Lemma find_longest_match_genuine :
  genuine (find_longest_match a b alo ahi blo bhi).
Proof.
  unfold find_longest_match.
  assert (W0 : DifflibFacts.within alo blo bhi alo (alo, blo, 0))
    by (left; auto).
  assert (G0 : genuine (alo, blo, 0)) by (intros t Ht; lia).
  pose proof (rows_genuine (ahi - alo) alo empty (alo, blo, 0) (le_n alo)
                (DifflibFacts.dict_ok_empty alo blo bhi alo) W0
                (ends_matches_empty alo) G0) as R.
  destruct (rows a b blo bhi (seq alo (ahi - alo)) empty (alo, blo, 0))
    as [[i1 j1] k1].
  pose proof (extend_left_genuine i1 j1 k1 R) as L.
  destruct (extend_left a b alo blo i1 j1 k1) as [[i2 j2] k2].
  apply extend_right_genuine, L.
Qed.

End Window.

(** ** The blocks cover both strings only if the strings are equal *)

(** [s[lo:hi]] *)
Definition seg (s : str) (lo hi : nat) : str := firstn (hi - lo) (skipn lo s).

Lemma seg_empty (s : str) (lo hi : nat) : hi - lo = 0 -> seg s lo hi = [].
Proof. unfold seg. intros ->. reflexivity. Qed.

Lemma seg_split (s : str) (lo mid hi : nat) :
  lo <= mid -> mid <= hi -> seg s lo hi = seg s lo mid ++ seg s mid hi.
Proof.
  intros H1 H2. unfold seg.
  replace (hi - lo) with ((mid - lo) + (hi - mid)) by lia.
  rewrite firstn_add, skipn_skipn.
  replace (mid - lo + lo) with mid by lia. reflexivity.
Qed.

Lemma seg_genuine (i j k : nat) :
  genuine (i, j, k) -> i + k <= List.length a -> j + k <= List.length b ->
  seg a i (i + k) = seg b j (j + k).
Proof.
  intros H Ha Hb. unfold seg.
  replace (i + k - i) with k by lia. replace (j + k - j) with k by lia.
  apply (nth_ext _ _ 0%N 0%N).
  - rewrite !length_firstn, !length_skipn. lia.
  - intros t Ht. rewrite length_firstn, length_skipn in Ht.
    rewrite !nth_firstn.
    destruct (t <? k) eqn:E; [| reflexivity].
    rewrite !nth_skipn. apply H. apply Nat.ltb_lt, E.
Qed.

Definition valid (w : nat * nat * nat * nat) : Prop :=
  let '(alo, ahi, blo, bhi) := w in
  alo <= ahi /\ ahi <= List.length a /\ blo <= bhi /\ bhi <= List.length b.

Definition same_segments (w : nat * nat * nat * nat) : Prop :=
  let '(alo, ahi, blo, bhi) := w in seg a alo ahi = seg b blo bhi.

Lemma zero_width (q : list (nat * nat * nat * nat)) :
  DifflibFacts.width_a q = 0 -> DifflibFacts.width_b q = 0 ->
  Forall same_segments q.
Proof.
  induction q as [| [[[alo ahi] blo] bhi] q' IH];
    cbn [DifflibFacts.width_a DifflibFacts.width_b fold_right];
    intros Ha Hb; constructor.
  - unfold same_segments. rewrite !seg_empty by lia. reflexivity.
  - apply IH; unfold DifflibFacts.width_a, DifflibFacts.width_b; lia.
Qed.

Lemma matching_loop_cover (fuel : nat) :
  forall q blocks,
    Forall valid q ->
    size_sum (matching_loop a b fuel q blocks)
    = size_sum blocks + DifflibFacts.width_a q ->
    size_sum (matching_loop a b fuel q blocks)
    = size_sum blocks + DifflibFacts.width_b q ->
    Forall same_segments q.
Proof.
  induction fuel as [| fuel IH]; intros q blocks Hv H1 H2.
  - destruct q as [| w q']; [constructor |].
    cbn [matching_loop] in H1, H2. apply zero_width; lia.
  - destruct q as [| [[[alo ahi] blo] bhi] q']; [constructor |].
    inversion Hv as [| ? ? Hw Hv']; subst. destruct Hw as (V1 & V2 & V3 & V4).
    cbn [matching_loop] in H1, H2.
    pose proof (DifflibFacts.find_longest_match_bounds a b alo ahi blo bhi) as B.
    pose proof (find_longest_match_genuine alo ahi blo bhi) as G.
    destruct (find_longest_match a b alo ahi blo bhi) as [[i j] k].
    cbn [DifflibFacts.width_a DifflibFacts.width_b fold_right] in H1, H2.
    fold (DifflibFacts.width_a q') in H1. fold (DifflibFacts.width_b q') in H2.
    destruct (k =? 0) eqn:Ek.
    + destruct (DifflibFacts.matching_loop_sum a b fuel q' blocks) as [S1 S2].
      constructor.
      * unfold same_segments. rewrite !seg_empty by lia. reflexivity.
      * apply (IH q' blocks Hv'); lia.
    + apply Nat.eqb_neq in Ek. destruct B as [B | (B1 & B2 & B3 & B4)]; [lia |].
      match type of H1 with
      | context [matching_loop a b fuel ?Q ?BL] =>
          destruct (DifflibFacts.matching_loop_sum a b fuel Q BL) as [S1 S2];
          pose proof (IH Q BL) as IH'
      end.
      rewrite DifflibFacts.size_sum_app in S1, S2, IH'. cbn [snd] in S1, S2, IH'.
      assert (Hblock : seg a i (i + k) = seg b j (j + k))
        by (apply seg_genuine; [exact G | lia | lia]).
      assert (Hall : (seg a alo i = seg b blo j)
                     /\ (seg a (i + k) ahi = seg b (j + k) bhi)
                     /\ Forall same_segments q').
      { destruct ((alo <? i) && (blo <? j)) eqn:EL;
          destruct ((i + k <? ahi) && (j + k <? bhi)) eqn:ER;
          cbn [DifflibFacts.width_a DifflibFacts.width_b fold_right]
            in S1, S2, IH';
          fold (DifflibFacts.width_a q') in S1, IH';
          fold (DifflibFacts.width_b q') in S2, IH'.
        - assert (F : Forall same_segments
                        ((i + k, ahi, j + k, bhi) :: (alo, i, blo, j) :: q')).
          { apply IH'; [| lia | lia].
            constructor; [unfold valid; lia |].
            constructor; [unfold valid; lia | exact Hv']. }
          inversion F as [| ? ? F1 F']; subst.
          inversion F' as [| ? ? F2 F'']; subst. auto.
        - assert (F : Forall same_segments ((alo, i, blo, j) :: q')).
          { apply IH'; [| lia | lia].
            constructor; [unfold valid; lia | exact Hv']. }
          inversion F as [| ? ? F1 F']; subst.
          split; [exact F1 |]. split; [| exact F'].
          rewrite !seg_empty by lia. reflexivity.
        - assert (F : Forall same_segments ((i + k, ahi, j + k, bhi) :: q')).
          { apply IH'; [| lia | lia].
            constructor; [unfold valid; lia | exact Hv']. }
          inversion F as [| ? ? F1 F']; subst.
          split; [| split; [exact F1 | exact F']].
          rewrite !seg_empty by lia. reflexivity.
        - assert (F : Forall same_segments q') by (apply IH'; [exact Hv' | lia | lia]).
          split; [| split; [| exact F]]; rewrite !seg_empty by lia; reflexivity. }
      destruct Hall as (HL & HR & Hq). constructor; [| exact Hq].
      unfold same_segments.
      rewrite (seg_split a alo i ahi), (seg_split a i (i + k) ahi) by lia.
      rewrite (seg_split b blo j bhi), (seg_split b j (j + k) bhi) by lia.
      rewrite HL, Hblock, HR. reflexivity.
Qed.

End Genuine.

Lemma Qdiv_one (x y : Q) : (0 < y)%Q -> (x / y == 1)%Q -> (x == y)%Q.
Proof.
  intros Hy H.
  assert (Hn : ~ (y == 0)%Q) by (intros E; rewrite E in Hy; discriminate).
  rewrite <- (Qmult_div_r x y Hn), H, Qmult_1_r. reflexivity.
Qed.

(** Two strings with the ratio 1 are equal. *)
Lemma ratio_one (a b : str) : (ratio a b == 1)%Q -> a = b.
Proof.
  unfold ratio, _calculate_ratio. intros H.
  destruct (List.length a + List.length b =? 0) eqn:E.
  - apply Nat.eqb_eq in E.
    destruct a, b; cbn [List.length] in E; try lia. reflexivity.
  - apply Nat.eqb_neq in E.
    apply Qdiv_one in H;
      [| change 0%Q with (inject_Z 0); rewrite <- Zlt_Qlt; lia].
    unfold get_matching_blocks in H.
    unfold Qeq in H. cbn [Qnum Qden inject_Z Qmult] in H.
    rewrite !Z.mul_1_r in H.
    destruct (DifflibFacts.matching_loop_sum a b (2 * List.length a + 1)
                [(0, List.length a, 0, List.length b)] []) as [S1 S2].
    change (size_sum []) with 0 in S1, S2.
    cbn [DifflibFacts.width_a DifflibFacts.width_b fold_right] in S1, S2.
    pose proof (matching_loop_cover a b (2 * List.length a + 1)
                  [(0, List.length a, 0, List.length b)] []) as C.
    change (size_sum []) with 0 in C.
    cbn [DifflibFacts.width_a DifflibFacts.width_b fold_right] in C.
    assert (F : Forall (same_segments a b) [(0, List.length a, 0, List.length b)]).
    { apply C; [| lia | lia]. constructor; [unfold valid; lia | constructor]. }
    inversion F as [| ? ? F1 _]; subst. unfold same_segments, seg in F1.
    rewrite !Nat.sub_0_r in F1. cbn [skipn] in F1.
    rewrite !firstn_all in F1. exact F1.
Qed.

End DifflibBlocks.

(* ===================================================================== *)
(** * The candidates with the score 1                                     *)
(* ===================================================================== *)

Lemma field_ratio_one (x y : option str) :
  (0 <= field_ratio x y <= 1)%Q
  /\ ((1 <= field_ratio x y)%Q -> _normalize_string x = _normalize_string y).
Proof.
  split; [apply DifflibFacts.ratio_range |].
  intros H. apply DifflibBlocks.ratio_one. apply Qle_antisym; [| exact H].
  apply DifflibFacts.ratio_range.
Qed.

(** X28.  In the range of the tables and clear of a tie between engine
    numbers, a candidate has the score 1 only if it agrees with the listing
    on every field present on both sides. *)
Theorem score_one_means_agreement (v : VehicleCreate.t) (c : CanonicalVehicle.t) :
  faithful v c = true ->
  returns (_calculate_similarity v c) 1 ->
  (both (VehicleCreate.brand v) (CanonicalVehicle.brand c) = true ->
   _normalize_string (VehicleCreate.brand v)
   = _normalize_string (CanonicalVehicle.brand c))
  /\ (both (VehicleCreate.model v) (CanonicalVehicle.model c) = true ->
      _normalize_string (VehicleCreate.model v)
      = _normalize_string (CanonicalVehicle.model c))
  /\ (both (VehicleCreate.year v) (CanonicalVehicle.year c) = true ->
      val (VehicleCreate.year v) = val (CanonicalVehicle.year c))
  /\ (both (VehicleCreate.edition v) (CanonicalVehicle.edition c) = true ->
      _normalize_string (VehicleCreate.edition v)
      = _normalize_string (CanonicalVehicle.edition c))
  /\ (both (VehicleCreate.engine v) (CanonicalVehicle.engine c) = true ->
      _similar_engines (VehicleCreate.engine v) (CanonicalVehicle.engine c)
      = Ok true).
Proof.
  intros _. unfold both, _calculate_similarity.
  destruct (field_ratio_one (VehicleCreate.brand v) (CanonicalVehicle.brand c))
    as [Rb Eb].
  destruct (field_ratio_one (VehicleCreate.model v) (CanonicalVehicle.model c))
    as [Rm Em].
  destruct (field_ratio_one (VehicleCreate.edition v) (CanonicalVehicle.edition c))
    as [Re Ee].
  set (rb := field_ratio (VehicleCreate.brand v) (CanonicalVehicle.brand c)) in *.
  set (rm := field_ratio (VehicleCreate.model v) (CanonicalVehicle.model c)) in *.
  set (re := field_ratio (VehicleCreate.edition v) (CanonicalVehicle.edition c))
    in *.
  clearbody rb rm re.
  assert (Ey : str_eqb (val (VehicleCreate.year v)) (val (CanonicalVehicle.year c))
               = true ->
               val (VehicleCreate.year v) = val (CanonicalVehicle.year c))
    by apply str_eqb_eq.
  destruct (_similar_engines (VehicleCreate.engine v) (CanonicalVehicle.engine c))
    as [[|] | e];
    destruct (str_eqb (val (VehicleCreate.year v)) (val (CanonicalVehicle.year c)));
    destruct (truthy (VehicleCreate.brand v) && truthy (CanonicalVehicle.brand c));
    destruct (truthy (VehicleCreate.model v) && truthy (CanonicalVehicle.model c));
    destruct (truthy (VehicleCreate.year v) && truthy (CanonicalVehicle.year c));
    destruct (truthy (VehicleCreate.edition v)
              && truthy (CanonicalVehicle.edition c));
    destruct (truthy (VehicleCreate.engine v)
              && truthy (CanonicalVehicle.engine c));
    cbn [rbind returns]; intros H; try contradiction;
    try (exfalso; vm_compute in H; discriminate H);
    (apply DifflibBlocks.Qdiv_one in H; [| reflexivity]);
    repeat split; intros T; try discriminate T;
    first [ reflexivity
          | apply Eb; lra | apply Em; lra | apply Ee; lra
          | apply Ey; reflexivity
          | exfalso; lra ].
Qed.

Lemma score_one_means_agreement_witness :
  _normalize_string (text "HONDA") = _normalize_string (text " honda ")
  /\ _similar_engines (text "1.5L Turbo") (text "1.5l-turbo") = Ok true.
Proof.
  destruct (score_one_means_agreement
              (listing (text "HONDA") (text "Civic") (text "2020") None
                       (text "1.5L Turbo"))
              (candidate [] (text " honda ") (text "civic") (text "2020") None
                         (text "1.5l-turbo")))
    as (H1 & _ & _ & _ & H5).
  - reflexivity.
  - vm_compute. reflexivity.
  - split; [apply H1; reflexivity | apply H5; reflexivity].
Defined.

(** ** The unit tests of the repository, replayed on the embedding

    [tests/test_canonical_vehicle_service.py]: [test_similar_engines],
    [test_similarity_calculation_exact_match], [..._different_brand],
    [..._different_year], [test_find_or_create_canonical_vehicle_existing]
    and [test_update_canonical_vehicle_stats]. *)

Example test_similar_engines :
  _similar_engines (text "1.5L Turbo") (text "1.5 Turbo") = Ok true
  /\ _similar_engines (text "1.5L TURBO") (text "1.5l turbo") = Ok true
  /\ _similar_engines (text "2.0L") (text "2.0") = Ok true
  /\ _similar_engines (text "1.5L Turbo") (text "2.0L") = Ok false
  /\ _similar_engines (text "V6") (text "I4") = Ok false
  /\ _similar_engines (text "") (text "1.5L") = Ok false
  /\ _similar_engines None (text "1.5L") = Ok false.
Proof. vm_compute. repeat split; reflexivity. Qed.

Example test_similarity_calculation :
  let canonical_data := candidate [] (text "Honda") (text "Civic") (text "2020")
                                  (text "LX") (text "1.5L Turbo") in
  returns (_calculate_similarity
             (listing (text "Honda") (text "Civic") (text "2020") (text "LX")
                      (text "1.5L Turbo")) canonical_data) 1
  /\ (exists q, _calculate_similarity
                  (listing (text "Toyota") (text "Corolla") (text "2020")
                           (text "XEI") (text "2.0L")) canonical_data = Ok q
                /\ (q < 0.5)%Q)
  /\ (exists q, _calculate_similarity
                  (listing (text "Honda") (text "Civic") (text "2019") (text "LX")
                           (text "1.5L Turbo")) canonical_data = Ok q
                /\ (0.8 <= q <= 0.95)%Q).
Proof.
  cbv zeta. split; [vm_compute; reflexivity |].
  split; eexists; (split; [vm_compute; reflexivity |]).
  - reflexivity.
  - split; discriminate.
Qed.

Example test_find_or_create_canonical_vehicle_existing :
  let first := listing (text "Honda") (text "Civic") (text "2020") (text "LX")
                       (text "1.5L Turbo") in
  let second := listing (text "Honda") (text "Civic") (text "2020") (text "LX")
                        (text "1.5 Turbo") in
  let third := listing (text "HONDA") (text "CIVIC") (text "2020") (text "LX")
                       (text "1.5L TURBO") in
  let older := listing (text "Honda") (text "Civic") (text "2019") (text "LX")
                       (text "1.5L Turbo") in
  let '(id1, s1) := find_or_create_canonical_vehicle literal_regex first (store []) in
  let '(id2, s2) := find_or_create_canonical_vehicle literal_regex second s1 in
  let '(id3, s3) := find_or_create_canonical_vehicle literal_regex third s2 in
  let '(id4, s4) := find_or_create_canonical_vehicle literal_regex older s3 in
  id1 = Ok (Some (fresh_id 0)) /\ id2 = id1 /\ id3 = id1
  /\ id4 = Ok (Some (fresh_id 1))
  /\ List.length (canonical_vehicles s4) = 2.
Proof. vm_compute. repeat split; reflexivity. Qed.

Example test_update_canonical_vehicle_stats :
  let vehicle n price views km :=
    Vehicle.mk (Some (fresh_id n)) VehicleStatus.ACTIVE (Some price) (Some views)
               (text km) in
  let s := mkdb [honda_civic_group 0 (text "2020") None None]
                [vehicle 0%N 85000000%Q 100%Z "50,000 km"%string;
                 vehicle 0%N 87000000%Q 150%Z "45,000 km"%string] [] 0 1 [] in
  match lookup_by_id (fresh_id 0)
          (canonical_vehicles (snd (update_canonical_vehicle_stats (fresh_id 0) s)))
  with
  | Some updated =>
      CanonicalVehicle.total_listings updated = 2%Z
      /\ CanonicalVehicle.active_listings updated = 2%Z
      /\ CanonicalVehicle.total_views updated = 250%Z
      /\ CanonicalVehicle.min_price updated = Some 85000000%Q
      /\ CanonicalVehicle.max_price updated = Some 87000000%Q
      /\ option_map Qred (CanonicalVehicle.avg_price updated) = Some 86000000%Q
      /\ option_map Qred (CanonicalVehicle.average_kilometers updated) = Some 47500%Q
  | None => False
  end.
Proof. vm_compute. repeat split; reflexivity. Qed.
